(** * Ghostty configuration support: parser, validators and completion

    A shallow embedding of the TypeScript sources

      - [types.ts]                       (schema, parsed lines, validation results)
      - [validation/validators.ts]       ([validateValue] and the per-type validators)
      - [parser/configParser.ts]         ([parseLine], [isInKeyPosition], ...)
      - [providers/completionProvider.ts] (key and value completion)

    together with the properties the specification states about them.

    JavaScript strings are sequences of UTF-16 code units; they are modelled
    as lists of [N].  Indices and lengths are [Z], as [indexOf] answers [-1]
    when nothing is found.  Numbers are IEEE 754 binary64 values, modelled
    with the Standard Library's [spec_float]. *)

From Stdlib Require Import List Bool ZArith NArith Lia String Ascii.
From Stdlib Require Import Floats.SpecFloat.
Import ListNotations.

Set Implicit Arguments.

(** ** JavaScript strings and the built-in methods the sources call *)

Module JS.

Definition str := list N.

(** A literal of the source, written with ASCII characters only. *)
Definition lit (s : string) : str := map N_of_ascii (list_ascii_of_string s).

Definition len (s : str) : Z := Z.of_nat (List.length s).

Fixpoint str_eqb (a b : str) : bool :=
  match a, b with
  | [], [] => true
  | x :: a', y :: b' => N.eqb x y && str_eqb a' b'
  | _, _ => false
  end.

(** ECMAScript [WhiteSpace] and [LineTerminator] code points: what
    [String.prototype.trim] strips and what [\s] matches. *)
Definition isLineTerminator (c : N) : bool :=
  (N.eqb c 10 || N.eqb c 13 || N.eqb c 8232 || N.eqb c 8233)%N.

Definition isWhitespace (c : N) : bool :=
  (N.eqb c 9 || N.eqb c 11 || N.eqb c 12 || N.eqb c 32 || N.eqb c 160
   || N.eqb c 5760 || (N.leb 8192 c && N.leb c 8202)
   || N.eqb c 8239 || N.eqb c 8287 || N.eqb c 12288 || N.eqb c 65279
   || isLineTerminator c)%N.

Fixpoint dropWhile (p : N -> bool) (s : str) : str :=
  match s with
  | [] => []
  | c :: s' => if p c then dropWhile p s' else s
  end.

Fixpoint takeWhile (p : N -> bool) (s : str) : str :=
  match s with
  | [] => []
  | c :: s' => if p c then c :: takeWhile p s' else []
  end.

Definition trimStart (s : str) : str := dropWhile isWhitespace s.
Definition trimEnd (s : str) : str := rev (dropWhile isWhitespace (rev s)).
Definition trim (s : str) : str := trimEnd (trimStart s).

(** [s.indexOf(c)] for a one-character search string: the index of the
    first occurrence, [-1] when there is none. *)
Fixpoint indexOf (c : N) (s : str) : Z :=
  match s with
  | [] => -1
  | x :: s' =>
      if N.eqb x c then 0
      else let i := indexOf c s' in if (i =? -1)%Z then -1 else (i + 1)%Z
  end.

(** [s.substring(a)] and [s.substring(a, b)]: arguments are clamped to
    [0 .. length] and swapped when out of order. *)
Definition clamp (s : str) (i : Z) : nat := Z.to_nat (Z.min (Z.max i 0) (len s)).

Definition substring (s : str) (a b : Z) : str :=
  let a' := clamp s a in
  let b' := clamp s b in
  let lo := Nat.min a' b' in
  let hi := Nat.max a' b' in
  firstn (hi - lo) (skipn lo s).

Definition substringFrom (s : str) (a : Z) : str := substring s a (len s).

(** [s.slice(0, -1)]: everything but the last code unit. *)
Definition sliceDropLast (s : str) : str := removelast s.

Fixpoint startsWith (s p : str) {struct p} : bool :=
  match p, s with
  | [], _ => true
  | y :: p', x :: s' => N.eqb x y && startsWith s' p'
  | _ :: _, [] => false
  end.

Definition endsWithChar (s : str) (c : N) : bool :=
  match rev s with
  | x :: _ => N.eqb x c
  | [] => false
  end.

(** [s.includes(p)]: [p] occurs in [s] as a contiguous substring. *)
Fixpoint includes (s p : str) : bool :=
  startsWith s p ||
  match s with
  | [] => false
  | _ :: s' => includes s' p
  end.

(** [arr.includes(x)] and [set.has(x)] for strings. *)
Definition member (x : str) (l : list str) : bool := existsb (str_eqb x) l.

(** [s.split(c)] for a one-character separator. *)
Fixpoint split_aux (c : N) (acc : str) (s : str) : list str :=
  match s with
  | [] => [rev acc]
  | x :: s' =>
      if N.eqb x c then rev acc :: split_aux c [] s'
      else split_aux c (x :: acc) s'
  end.

Definition split (c : N) (s : str) : list str := split_aux c [] s.

(** [arr.join(sep)]. *)
Fixpoint join (sep : str) (l : list str) : str :=
  match l with
  | [] => []
  | [x] => x
  | x :: l' => x ++ sep ++ join sep l'
  end.

(** [String.prototype.toLowerCase], by code unit, on a part of Unicode.
    The table holds the case mappings of Basic Latin and of the Latin-1
    supplement (code units below U+0100), and those of the code points
    outside these blocks whose lower case has a code unit inside them:
    U+0130, U+0178, U+1E9E, U+212A and U+212B.  Every other code unit is
    kept as it is, which is not what the built-in does for the capital
    letters of the other scripts (Greek, Cyrillic and so on).

    The model is therefore exact on the strings of [isLatin1], and it
    answers as the built-in does whenever a lower-cased string is compared
    with a string of [isLatin1]: the vocabularies of the sources are such
    strings.  The statements on the completion filters, which lower-case
    strings taken from a schema and typed by the user, carry [isLatin1]
    as a hypothesis. *)
Definition lowerUnit (c : N) : str :=
  if (N.leb 65 c && N.leb c 90)%N then [(c + 32)%N]
  else if (N.leb 192 c && N.leb c 222 && negb (N.eqb c 215))%N then [(c + 32)%N]
  else if N.eqb c 304 then [105; 775]%N
  else if N.eqb c 376 then [255]%N
  else if N.eqb c 7838 then [223]%N
  else if N.eqb c 8490 then [107]%N
  else if N.eqb c 8491 then [229]%N
  else [c].

Definition toLowerCase (s : str) : str := flat_map lowerUnit s.

(** Strings of Basic Latin and Latin-1 code units. *)
Definition isLatin1 (s : str) : bool := forallb (fun c => N.ltb c 256) s.

(** Lexicographic order on code units: JavaScript's [<] on strings. *)
Fixpoint str_ltb (a b : str) : bool :=
  match a, b with
  | _, [] => false
  | [], _ :: _ => true
  | x :: a', y :: b' => N.ltb x y || (N.eqb x y && str_ltb a' b')
  end.

Definition truthy (s : str) : bool := negb (str_eqb s []).

(** Characters the sources search for. *)
Definition equalsSign : N := 61.
Definition colon : N := 58.
Definition hash : N := 35.
Definition percent : N := 37.

End JS.

(** ** Regular expressions

    The regular-expression literals of the sources are written as terms of
    [re] and run by derivatives.  None of them uses back-references or
    look-around, so [test] depends on the language of the expression only;
    [Lang] is that language, and [matches_Lang] ties the two together. *)

Module Regex.
Import JS.

Inductive re : Type :=
| Void : re
| Eps : re
| Cls : (N -> bool) -> re
| Seq : re -> re -> re
| Alt : re -> re -> re
| Star : re -> re.

Definition Chr (c : N) : re := Cls (N.eqb c).
Definition Opt (r : re) : re := Alt r Eps.
Definition Plus (r : re) : re := Seq r (Star r).

Fixpoint Rep (n : nat) (r : re) : re :=
  match n with
  | O => Eps
  | S n' => Seq r (Rep n' r)
  end.

(** [r{0,n}] *)
Fixpoint RepUpTo (n : nat) (r : re) : re :=
  match n with
  | O => Eps
  | S n' => Opt (Seq r (RepUpTo n' r))
  end.

Fixpoint Word (s : str) : re :=
  match s with
  | [] => Eps
  | c :: s' => Seq (Chr c) (Word s')
  end.

Fixpoint nullable (r : re) : bool :=
  match r with
  | Void => false
  | Eps => true
  | Cls _ => false
  | Seq a b => nullable a && nullable b
  | Alt a b => nullable a || nullable b
  | Star _ => true
  end.

Fixpoint deriv (c : N) (r : re) : re :=
  match r with
  | Void => Void
  | Eps => Void
  | Cls p => if p c then Eps else Void
  | Seq a b =>
      if nullable a then Alt (Seq (deriv c a) b) (deriv c b)
      else Seq (deriv c a) b
  | Alt a b => Alt (deriv c a) (deriv c b)
  | Star a => Seq (deriv c a) (Star a)
  end.

(** [/^r$/.test(s)] *)
Fixpoint matches (r : re) (s : str) : bool :=
  match s with
  | [] => nullable r
  | c :: s' => matches (deriv c r) s'
  end.

(** [/^r/.test(s)]: some prefix of [s] belongs to [r]. *)
Fixpoint matchesPrefix (r : re) (s : str) : bool :=
  nullable r ||
  match s with
  | [] => false
  | c :: s' => matchesPrefix (deriv c r) s'
  end.

Inductive Lang : re -> str -> Prop :=
| L_Eps : Lang Eps []
| L_Cls : forall p c, p c = true -> Lang (Cls p) [c]
| L_Seq : forall a b s t, Lang a s -> Lang b t -> Lang (Seq a b) (s ++ t)
| L_AltL : forall a b s, Lang a s -> Lang (Alt a b) s
| L_AltR : forall a b s, Lang b s -> Lang (Alt a b) s
| L_Star0 : forall a, Lang (Star a) []
| L_StarS : forall a s t, Lang a s -> Lang (Star a) t -> Lang (Star a) (s ++ t).

Create HintDb regex.
#[global] Hint Constructors Lang : regex.

(** Classes of code units used by the literals. *)
Definition isDigit (c : N) : bool := (N.leb 48 c && N.leb c 57)%N.
Definition isHexDigit (c : N) : bool :=
  (isDigit c || (N.leb 97 c && N.leb c 102) || (N.leb 65 c && N.leb c 70))%N.
Definition isAlpha (c : N) : bool :=
  ((N.leb 97 c && N.leb c 122) || (N.leb 65 c && N.leb c 90))%N.
Definition isKeyChar (c : N) : bool :=
  (isAlpha c || isDigit c || N.eqb c 95 || N.eqb c 45)%N.
(** [.] without the [s] flag: anything but a line terminator. *)
Definition isDot (c : N) : bool := negb (isLineTerminator c).

End Regex.

(** ** Numbers: [parseFloat], [isNaN] and the comparisons

    [parseFloat] skips leading white space, reads the longest prefix that
    is a [StrDecimalLiteral] and answers the binary64 value nearest to it
    (ties to even), [NaN] when there is no such prefix. *)

Module Num.
Import JS Regex.

Definition number := spec_float.

Definition prec : Z := 53.
Definition emax : Z := 1024.

Definition isNaN (x : number) : bool :=
  match x with
  | S754_nan => true
  | _ => false
  end.

(** [x < y] and [x > y] on numbers; both are false when an operand is NaN. *)
Definition ltb (x y : number) : bool := SFltb x y.
Definition gtb (x y : number) : bool := SFltb y x.
Definition leb (x y : number) : bool := SFleb x y.

Definition digitsValue (ds : str) : Z :=
  fold_left (fun acc c => acc * 10 + (Z.of_N c - 48))%Z ds 0%Z.

(** The binary64 value nearest to [m * 10^e], for [0 <= m]. *)
Definition decimalToNumber (neg : bool) (m e : Z) : number :=
  match m with
  | Z0 => S754_zero neg
  | Zneg _ => S754_nan
  | Zpos _ =>
      if (0 <=? e)%Z then
        binary_normalize prec emax
          (if neg then Z.opp (m * 10 ^ e) else (m * 10 ^ e))%Z 0%Z neg
      else
        let '(q, e', l) :=
          SFdiv_core_binary prec emax m 0%Z (10 ^ (- e))%Z 0%Z in
        binary_round_aux prec emax neg q e' l
  end.

Definition readSign (s : str) : bool * str :=
  match s with
  | 45%N :: r => (true, r)
  | 43%N :: r => (false, r)
  | _ => (false, s)
  end.

(** The exponent part [e[+-]ddd], when it is complete; [0] otherwise. *)
Definition readExponent (s : str) : Z :=
  match s with
  | c :: r =>
      if (N.eqb c 101 || N.eqb c 69)%N then
        let '(eneg, r') := readSign r in
        let ed := takeWhile isDigit r' in
        match ed with
        | [] => 0%Z
        | _ => if eneg then Z.opp (digitsValue ed) else digitsValue ed
        end
      else 0%Z
  | [] => 0%Z
  end.

Definition parseFloat (input : str) : number :=
  let '(neg, s1) := readSign (trimStart input) in
  if startsWith s1 (lit "Infinity") then S754_infinity neg
  else
    let ip := takeWhile isDigit s1 in
    let r1 := dropWhile isDigit s1 in
    let '(fp, r2) :=
      match r1 with
      | 46%N :: r => (takeWhile isDigit r, dropWhile isDigit r)
      | _ => ([], r1)
      end in
    match ip ++ fp with
    | [] => S754_nan
    | ds => decimalToNumber neg (digitsValue ds)
              (readExponent r2 - Z.of_nat (List.length fp))
    end.

End Num.

(** ** Data model ([types.ts])

    Record fields carry a short prefix where the source reuses a name in
    several interfaces ([type], [description]).  An optional field is an
    [option]; [None] is JavaScript's [undefined]. *)

Module Types.
Import JS Num.

Inductive ConfigValueType : Type :=
| TString | TNumber | TBoolean | TColor | TEnum
| TKeybind | TPath | TPercentage | TDuration | TTheme.

Inductive Platform : Type := Macos | Linux.

Record ConfigOption : Type := {
  opt_type : ConfigValueType;
  opt_description : str;
  opt_repeatable : option bool;
  opt_deprecated : option bool;
  opt_enum : option (list str);
  opt_examples : option (list str);
  opt_platforms : option (list Platform);
  opt_minimum : option number;
  opt_maximum : option number;
  opt_pattern : option str;
  opt_default : option str
}.

Record TypeDefinition : Type := {
  td_description : str;
  td_patterns : option (list str);
  td_validValues : option (list str);
  td_namedValues : option (list str);
  td_prefixes : option (list str);
  td_modifiers : option (list str);
  td_actions : option (list str)
}.

(** [options] and [types] are JavaScript objects used as maps.  They are
    kept as association lists in the order [Object.entries] enumerates
    them; an object has each of its keys once, which [schema_wf] records.
    The list holds the object's own properties: [lookup] reads these, and
    [getProperty] below reads a property as [object[key]] does, through
    the prototype. *)
Record GhosttySchema : Type := {
  sch_version : str;
  sch_description : str;
  sch_options : list (str * ConfigOption);
  sch_types : list (str * TypeDefinition);
  sch_repeatableKeys : list str
}.

Fixpoint lookup (A : Type) (k : str) (l : list (str * A)) : option A :=
  match l with
  | [] => None
  | (k', v) :: l' => if str_eqb k' k then Some v else lookup k l'
  end.

(** The names of the members every plain object inherits from
    [Object.prototype]. *)
Definition objectPrototypeNames : list str :=
  map lit
    ["constructor"; "hasOwnProperty"; "isPrototypeOf";
     "propertyIsEnumerable"; "toLocaleString"; "toString"; "valueOf";
     "__proto__"; "__defineGetter__"; "__defineSetter__";
     "__lookupGetter__"; "__lookupSetter__"]%string.

(** [object[key]] on a plain object: the object's own entry; or, for a
    name of [objectPrototypeNames] that the object does not define, the
    inherited member; or [undefined].  An inherited member is a function,
    or [Object.prototype] itself for [__proto__]: it is truthy, and it has
    none of the fields of a [ConfigOption], each of which reads as
    [undefined] on it. *)
Inductive Property (A : Type) : Type :=
| Own (a : A)
| Inherited
| Absent.

Arguments Inherited {A}.
Arguments Absent {A}.

Definition getProperty (A : Type) (key : str) (object : list (str * A))
  : Property A :=
  match lookup key object with
  | Some a => Own a
  | None => if member key objectPrototypeNames then Inherited else Absent
  end.

Definition schema_wf (schema : GhosttySchema) : Prop :=
  NoDup (map fst (sch_options schema)).

Record Range : Type := { r_start : Z; r_end : Z }.

Inductive LineType : Type := LComment | LKeyValue | LEmpty | LInvalid.

Record ParsedLine : Type := {
  pl_type : LineType;
  pl_lineNumber : Z;
  pl_key : option str;
  pl_value : option str;
  pl_keyRange : option Range;
  pl_valueRange : option Range;
  pl_raw : str
}.

Inductive Severity : Type := SevError | SevWarning | SevInfo | SevHint.

(** The messages of [validators.ts], one constructor per template string,
    with the values the template interpolates. *)
Inductive Message : Type :=
| MsgUnknownKey (key : str)
    (* Unknown configuration key: '${key}' *)
| MsgInvalidBoolean (value : str)
    (* Invalid boolean value: '${value}'. Expected one of: ... *)
| MsgInvalidNumber (value : str)
    (* Invalid number: '${value}' *)
| MsgBelowMinimum (num minimum : number)
    (* Value ${num} is below minimum ${option.minimum} *)
| MsgAboveMaximum (num maximum : number)
    (* Value ${num} is above maximum ${option.maximum} *)
| MsgInvalidColour (value : str)
    (* Invalid colour: '${value}'. Expected hex ... or named colour *)
| MsgInvalidEnum (value : str) (allowed : list str)
    (* Invalid value: '${value}'. Expected one of: ${option.enum.join(', ')} *)
| MsgKeybindFormat
    (* Invalid keybind format. Expected: [prefix:]trigger=action[:param] *)
| MsgEmptyTrigger
    (* Keybind trigger cannot be empty *)
| MsgEmptyAction
    (* Keybind action cannot be empty *)
| MsgUnknownAction (actionName : str)
    (* Unknown keybind action: '${actionName}' *)
| MsgEmptyPath
    (* Path cannot be empty *)
| MsgInvalidPercentage (value : str)
    (* Invalid percentage/number: '${value}' *)
| MsgInvalidDuration (value : str).
    (* Invalid duration: '${value}'. Expected number with optional unit *)

Record ValidationResult : Type := {
  isValid : bool;
  message : option Message;
  severity : option Severity
}.

End Types.

(** ** Validators ([validation/validators.ts]) *)

Module Validators.
Import JS Regex Num Types.

(** [/^#[0-9a-fA-F]{3}$|^#[0-9a-fA-F]{6}$|^#[0-9a-fA-F]{8}$/] *)
Definition HEX_COLOR_REGEX : re :=
  Alt (Seq (Chr hash) (Rep 3 (Cls isHexDigit)))
      (Alt (Seq (Chr hash) (Rep 6 (Cls isHexDigit)))
           (Seq (Chr hash) (Rep 8 (Cls isHexDigit)))).

(** [/^[0-9a-fA-F]{6}$/] *)
Definition HEX_COLOR_NO_HASH_REGEX : re := Rep 6 (Cls isHexDigit).

Definition NAMED_COLORS : list str :=
  map lit
    ["black"; "red"; "green"; "yellow"; "blue"; "magenta"; "cyan"; "white";
     "gray"; "grey"; "darkred"; "darkgreen"; "darkyellow"; "darkblue";
     "darkmagenta"; "darkcyan"; "lightgray"; "lightgrey"; "lightred";
     "lightgreen"; "lightyellow"; "lightblue"; "lightmagenta"; "lightcyan";
     "orange"; "pink"; "purple"; "brown"; "gold"; "silver"; "navy"; "maroon";
     "olive"; "lime"; "aqua"; "teal"; "fuchsia"; "transparent";
     "cell-foreground"; "cell-background"; "background"; "extend";
     "extend-always"]%string.

Definition BOOLEAN_VALUES : list str :=
  map lit ["true"; "false"; "yes"; "no"; "on"; "off"]%string.

Definition valid : ValidationResult :=
  {| isValid := true; message := None; severity := None |}.

Definition invalid (m : Message) (s : Severity) : ValidationResult :=
  {| isValid := false; message := Some m; severity := Some s |}.

Definition validateBoolean (value : str) : ValidationResult :=
  let normalised := toLowerCase value in
  if member normalised BOOLEAN_VALUES then valid
  else invalid (MsgInvalidBoolean value) SevError.

(** A function body that is a sequence of guarded [return]s followed by a
    final [return]: the first guard that fires decides. *)
Fixpoint firstReturn (guards : list (option ValidationResult))
  (final : ValidationResult) : ValidationResult :=
  match guards with
  | [] => final
  | Some r :: _ => r
  | None :: rest => firstReturn rest final
  end.

Definition validateNumber (value : str) (option : option ConfigOption)
  : ValidationResult :=
  let num := parseFloat value in
  firstReturn
    [ if isNaN num then Some (invalid (MsgInvalidNumber value) SevError)
      else None;
      match option with
      | Some o =>
          match opt_minimum o with
          | Some mn =>
              if Num.ltb num mn
              then Some (invalid (MsgBelowMinimum num mn) SevError)
              else None
          | None => None
          end
      | None => None
      end;
      match option with
      | Some o =>
          match opt_maximum o with
          | Some mx =>
              if Num.gtb num mx
              then Some (invalid (MsgAboveMaximum num mx) SevError)
              else None
          | None => None
          end
      | None => None
      end ]
    valid.

Definition validateColor (value : str) : ValidationResult :=
  if matches HEX_COLOR_REGEX value || matches HEX_COLOR_NO_HASH_REGEX value
  then valid
  else if member (toLowerCase value) NAMED_COLORS then valid
  else invalid (MsgInvalidColour value) SevError.

Definition validateEnum (value : str) (option : ConfigOption)
  : ValidationResult :=
  match opt_enum option with
  | None => valid
  | Some allowed =>
      if member value allowed then valid
      else invalid (MsgInvalidEnum value allowed) SevError
  end.

Definition validateKeybind (value : str) (schema : GhosttySchema)
  : ValidationResult :=
  if str_eqb value (lit "clear") then valid
  else
    let equalsIndex := indexOf equalsSign value in
    if (equalsIndex =? -1)%Z then invalid MsgKeybindFormat SevError
    else
      let trigger := substring value 0 equalsIndex in
      let actionPart := substringFrom value (equalsIndex + 1) in
      if str_eqb (trim trigger) [] then invalid MsgEmptyTrigger SevError
      else
        let actionName := hd [] (split colon actionPart) in
        if str_eqb (trim actionName) [] then invalid MsgEmptyAction SevError
        else
          match lookup (lit "keybind") (sch_types schema) with
          | Some keybindType =>
              match td_actions keybindType with
              | Some actions =>
                  if (0 <? Z.of_nat (List.length actions))%Z
                     && negb (member actionName actions)
                  then invalid (MsgUnknownAction actionName) SevWarning
                  else valid
              | None => valid
              end
          | None => valid
          end.

Definition validatePath (value : str) : ValidationResult :=
  if str_eqb (trim value) [] then invalid MsgEmptyPath SevError
  else if startsWith value (lit "~") || startsWith value (lit "/")
          || startsWith value (lit "./") || startsWith value (lit "?")
  then valid
  else valid.

Definition validatePercentage (value : str) : ValidationResult :=
  let cleanValue :=
    if endsWithChar value percent then sliceDropLast value else value in
  let num := parseFloat cleanValue in
  if isNaN num then invalid (MsgInvalidPercentage value) SevError
  else valid.

(** [/^-?\d+(\.\d+)?(y|d|h|m|s|ms|us|µs|ns)?$/] *)
Definition durationRegex : re :=
  Seq (Opt (Chr 45))
   (Seq (Plus (Cls isDigit))
    (Seq (Opt (Seq (Chr 46) (Plus (Cls isDigit))))
         (Opt (Alt (Word (lit "y"))
              (Alt (Word (lit "d"))
              (Alt (Word (lit "h"))
              (Alt (Word (lit "m"))
              (Alt (Word (lit "s"))
              (Alt (Word (lit "ms"))
              (Alt (Word (lit "us"))
              (Alt (Word [181; 115]%N)
                   (Word (lit "ns")))))))))))))%N.

Definition validateDuration (value : str) : ValidationResult :=
  if matches durationRegex value then valid
  else invalid (MsgInvalidDuration value) SevError.

(** [schema.options[key]] is read through the prototype.  An inherited
    member passes the test [!option]; its [type] is [undefined], which the
    [switch] sends to its [default] case. *)
Definition validateValue (schema : GhosttySchema) (key value : str)
  : ValidationResult :=
  match getProperty key (sch_options schema) with
  | Absent => invalid (MsgUnknownKey key) SevWarning
  | Inherited =>
      if str_eqb (trim value) [] then valid
      else valid
  | Own option =>
      if str_eqb (trim value) [] then valid
      else
        match opt_type option with
        | TBoolean => validateBoolean value
        | TNumber => validateNumber value (Some option)
        | TColor => validateColor value
        | TEnum => validateEnum value option
        | TKeybind => validateKeybind value schema
        | TPath => validatePath value
        | TPercentage => validatePercentage value
        | TDuration => validateDuration value
        | TString | TTheme => valid
        end
  end.

End Validators.

(** ** Line parser ([parser/configParser.ts]) *)

Module Parser.
Import JS Regex Types.

(** The literal [/^(\s* )([a-zA-Z][a-zA-Z0-9_-]* )\s*=\s*(.*?)\s*$/]
    (written here with a blank before each closing parenthesis). *)
Definition KEY_VALUE_REGEX : re :=
  Seq (Star (Cls isWhitespace))
   (Seq (Seq (Cls isAlpha) (Star (Cls isKeyChar)))
    (Seq (Star (Cls isWhitespace))
     (Seq (Chr equalsSign)
      (Seq (Star (Cls isWhitespace))
       (Seq (Star (Cls isDot))
            (Star (Cls isWhitespace))))))).

(** [/^\s*#/], not anchored at the end. *)
Definition COMMENT_REGEX : re :=
  Seq (Star (Cls isWhitespace)) (Chr hash).

(** [KEY_VALUE_REGEX.exec(line)]: the three capture groups of a match.
    The key starts with a letter, so group 1 is the whole leading white
    space; no key character is white space or [=], so group 2 is the whole
    run of key characters; [\s*] after the [=] is greedy and [.*?] lazy, so
    group 3 is what follows the [=] without its surrounding white space. *)
Definition execKeyValue (line : str) : option (str * str * str) :=
  if matches KEY_VALUE_REGEX line then
    let indent := takeWhile isWhitespace line in
    let key := takeWhile isKeyChar (dropWhile isWhitespace line) in
    let rest := substringFrom line (indexOf equalsSign line + 1) in
    Some (indent, key, trim rest)
  else None.

Definition parseLine (line : str) (lineNumber : Z) : ParsedLine :=
  if str_eqb (trim line) [] then
    {| pl_type := LEmpty; pl_lineNumber := lineNumber;
       pl_key := None; pl_value := None;
       pl_keyRange := None; pl_valueRange := None; pl_raw := line |}
  else if matchesPrefix COMMENT_REGEX line then
    {| pl_type := LComment; pl_lineNumber := lineNumber;
       pl_key := None; pl_value := None;
       pl_keyRange := None; pl_valueRange := None; pl_raw := line |}
  else
    match execKeyValue line with
    | Some (indent, key, value) =>
        let keyStart := len indent in
        let keyEnd := (keyStart + len key)%Z in
        let equalsIndex := indexOf equalsSign line in
        let valueStart :=
          (equalsIndex + 1
           + (len (substringFrom line (equalsIndex + 1))
              - len (trimStart (substringFrom line (equalsIndex + 1)))))%Z in
        let valueEnd := len (trimEnd line) in
        let keyRange := {| r_start := keyStart; r_end := keyEnd |} in
        let valueRange := {| r_start := valueStart; r_end := valueEnd |} in
        {| pl_type := LKeyValue; pl_lineNumber := lineNumber;
           pl_key := Some key; pl_value := Some (trim value);
           pl_keyRange := Some keyRange; pl_valueRange := Some valueRange;
           pl_raw := line |}
    | None =>
        {| pl_type := LInvalid; pl_lineNumber := lineNumber;
           pl_key := None; pl_value := None;
           pl_keyRange := None; pl_valueRange := None; pl_raw := line |}
    end.

Fixpoint parseLines (lines : list str) (i : Z) : list ParsedLine :=
  match lines with
  | [] => []
  | l :: rest => parseLine l i :: parseLines rest (i + 1)
  end.

Definition parseDocument (text : str) : list ParsedLine :=
  parseLines (split 10 text) 0.

Definition isInKeyPosition (line : str) (character : Z) : bool :=
  let equalsIndex := indexOf equalsSign line in
  (equalsIndex =? -1)%Z || (character <=? equalsIndex)%Z.

Definition isInValuePosition (line : str) (character : Z) : bool :=
  let equalsIndex := indexOf equalsSign line in
  negb (equalsIndex =? -1)%Z && (character >? equalsIndex)%Z.

(** A document is what the functions below use of it: [lineAt(n).text].
    A position is a line number and a character offset. *)
Definition TextDocument : Type := Z -> str.

Record Position : Type := { pos_line : Z; pos_character : Z }.

Definition getKeyAtPosition (document : TextDocument) (position : Position)
  : option str :=
  let line := document (pos_line position) in
  let parsed := parseLine line (pos_line position) in
  match pl_type parsed, pl_keyRange parsed with
  | LKeyValue, Some keyRange =>
      if (r_start keyRange <=? pos_character position)%Z
         && (pos_character position <=? r_end keyRange)%Z
      then pl_key parsed
      else None
  | _, _ => None
  end.

Definition getValueAtPosition (document : TextDocument) (position : Position)
  : option (str * str) :=
  let line := document (pos_line position) in
  let parsed := parseLine line (pos_line position) in
  match pl_type parsed, pl_valueRange parsed, pl_key parsed with
  | LKeyValue, Some valueRange, Some key =>
      if truthy key then
        if (r_start valueRange <=? pos_character position)%Z
           && (pos_character position <=? r_end valueRange)%Z
        then Some (key,
                   match pl_value parsed with
                   | Some v => if truthy v then v else []
                   | None => []
                   end)
        else None
      else None
  | _, _, _ => None
  end.

End Parser.

(** ** Completion ([providers/completionProvider.ts])

    A [vscode.CompletionItem] is a record of the properties the provider
    sets; [new vscode.CompletionItem(label, kind)] is [newItem]. *)

Module Completion.
Import JS Regex Types Parser.

Inductive CompletionItemKind : Type :=
| KProperty | KValue | KColor | KEnumMember | KFunction | KKeyword | KSnippet.

Record CompletionItem : Type := {
  label : str;
  kind : CompletionItemKind;
  detail : option str;
  documentation : option str;
  insertText : option str;
  sortText : option str;
  tagDeprecated : bool;
  commandTriggerSuggest : bool
}.

Definition newItem (l : str) (k : CompletionItemKind) : CompletionItem :=
  {| label := l; kind := k; detail := None; documentation := None;
     insertText := None; sortText := None;
     tagDeprecated := false; commandTriggerSuggest := false |}.

Definition withDetail (d : str) (i : CompletionItem) : CompletionItem :=
  {| label := label i; kind := kind i; detail := Some d;
     documentation := documentation i; insertText := insertText i;
     sortText := sortText i; tagDeprecated := tagDeprecated i;
     commandTriggerSuggest := commandTriggerSuggest i |}.

Definition withInsertText (t : str) (i : CompletionItem) : CompletionItem :=
  {| label := label i; kind := kind i; detail := detail i;
     documentation := documentation i; insertText := Some t;
     sortText := sortText i; tagDeprecated := tagDeprecated i;
     commandTriggerSuggest := commandTriggerSuggest i |}.

Definition typeName (t : ConfigValueType) : str :=
  lit match t with
      | TString => "string" | TNumber => "number" | TBoolean => "boolean"
      | TColor => "color" | TEnum => "enum" | TKeybind => "keybind"
      | TPath => "path" | TPercentage => "percentage"
      | TDuration => "duration" | TTheme => "theme"
      end%string.

Definition platformName (p : Platform) : str :=
  lit match p with Macos => "macos" | Linux => "linux" end%string.

Definition isTrue (b : option bool) : bool :=
  match b with Some true => true | _ => false end.

Definition nonEmptyList (A : Type) (l : option (list A)) : option (list A) :=
  match l with
  | Some (x :: r) => Some (x :: r)
  | _ => None
  end.

Definition getTypeLabel (option : ConfigOption) : str :=
  let label0 := typeName (opt_type option) in
  let label1 :=
    if isTrue (opt_repeatable option) then label0 ++ lit " (repeatable)"
    else label0 in
  match nonEmptyList (opt_platforms option) with
  | Some ps =>
      label1 ++ lit " [" ++ join (lit ", ") (map platformName ps) ++ lit "]"
  | None => label1
  end.

Definition newline2 : str := [10; 10]%N.

Definition buildKeyDocumentation (key : str) (option : ConfigOption) : str :=
  let md0 := lit "**" ++ key ++ lit "**" ++ newline2 in
  let md1 := md0 ++ opt_description option ++ newline2 in
  let md2 :=
    md1 ++ lit "**Type:** " ++ typeName (opt_type option) ++ newline2 in
  let md3 :=
    match opt_enum option with
    | Some vs => md2 ++ lit "**Values:** " ++ join (lit ", ") vs ++ newline2
    | None => md2
    end in
  let md4 :=
    match nonEmptyList (opt_examples option) with
    | Some exs =>
        md3 ++ lit "**Examples:** `" ++ join (lit "`, `") exs ++ lit "`"
            ++ newline2
    | None => md3
    end in
  let md5 :=
    match nonEmptyList (opt_platforms option) with
    | Some ps =>
        md4 ++ lit "**Platforms:** "
            ++ join (lit ", ") (map platformName ps) ++ newline2
    | None => md4
    end in
  if isTrue (opt_deprecated option)
  then md5 ++ [9888; 65039]%N ++ lit " **Deprecated**" ++ newline2
  else md5.

Definition keyItem (key : str) (option : ConfigOption) : CompletionItem :=
  {| label := key;
     kind := KProperty;
     detail := Some (getTypeLabel option);
     documentation := Some (buildKeyDocumentation key option);
     insertText := Some (key ++ lit " = ");
     sortText :=
       Some (if isTrue (opt_deprecated option) then lit "z_" ++ key else key);
     tagDeprecated := isTrue (opt_deprecated option);
     commandTriggerSuggest := true |}.

Definition getKeyCompletions (schema : GhosttySchema)
  (textBeforeCursor : str) : list CompletionItem :=
  let prefix := toLowerCase (trim textBeforeCursor) in
  flat_map
    (fun entry : str * ConfigOption =>
       let '(key, option) := entry in
       if truthy prefix && negb (includes (toLowerCase key) prefix)
       then []
       else [keyItem key option])
    (sch_options schema).

Definition getBooleanCompletions (partial : str) : list CompletionItem :=
  let values := map lit ["true"; "false"]%string in
  map (fun v => withDetail (lit "Boolean") (newItem v KValue))
      (filter (fun v => negb (truthy partial) || startsWith v partial) values).

Definition namedColors : list str :=
  map lit ["black"; "red"; "green"; "yellow"; "blue"; "magenta"; "cyan";
           "white"; "transparent"; "cell-foreground";
           "cell-background"]%string.

Definition getColorCompletions (partial : str) : list CompletionItem :=
  let hexTemplates :=
    [(lit "#RRGGBB", lit "#", lit "Hex colour (e.g. #ff0000)")] in
  flat_map
    (fun t : str * str * str =>
       let '(tlabel, tinsert, tdetail) := t in
       if negb (truthy partial) || includes (toLowerCase tlabel) partial
          || startsWith tinsert partial
       then [withDetail tdetail (withInsertText tinsert (newItem tlabel KColor))]
       else [])
    hexTemplates
  ++
  map (fun color => withDetail (lit "Named colour") (newItem color KColor))
      (filter (fun color => negb (truthy partial) || includes color partial)
              namedColors).

Definition getEnumCompletions (option : ConfigOption) (partial : str)
  : list CompletionItem :=
  match opt_enum option with
  | None => []
  | Some vs =>
      map (fun v => withDetail (typeName (opt_type option))
                               (newItem v KEnumMember))
          (filter (fun v => negb (truthy partial)
                            || includes (toLowerCase v) partial) vs)
  end.

Definition commonPatterns : list (str * str) :=
  [(lit "ctrl+", lit "Control modifier");
   (lit "shift+", lit "Shift modifier");
   (lit "alt+", lit "Alt/Option modifier");
   (lit "super+", lit "Super/Command modifier");
   (lit "cmd+", lit "Command modifier (macOS)");
   (lit "global:", lit "Global prefix (works when unfocused)");
   (lit "performable:", lit "Performable prefix");
   (lit "clear", lit "Clear all keybindings")].

Definition commonKeybinds : list str :=
  map lit ["ctrl+c=copy_to_clipboard"; "ctrl+v=paste_from_clipboard";
           "ctrl+shift+c=copy_to_clipboard";
           "ctrl+shift+v=paste_from_clipboard"; "ctrl+t=new_tab";
           "ctrl+w=close_surface"; "ctrl+shift+t=new_window";
           "ctrl+=increase_font_size"; "ctrl+-=decrease_font_size";
           "ctrl+0=reset_font_size"]%string.

(** [partial.split('=')[1]?.toLowerCase() || ''] *)
Definition actionPrefixOf (partial : str) : str :=
  match nth_error (split equalsSign partial) 1 with
  | Some x => if truthy (toLowerCase x) then toLowerCase x else []
  | None => []
  end.

Definition getKeybindCompletions (schema : GhosttySchema) (partial : str)
  : list CompletionItem :=
  let keybindType := lookup (lit "keybind") (sch_types schema) in
  if includes partial (lit "=") then
    match keybindType with
    | Some kt =>
        match td_actions kt with
        | Some actions =>
            let actionPrefix := actionPrefixOf partial in
            map (fun action =>
                   withDetail (lit "Keybind action") (newItem action KFunction))
                (filter (fun action =>
                           negb (truthy actionPrefix)
                           || includes (toLowerCase action) actionPrefix)
                        actions)
        | None => []
        end
    | None => []
    end
  else
    map (fun p : str * str => withDetail (snd p) (newItem (fst p) KKeyword))
        (filter (fun p : str * str =>
                   negb (truthy partial)
                   || includes (toLowerCase (fst p)) partial)
                commonPatterns)
    ++
    map (fun kb => withDetail (lit "Common keybind") (newItem kb KSnippet))
        (filter (fun kb => negb (truthy partial)
                           || includes (toLowerCase kb) partial)
                commonKeybinds).

Definition themes : list str :=
  map lit ["auto"; "light"; "dark"; "Catppuccin Mocha"; "Catppuccin Frappe";
           "Catppuccin Latte"; "Catppuccin Macchiato"; "Dracula";
           "Gruvbox Dark"; "Gruvbox Light"; "Nord"; "One Dark";
           "Solarized Dark"; "Solarized Light"; "Tokyo Night"; "GitHub Dark";
           "GitHub Light"]%string.

Definition themeCombo : CompletionItem :=
  withInsertText (lit "light:${1:theme},dark:${2:theme}")
    (withDetail (lit "Light/dark theme combination")
       (newItem (lit "light:LIGHT_THEME,dark:DARK_THEME") KSnippet)).

Definition getThemeCompletions (partial : str) : list CompletionItem :=
  map (fun theme => withDetail (lit "Theme") (newItem theme KValue))
      (filter (fun theme => negb (truthy partial)
                            || includes (toLowerCase theme) partial)
              themes)
  ++
  (if negb (truthy partial) || includes (lit "light:") partial
      || includes (lit "dark:") partial
   then [themeCombo] else []).

Definition getExampleCompletions (option : ConfigOption) (partial : str)
  : list CompletionItem :=
  match nonEmptyList (opt_examples option) with
  | None => []
  | Some exs =>
      map (fun ex => withDetail (lit "Example value") (newItem ex KValue))
          (filter (fun ex => negb (truthy partial)
                             || includes (toLowerCase ex) partial) exs)
  end.

(** The partial value [getValueCompletions] extracts from the text before
    the cursor. *)
Definition partialValueOf (textBeforeCursor : str) : str :=
  let equalsIndex := indexOf equalsSign textBeforeCursor in
  if negb (equalsIndex =? -1)%Z
  then toLowerCase (trim (substringFrom textBeforeCursor (equalsIndex + 1)))
  else [].

(** The dispatch of [getValueCompletions] on the option's type. *)
Definition completeByType (schema : GhosttySchema) (option : ConfigOption)
  (partialValue : str) : list CompletionItem :=
  match opt_type option with
  | TBoolean => getBooleanCompletions partialValue
  | TColor => getColorCompletions partialValue
  | TEnum => getEnumCompletions option partialValue
  | TKeybind => getKeybindCompletions schema partialValue
  | TTheme => getThemeCompletions partialValue
  | _ => getExampleCompletions option partialValue
  end.

(** For an inherited member the [switch] takes its [default] case, and
    [getExampleCompletions] finds no [examples] on it. *)
Definition getValueCompletions (schema : GhosttySchema)
  (key textBeforeCursor : str) : list CompletionItem :=
  match getProperty key (sch_options schema) with
  | Absent => []
  | Inherited => []
  | Own option =>
      completeByType schema option (partialValueOf textBeforeCursor)
  end.

Definition provideCompletionItems (schema : GhosttySchema)
  (line : str) (lineNumber character : Z) : list CompletionItem :=
  let textBeforeCursor := substring line 0 character in
  if startsWith (trim textBeforeCursor) (lit "#") then []
  else if isInKeyPosition line character
  then getKeyCompletions schema textBeforeCursor
  else if isInValuePosition line character then
    match pl_key (parseLine line lineNumber) with
    | Some key =>
        if truthy key then getValueCompletions schema key textBeforeCursor
        else []
    | None => []
    end
  else [].

End Completion.

(** ** Hover ([providers/hoverProvider.ts])

    A [vscode.Hover] is the markdown it shows: the text appended to the
    [MarkdownString] and its [isTrusted] flag; [null] is [None].  The text
    of a number ([${option.minimum}]) is JavaScript's [Number] to [String]
    conversion, which the sources do not define: it is a parameter. *)

Module Hover.
Import JS Regex Num Types Parser Completion.

Record MarkdownString : Type := { md_value : str; md_isTrusted : bool }.

Definition Hover : Type := MarkdownString.

Definition plain (text : str) : Hover :=
  {| md_value := text; md_isTrusted := false |}.

Definition trusted (text : str) : Hover :=
  {| md_value := text; md_isTrusted := true |}.

Definition nl : str := [10%N].
Definition warningSign : str := [9888; 65039]%N.
Definition checkMark : str := [9989]%N.
Definition crossMark : str := [10060]%N.
Definition arrow : str := [8594]%N.
Definition palette : str := [55356; 57256]%N.
Definition wastebasket : str := [55357; 56785; 65039]%N.
Definition memo : str := [55357; 56541]%N.
Definition openBook : str := [55357; 56534]%N.
Definition redApple : str := [55356; 57166]%N.
Definition penguin : str := [55357; 56359]%N.

(** [s.replace(/c/g, '')] and [s.replace('c', '')] for a character. *)
Definition removeAll (c : N) (s : str) : str :=
  filter (fun x => negb (N.eqb x c)) s.

Fixpoint removeFirst (c : N) (s : str) : str :=
  match s with
  | [] => []
  | x :: s' => if N.eqb x c then s' else x :: removeFirst c s'
  end.

(** [getBooleanHover] *)
Definition enabledText (value : str) : str :=
  checkMark ++ lit " **Enabled** (`" ++ value ++ lit "` " ++ arrow
  ++ lit " true)".

Definition disabledText (value : str) : str :=
  crossMark ++ lit " **Disabled** (`" ++ value ++ lit "` " ++ arrow
  ++ lit " false)".

Definition invalidBooleanText (value : str) : str :=
  warningSign ++ lit " **Invalid boolean:** `" ++ value ++ lit "`" ++ nl ++ nl
  ++ lit "Valid values: `true`, `false`, `yes`, `no`, `on`, `off`".

Definition getBooleanHover (value : str) : Hover :=
  let normalised := toLowerCase value in
  let isTrue := member normalised (map lit ["true"; "yes"; "on"]%string) in
  let isFalse := member normalised (map lit ["false"; "no"; "off"]%string) in
  if isTrue then plain (enabledText value)
  else if isFalse then plain (disabledText value)
  else plain (invalidBooleanText value).

(** [getColorHover]: the literal [/^#?([0-9a-fA-F]{3,8})$/]; its group is
    the value without the leading [#]. *)
Definition HOVER_HEX_REGEX : re :=
  Seq (Opt (Chr hash))
      (Seq (Rep 3 (Cls isHexDigit)) (RepUpTo 5 (Cls isHexDigit))).

Definition hexGroup (value : str) : str :=
  match value with
  | c :: r => if N.eqb c hash then r else value
  | [] => value
  end.

Definition colourText (displayColor format : str) : str :=
  palette ++ lit " **Colour:** `" ++ displayColor ++ lit "`" ++ nl ++ nl
  ++ lit "Format: " ++ format.

Definition namedColourText (value : str) : str :=
  palette ++ lit " **Named colour:** `" ++ value ++ lit "`"
  ++ (if str_eqb value (lit "cell-foreground")
         || str_eqb value (lit "cell-background")
      then nl ++ nl ++ lit "Special value that uses the cell's own colour."
      else if str_eqb value (lit "transparent")
      then nl ++ nl ++ lit "Fully transparent colour."
      else []).

Definition displayColorOf (value : str) : str :=
  let hex := hexGroup value in
  match hex with
  | [h0; h1; h2] => [hash; h0; h0; h1; h1; h2; h2]
  | _ => if startsWith value (lit "#") then value else lit "#" ++ value
  end.

Definition formatOf (hex : str) : str :=
  if (len hex <=? 3)%Z then lit "#RGB"
  else if (len hex <=? 6)%Z then lit "#RRGGBB"
  else lit "#RRGGBBAA".

Definition getColorHover (value : str) : Hover :=
  if matches HOVER_HEX_REGEX value
  then plain (colourText (displayColorOf value) (formatOf (hexGroup value)))
  else plain (namedColourText value).

(** [getKeybindHover] *)
Definition clearText : str :=
  wastebasket ++ lit " **Clear all keybindings**" ++ nl ++ nl
  ++ lit "Removes all default keybindings. Add your own bindings after this.".

Definition invalidKeybindText : str :=
  warningSign ++ lit " **Invalid keybind format**" ++ nl ++ nl
  ++ lit "Expected: `[prefix:]trigger=action[:param]`".

Definition keybindPrefixes : list (str * str) :=
  [(lit "global:", lit "Works even when Ghostty is not focused");
   (lit "all:", lit "Applies to all surfaces");
   (lit "unconsumed:", lit "Only triggers if not consumed by the terminal");
   (lit "performable:", lit "Only triggers if the action can be performed")].

(** [trigger.match(/^(global:|all:|unconsumed:|performable:)/)]: the first
    of the prefixes the trigger starts with, and its description. *)
Definition prefixMatch (trigger : str) : option (str * str) :=
  find (fun p : str * str => startsWith trigger (fst p)) keybindPrefixes.

(** The action name and the parameter, split at the first [:]. *)
Definition actionNameShown (actionPart : str) : str :=
  let colonIndex := indexOf colon actionPart in
  if negb (colonIndex =? -1)%Z then substring actionPart 0 colonIndex
  else actionPart.

Definition actionParamShown (actionPart : str) : option str :=
  let colonIndex := indexOf colon actionPart in
  if negb (colonIndex =? -1)%Z
  then Some (substringFrom actionPart (colonIndex + 1))
  else None.

Definition keybindText (trigger actionPart : str) : str :=
  let pm := prefixMatch trigger in
  let prefixPart :=
    match pm with
    | Some (p, description) =>
        lit "**Prefix:** `" ++ removeFirst colon p ++ lit "` - "
        ++ description ++ nl ++ nl
    | None => []
    end in
  let triggerKeys :=
    match pm with
    | Some (p, _) => substringFrom trigger (len p)
    | None => trigger
    end in
  let actionName := actionNameShown actionPart in
  let actionParam := actionParamShown actionPart in
  lit "## Keybind" ++ nl ++ nl
  ++ prefixPart
  ++ lit "**Trigger:** `" ++ triggerKeys ++ lit "`" ++ nl ++ nl
  ++ (if includes triggerKeys (lit ">")
      then memo ++ lit " *This is a key sequence (press keys in order)*"
           ++ nl ++ nl
      else [])
  ++ lit "**Action:** `" ++ actionName ++ lit "`"
  ++ match actionParam with
     | Some param =>
         if truthy param then lit " with parameter `" ++ param ++ lit "`"
         else []
     | None => []
     end
  ++ nl ++ nl
  ++ lit "[" ++ openBook
  ++ lit " Keybind docs](https://ghostty.org/docs/config/keybind)".

Definition getKeybindHover (value : str) : Hover :=
  if str_eqb value (lit "clear") then trusted clearText
  else
    let equalsIndex := indexOf equalsSign value in
    if (equalsIndex =? -1)%Z then trusted invalidKeybindText
    else
      let trigger := substring value 0 equalsIndex in
      let actionPart := substringFrom value (equalsIndex + 1) in
      trusted (keybindText trigger actionPart).

(** [getEnumHover] *)
Definition allValuesText (validValues : list str) : str :=
  lit "**All valid values:** `" ++ join (lit "`, `") validValues ++ lit "`".

Definition validValueText (value : str) : str :=
  checkMark ++ lit " **Valid value:** `" ++ value ++ lit "`" ++ nl ++ nl.

Definition unknownValueText (value : str) : str :=
  warningSign ++ lit " **Unknown value:** `" ++ value ++ lit "`" ++ nl ++ nl.

Definition getEnumHover (key value : str) (validValues : list str) : Hover :=
  let isValid := member value validValues in
  plain ((if isValid then validValueText value else unknownValueText value)
         ++ allValuesText validValues).

(** For an inherited member the [switch] takes its [default] case, where
    the template prints the missing [type] as [undefined]. *)
Definition getValueHover (schema : GhosttySchema) (key value : str)
  : option Hover :=
  match getProperty key (sch_options schema) with
  | Absent => None
  | Inherited =>
      Some (trusted (lit "**Value:** `" ++ value ++ lit "`" ++ nl ++ nl
                     ++ lit "**Type:** " ++ lit "undefined"))
  | Own option =>
      match opt_type option with
      | TBoolean => Some (getBooleanHover value)
      | TColor => Some (getColorHover value)
      | TKeybind => Some (getKeybindHover value)
      | TEnum =>
          Some (getEnumHover key value
                  (match opt_enum option with Some vs => vs | None => [] end))
      | _ =>
          Some (trusted (lit "**Value:** `" ++ value ++ lit "`" ++ nl ++ nl
                         ++ lit "**Type:** " ++ typeName (opt_type option)))
      end
  end.

Section KeyHover.

Variable numberToString : number -> str.

Definition unknownKeyText (key : str) : str :=
  warningSign ++ lit " **Unknown configuration key:** `" ++ key ++ lit "`"
  ++ nl ++ nl
  ++ lit "This key is not recognised. Check spelling or see [Ghostty docs](https://ghostty.org/docs/config/reference).".

Definition rangeParts (option : ConfigOption) : list str :=
  (match opt_minimum option with
   | Some mn => [lit "min: " ++ numberToString mn]
   | None => []
   end)
  ++ (match opt_maximum option with
      | Some mx => [lit "max: " ++ numberToString mx]
      | None => []
      end).

Definition isMacos (p : Platform) : bool :=
  match p with Macos => true | Linux => false end.

Definition knownKeyText (key : str) (option : ConfigOption) : str :=
  lit "## " ++ key ++ nl ++ nl
  ++ opt_description option ++ nl ++ nl
  ++ lit "---" ++ nl ++ nl
  ++ lit "**Type:** `" ++ typeName (opt_type option) ++ lit "`" ++ nl ++ nl
  ++ (if isTrue (opt_repeatable option)
      then lit "**Repeatable:** Yes (can be specified multiple times)"
           ++ nl ++ nl
      else [])
  ++ match nonEmptyList (opt_enum option) with
     | Some vs =>
         lit "**Valid values:** `" ++ join (lit "`, `") vs ++ lit "`"
         ++ nl ++ nl
     | None => []
     end
  ++ match rangeParts option with
     | [] => []
     | range => lit "**Range:** " ++ join (lit ", ") range ++ nl ++ nl
     end
  ++ match nonEmptyList (opt_examples option) with
     | Some exs =>
         lit "**Examples:**" ++ nl
         ++ flat_map (fun ex => lit "- `" ++ key ++ lit " = " ++ ex
                                ++ lit "`" ++ nl) exs
         ++ nl
     | None => []
     end
  ++ match nonEmptyList (opt_platforms option) with
     | Some ps =>
         lit "**Platform:** "
         ++ (if existsb isMacos ps then redApple else penguin)
         ++ lit " " ++ join (lit ", ") (map platformName ps) ++ lit " only"
         ++ nl ++ nl
     | None => []
     end
  ++ (if isTrue (opt_deprecated option)
      then warningSign
           ++ lit " **Deprecated:** This option may be removed in future versions."
           ++ nl ++ nl
      else [])
  ++ lit "[" ++ openBook
  ++ lit " Documentation](https://ghostty.org/docs/config/reference#"
  ++ removeAll 45 key ++ lit ")".

(** The text for an inherited member: the templates print the missing
    [description] and [type] as [undefined], and none of the optional
    parts is shown. *)
Definition inheritedKeyText (key : str) : str :=
  lit "## " ++ key ++ nl ++ nl
  ++ lit "undefined" ++ nl ++ nl
  ++ lit "---" ++ nl ++ nl
  ++ lit "**Type:** `" ++ lit "undefined" ++ lit "`" ++ nl ++ nl
  ++ lit "[" ++ openBook
  ++ lit " Documentation](https://ghostty.org/docs/config/reference#"
  ++ removeAll 45 key ++ lit ")".

Definition getKeyHover (schema : GhosttySchema) (key : str) : option Hover :=
  match getProperty key (sch_options schema) with
  | Absent => Some (plain (unknownKeyText key))
  | Inherited => Some (trusted (inheritedKeyText key))
  | Own option => Some (trusted (knownKeyText key option))
  end.

Definition withinRange (character : Z) (r : option Range) : bool :=
  match r with
  | Some range =>
      (r_start range <=? character)%Z && (character <=? r_end range)%Z
  | None => false
  end.

Definition provideHover (schema : GhosttySchema) (document : TextDocument)
  (position : Position) : option Hover :=
  let line := document (pos_line position) in
  if startsWith (trim line) (lit "#") then None
  else
    let parsed := parseLine line (pos_line position) in
    match pl_type parsed, pl_key parsed with
    | LKeyValue, Some key =>
        if truthy key then
          let isOverKey :=
            withinRange (pos_character position) (pl_keyRange parsed) in
          let isOverValue :=
            withinRange (pos_character position) (pl_valueRange parsed) in
          if isOverKey then getKeyHover schema key
          else
            match pl_value parsed with
            | Some value =>
                if isOverValue then getValueHover schema key value else None
            | None => None
            end
        else None
    | _, _ => None
    end.

End KeyHover.

End Hover.

(** ** Vocabulary of the specification and sample data *)

Module Spec.
Import JS Regex Num Types Validators Parser Completion.

(** [i] is the index of the first occurrence of [c] in [s]. *)
Definition firstIndexOf (c : N) (s : str) (i : Z) : Prop :=
  (0 <= i)%Z /\ nth_error s (Z.to_nat i) = Some c /\
  forall j, (0 <= j < i)%Z -> nth_error s (Z.to_nat j) <> Some c.

(** The action name of a keybind: the text after the first [=], up to its
    first [:]. *)
Definition actionNameOf (actionPart : str) : str :=
  takeWhile (fun x => negb (N.eqb x colon)) actionPart.

(** The parsed number respects the declared minimum (maximum), bounds
    included; an undeclared bound is respected by every number. *)
Definition withinMinimum (option : ConfigOption) (num : number) : bool :=
  match opt_minimum option with
  | Some mn => Num.leb mn num
  | None => true
  end.

Definition withinMaximum (option : ConfigOption) (num : number) : bool :=
  match opt_maximum option with
  | Some mx => Num.leb num mx
  | None => true
  end.

(** Bounds read from a schema file are numbers, never NaN. *)
Definition boundsAreNumbers (option : ConfigOption) : Prop :=
  (forall mn, opt_minimum option = Some mn -> isNaN mn = false) /\
  (forall mx, opt_maximum option = Some mx -> isNaN mx = false).

(** [i] is the index of the first character of [line] after index [e]
    that is not white space. *)
Definition firstNonWhitespaceAfter (line : str) (e i : Z) : Prop :=
  (e < i)%Z
  /\ (exists c, nth_error line (Z.to_nat i) = Some c /\ isWhitespace c = false)
  /\ (forall j, (e < j < i)%Z ->
        exists c, nth_error line (Z.to_nat j) = Some c /\ isWhitespace c = true).

(** [n] is the offset at which [line] ends once its trailing white space
    is removed. *)
Definition trimmedEnd (line : str) (n : Z) : Prop :=
  (0 <= n <= len line)%Z
  /\ (forall j, (n <= j < len line)%Z ->
        exists c, nth_error line (Z.to_nat j) = Some c /\ isWhitespace c = true)
  /\ (n = 0%Z \/
      exists c, nth_error line (Z.to_nat (n - 1)) = Some c
                /\ isWhitespace c = false).

(** [s] is empty or starts with a character outside the class [p]. *)
Definition stopsAt (p : N -> bool) (s : str) : Prop :=
  match s with
  | [] => True
  | c :: _ => p c = false
  end.

(** [p] occurs in [s] as a contiguous substring. *)
Definition isSubstring (p s : str) : Prop := exists a b, s = a ++ p ++ b.

(** Key completion, in the words of the specification: a key matches when
    its lower-case form contains the trimmed, lower-cased partial text. *)
Definition keyMatches (partialText key : str) : bool :=
  includes (toLowerCase key) (toLowerCase (trim partialText)).

Definition isDeprecatedKey (schema : GhosttySchema) (key : str) : bool :=
  match lookup key (sch_options schema) with
  | Some option => isTrue (opt_deprecated option)
  | None => false
  end.

Definition str_leb (a b : str) : bool := negb (str_ltb b a).

Fixpoint sortedLex (l : list str) : bool :=
  match l with
  | a :: (b :: _) as rest => str_leb a b && sortedLex rest
  | _ => true
  end.

Fixpoint list_str_eqb (a b : list str) : bool :=
  match a, b with
  | [], [] => true
  | x :: a', y :: b' => str_eqb x y && list_str_eqb a' b'
  | _, _ => false
  end.

(** The order the specification states for a list of completed keys: the
    keys that are not deprecated, in lexicographic order, then the
    deprecated ones, in lexicographic order. *)
Definition claimedKeyOrder (schema : GhosttySchema) (keys : list str) : bool :=
  let nonDeprecated := filter (fun k => negb (isDeprecatedKey schema k)) keys in
  let deprecated := filter (isDeprecatedKey schema) keys in
  list_str_eqb keys (nonDeprecated ++ deprecated)
  && sortedLex nonDeprecated && sortedLex deprecated.

(** Value completion, in the words of the specification: a candidate is
    kept when its lower-case form contains the partial text. *)
Definition containsCI (partialText candidate : str) : bool :=
  includes (toLowerCase candidate) partialText.

Definition booleanCandidates : list str := map lit ["true"; "false"]%string.

Definition colorCandidates : list str := lit "#RRGGBB" :: namedColors.

Definition enumCandidates (option : ConfigOption) : list str :=
  match opt_enum option with Some vs => vs | None => [] end.

Definition keybindCandidates : list str :=
  map fst commonPatterns ++ commonKeybinds.

Definition actionCandidates (schema : GhosttySchema) : list str :=
  match lookup (lit "keybind") (sch_types schema) with
  | Some kt => match td_actions kt with Some actions => actions | None => [] end
  | None => []
  end.

Definition exampleCandidates (option : ConfigOption) : list str :=
  match opt_examples option with Some exs => exs | None => [] end.

Definition themeComboLabel : str := lit "light:LIGHT_THEME,dark:DARK_THEME".

(** The candidates of an option before any filtering. *)
Definition candidates (option : ConfigOption) : list str :=
  match opt_type option with
  | TBoolean => booleanCandidates
  | TColor => colorCandidates
  | TEnum => enumCandidates option
  | TKeybind => keybindCandidates
  | TTheme => themes ++ [themeComboLabel]
  | _ => exampleCandidates option
  end.

(** The labels the specification's summary sentence promises: every type
    filtered by containment of the partial text in the candidate. *)
Definition claimedValueLabels (option : ConfigOption) (partialText : str)
  : list str :=
  filter (containsCI partialText) (candidates option).

(** The labels as the code filters them: containment everywhere, except
    that booleans are matched by prefix, keybind actions by the text after
    the [=] of the partial text, and the light/dark template by containment
    of the partial text in [light:] or [dark:]. *)
Definition filteredValueLabels (schema : GhosttySchema)
  (option : ConfigOption) (partialText : str) : list str :=
  match opt_type option with
  | TBoolean => filter (fun v => startsWith v partialText) booleanCandidates
  | TColor => filter (containsCI partialText) colorCandidates
  | TEnum => filter (containsCI partialText) (enumCandidates option)
  | TKeybind =>
      if includes partialText (lit "=")
      then filter (containsCI (actionPrefixOf partialText))
                  (actionCandidates schema)
      else filter (containsCI partialText) keybindCandidates
  | TTheme =>
      filter (containsCI partialText) themes
      ++ (if includes (lit "light:") partialText
             || includes (lit "dark:") partialText
          then [themeComboLabel] else [])
  | _ => filter (containsCI partialText) (exampleCandidates option)
  end.

(** The strings that completion lower-cases are the text before the
    cursor and, of a schema, its keys, the values and examples of its
    options and its keybind actions.  The statements on the filters are
    made for strings of Basic Latin and Latin-1 characters, on which
    [toLowerCase] is modelled in full. *)
Definition latin1Keys (schema : GhosttySchema) : bool :=
  forallb isLatin1 (map fst (sch_options schema)).

Definition latin1Candidates (schema : GhosttySchema) (option : ConfigOption)
  : bool :=
  forallb isLatin1 (enumCandidates option)
  && forallb isLatin1 (exampleCandidates option)
  && forallb isLatin1 (actionCandidates schema).

(** Colours, in the words of the specification: six hexadecimal digits
    with or without a leading [#]; three or eight of them with the leading
    [#] only; or a named colour, whatever its letter case. *)
Definition hexDigitChars : str := lit "0123456789abcdefABCDEF".

Definition hexDigits (n : nat) (s : str) : Prop :=
  List.length s = n /\ forall c, In c s -> In c hexDigitChars.

Definition namedColorInsensitive (value : str) : Prop :=
  exists c, In c NAMED_COLORS /\ toLowerCase value = toLowerCase c.

Definition isColor (value : str) : Prop :=
  hexDigits 6 value
  \/ (exists t, value = hash :: t /\
                (hexDigits 3 t \/ hexDigits 6 t \/ hexDigits 8 t))
  \/ namedColorInsensitive value.

Definition plainOption (t : ConfigValueType) : ConfigOption :=
  {| opt_type := t; opt_description := []; opt_repeatable := None;
     opt_deprecated := None; opt_enum := None; opt_examples := None;
     opt_platforms := None; opt_minimum := None; opt_maximum := None;
     opt_pattern := None; opt_default := None |}.

Definition boundedOption (mn mx : option number) : ConfigOption :=
  {| opt_type := TNumber; opt_description := []; opt_repeatable := None;
     opt_deprecated := None; opt_enum := None; opt_examples := None;
     opt_platforms := None; opt_minimum := mn; opt_maximum := mx;
     opt_pattern := None; opt_default := None |}.

Definition deprecatedOption (t : ConfigValueType) : ConfigOption :=
  {| opt_type := t; opt_description := []; opt_repeatable := None;
     opt_deprecated := Some true; opt_enum := None; opt_examples := None;
     opt_platforms := None; opt_minimum := None; opt_maximum := None;
     opt_pattern := None; opt_default := None |}.

Definition keybindTypeDef (actions : option (list str)) : TypeDefinition :=
  {| td_description := []; td_patterns := None; td_validValues := None;
     td_namedValues := None; td_prefixes := None; td_modifiers := None;
     td_actions := actions |}.

Definition number8 : number := Eval vm_compute in parseFloat (lit "8").
Definition number72 : number := Eval vm_compute in parseFloat (lit "72").

Definition fontSizeOption : ConfigOption :=
  boundedOption (Some number8) (Some number72).

(** A small schema: a bounded number, a keybind with a one-word action
    vocabulary, an enum without its list, a colour and a boolean. *)
Definition sampleSchema : GhosttySchema :=
  {| sch_version := lit "1";
     sch_description := [];
     sch_options :=
       [(lit "font-size", fontSizeOption);
        (lit "keybind", plainOption TKeybind);
        (lit "window-theme", plainOption TEnum);
        (lit "background", plainOption TColor);
        (lit "bold-is-bright", plainOption TBoolean)];
     sch_types :=
       [(lit "keybind", keybindTypeDef (Some [lit "copy_to_clipboard"]))];
     sch_repeatableKeys := [lit "keybind"] |}.

(** A schema whose keys are enumerated out of lexicographic order, the
    last one deprecated. *)
Definition unorderedSchema : GhosttySchema :=
  {| sch_version := lit "1";
     sch_description := [];
     sch_options :=
       [(lit "zoom", plainOption TNumber);
        (lit "bold", plainOption TBoolean);
        (lit "abc", deprecatedOption TString)];
     sch_types := [];
     sch_repeatableKeys := [] |}.

Definition emptySchema : GhosttySchema :=
  {| sch_version := lit "1"; sch_description := []; sch_options := [];
     sch_types := []; sch_repeatableKeys := [] |}.

End Spec.

(** ** Further vocabulary, for the properties beyond the specification *)

Module SpecMore.
Import JS Regex Num Types Validators Parser Completion Hover Spec.

Definition newline : N := 10.

(** A key of the configuration language: a letter, then letters, digits,
    [_] and [-]. *)
Definition isKey (key : str) : bool :=
  match key with
  | k :: rest => isAlpha k && forallb isKeyChar rest
  | [] => false
  end.

(** A value as the parser hands it on: no white space at either end and
    no line terminator inside. *)
Definition isTrimmedValue (value : str) : Prop :=
  stopsAt isWhitespace value /\ stopsAt isWhitespace (rev value)
  /\ forallb isDot value = true.

(** The two shapes of a line that carries text and is not invalid. *)
Definition commentShape (line : str) : Prop :=
  exists w rest, line = w ++ hash :: rest /\ forallb isWhitespace w = true.

Definition keyValueShape (line indent key ws1 ws2 value ws3 : str) : Prop :=
  line = indent ++ key ++ ws1 ++ equalsSign :: ws2 ++ value ++ ws3
  /\ forallb isWhitespace indent = true
  /\ isKey key = true
  /\ forallb isWhitespace ws1 = true
  /\ forallb isWhitespace ws2 = true
  /\ isTrimmedValue value
  /\ forallb isWhitespace ws3 = true.

(** More sample data: an enum with its list, a path, a percentage. *)
Definition styleOption : ConfigOption :=
  {| opt_type := TEnum; opt_description := [];
     opt_repeatable := None; opt_deprecated := None;
     opt_enum := Some [lit "block"; lit "bar"];
     opt_examples := None; opt_platforms := None;
     opt_minimum := None; opt_maximum := None;
     opt_pattern := None; opt_default := None |}.

Definition smallSchema : GhosttySchema :=
  {| sch_version := lit "1"; sch_description := [];
     sch_options :=
       [(lit "cursor-style", styleOption);
        (lit "config-file", plainOption TPath);
        (lit "background-opacity", plainOption TPercentage);
        (lit "theme", plainOption TTheme);
        (lit "bold-is-bright", plainOption TBoolean)];
     sch_types := [(lit "keybind", keybindTypeDef None)];
     sch_repeatableKeys := [] |}.

(** Lower case of the Basic Latin capitals only. *)
Definition asciiLower (c : N) : N :=
  if (N.leb 65 c && N.leb c 90)%N then (c + 32)%N else c.

(** The text of a duration: an optional [-], digits, optionally a [.]
    and digits, optionally one of the units. *)
Definition durationUnits : list str :=
  map lit ["y"; "d"; "h"; "m"; "s"; "ms"; "us"]%string
  ++ [[181; 115]%N; lit "ns"].

Definition isDigits (s : str) : Prop := s <> [] /\ forallb isDigit s = true.

Definition isDurationText (value : str) : Prop :=
  exists sign whole fraction unit,
    value = sign ++ whole ++ fraction ++ unit
    /\ (sign = [] \/ sign = lit "-")
    /\ isDigits whole
    /\ (fraction = [] \/ exists ds, fraction = 46%N :: ds /\ isDigits ds)
    /\ (unit = [] \/ In unit durationUnits).

(** The start of a number, as [parseFloat] needs it: after the leading
    white space and an optional sign, [Infinity], a digit, or a [.]
    followed by a digit. *)
Definition startsNumber (s : str) : bool :=
  match s with
  | c :: r =>
      isDigit c
      || (N.eqb c 46 && match r with d :: _ => isDigit d | [] => false end)
  | [] => false
  end.

Definition stripSign (s : str) : str :=
  match s with
  | c :: r => if (N.eqb c 45 || N.eqb c 43)%N then r else s
  | [] => []
  end.

(** The digits of the fraction and the text after them, as [parseFloat]
    splits what follows the digits of the integer part. *)
Definition fractionOf (r1 : str) : str * str :=
  match r1 with
  | c :: r =>
      if N.eqb c 46 then (takeWhile isDigit r, dropWhile isDigit r)
      else ([], r1)
  | [] => ([], r1)
  end.

Definition hasNumericPrefix (value : str) : bool :=
  let s := stripSign (trimStart value) in
  startsWith s (lit "Infinity") || startsNumber s.

(** A keybind value with an action outside the vocabulary: it splits at
    its first [=] into a trigger and an action part, neither the trigger
    nor the action name is blank, and the schema declares a vocabulary
    that is not empty and does not hold the action name. *)
Definition unknownActionValue (schema : GhosttySchema) (value : str) : Prop :=
  exists trigger actionPart,
    value = trigger ++ equalsSign :: actionPart
    /\ ~ In equalsSign trigger
    /\ trim trigger <> []
    /\ trim (actionNameOf actionPart) <> []
    /\ actionCandidates schema <> []
    /\ ~ In (actionNameOf actionPart) (actionCandidates schema).

(** Every code unit written twice: [abc] becomes [aabbcc]. *)
Definition doubled (s : str) : str := flat_map (fun c => [c; c]) s.

(** The values [validateColor] accepts for their hexadecimal form, seen
    through the digits after the optional [#]. *)
Definition acceptedHexForm (value : str) : Prop :=
  List.length (hexGroup value) = 6%nat
  \/ (value = hash :: hexGroup value
      /\ (List.length (hexGroup value) = 3%nat
          \/ List.length (hexGroup value) = 8%nat)).

End SpecMore.

(** * Properties *)

Unset Implicit Arguments.

Import JS Regex Num Types Validators Parser Completion Spec.

(** ** Facts about the string built-ins *)

Section StringFacts.

Lemma str_eqb_eq (a b : str) : str_eqb a b = true <-> a = b.
Proof.
  revert b; induction a as [|x a IH]; intros [|y b]; simpl;
    try (split; [discriminate | discriminate]); try tauto.
  rewrite andb_true_iff, N.eqb_eq, IH.
  split; [intros [-> ->]; reflexivity | intros E; inversion E; auto].
Qed.

Lemma str_eqb_refl (a : str) : str_eqb a a = true.
Proof. apply str_eqb_eq; reflexivity. Qed.

Lemma str_eqb_neq (a b : str) : str_eqb a b = false <-> a <> b.
Proof.
  rewrite <- str_eqb_eq. destruct (str_eqb a b); split; congruence.
Qed.

Lemma member_In (x : str) (l : list str) : member x l = true <-> In x l.
Proof.
  unfold member. rewrite existsb_exists. split.
  - intros (y & Hy & E). apply str_eqb_eq in E. now subst.
  - intros H. exists x. split; [assumption | apply str_eqb_refl].
Qed.

Lemma len_nonneg (s : str) : (0 <= len s)%Z.
Proof. unfold len; lia. Qed.

Lemma len_app (s t : str) : len (s ++ t) = (len s + len t)%Z.
Proof. unfold len. rewrite length_app. lia. Qed.

Lemma len_cons (c : N) (s : str) : len (c :: s) = (len s + 1)%Z.
Proof. unfold len. simpl List.length. lia. Qed.

(** [indexOf] *)

Lemma indexOf_range (c : N) (s : str) :
  (indexOf c s = -1 \/ 0 <= indexOf c s < len s)%Z.
Proof.
  induction s as [|x s IH]; simpl; [now left|].
  rewrite len_cons. destruct (N.eqb x c); [right; pose proof (len_nonneg s); lia|].
  destruct (Z.eqb_spec (indexOf c s) (-1)); [now left | right; lia].
Qed.

Lemma indexOf_absent (c : N) (s : str) :
  indexOf c s = (-1)%Z <-> ~ In c s.
Proof.
  induction s as [|x s IH]; simpl; [tauto|].
  destruct (N.eqb_spec x c) as [->|Hne].
  - split; [discriminate | intros H; exfalso; apply H; now left].
  - destruct (Z.eqb_spec (indexOf c s) (-1)) as [E|E].
    + split; [|reflexivity]. intros _ [H|H]; [congruence | tauto].
    + destruct (indexOf_range c s) as [R|R]; [congruence|].
      split; [lia|]. intros H. exfalso. apply E, IH. tauto.
Qed.

Lemma indexOf_app (c : N) (pre post : str) :
  ~ In c pre -> indexOf c (pre ++ c :: post) = len pre.
Proof.
  induction pre as [|x pre IH]; simpl; intros H.
  - now rewrite N.eqb_refl.
  - destruct (N.eqb_spec x c) as [->|Hne]; [exfalso; apply H; now left|].
    rewrite IH by tauto. rewrite len_cons.
    destruct (Z.eqb_spec (len pre) (-1)); [pose proof (len_nonneg pre); lia | reflexivity].
Qed.

(** Every string with the character splits at its first occurrence. *)
Lemma indexOf_split (c : N) (s : str) :
  In c s ->
  exists pre post, s = pre ++ c :: post /\ ~ In c pre /\ indexOf c s = len pre.
Proof.
  induction s as [|x s IH]; simpl; [tauto|]. intros H.
  destruct (N.eqb_spec x c) as [->|Hne].
  - exists [], s. simpl. repeat split; auto.
  - destruct H as [H|H]; [congruence|].
    destruct (IH H) as (pre & post & -> & Hpre & E).
    exists (x :: pre), post. rewrite E, len_cons. repeat split.
    + intros [A|A]; [congruence | tauto].
    + destruct (Z.eqb_spec (len pre) (-1)); [pose proof (len_nonneg pre); lia | reflexivity].
Qed.

(** [substring] *)

Lemma clamp_len_app (pre post : str) :
  clamp (pre ++ post) (len pre) = List.length pre.
Proof.
  unfold clamp. rewrite len_app. pose proof (len_nonneg pre).
  pose proof (len_nonneg post). unfold len in *. lia.
Qed.

Lemma substring_prefix (pre post : str) :
  substring (pre ++ post) 0 (len pre) = pre.
Proof.
  unfold substring. rewrite clamp_len_app.
  replace (clamp (pre ++ post) 0) with 0%nat
    by (unfold clamp; pose proof (len_nonneg (pre ++ post)); lia).
  rewrite Nat.min_0_l, Nat.max_0_l, Nat.sub_0_r. simpl.
  rewrite firstn_app, firstn_all, Nat.sub_diag. simpl. apply app_nil_r.
Qed.

Lemma substringFrom_suffix (pre post : str) :
  substringFrom (pre ++ post) (len pre) = post.
Proof.
  unfold substringFrom, substring. rewrite clamp_len_app.
  replace (clamp (pre ++ post) (len (pre ++ post)))
    with (List.length (pre ++ post))
    by (unfold clamp, len; lia).
  rewrite length_app.
  rewrite Nat.min_l, Nat.max_r by lia.
  rewrite skipn_app, skipn_all, Nat.sub_diag. simpl.
  replace (List.length pre + List.length post - List.length pre)%nat
    with (List.length post) by lia.
  apply firstn_all.
Qed.

Lemma substringFrom_after (pre post : str) (c : N) :
  substringFrom (pre ++ c :: post) (len pre + 1) = post.
Proof.
  replace (pre ++ c :: post) with ((pre ++ [c]) ++ post)
    by (rewrite <- app_assoc; reflexivity).
  replace (len pre + 1)%Z with (len (pre ++ [c]))
    by (rewrite len_app; reflexivity).
  apply substringFrom_suffix.
Qed.

(** [trim] *)

Lemma dropWhile_nil_iff (p : N -> bool) (s : str) :
  dropWhile p s = [] <-> forallb p s = true.
Proof.
  induction s as [|c s IH]; simpl; [tauto|].
  destruct (p c); simpl; [exact IH | split; discriminate].
Qed.

Lemma dropWhile_all (p : N -> bool) (s : str) :
  forallb p s = true -> dropWhile p s = [].
Proof. apply dropWhile_nil_iff. Qed.

Lemma forallb_rev (p : N -> bool) (s : str) :
  forallb p (rev s) = forallb p s.
Proof.
  induction s as [|c s IH]; simpl; [reflexivity|].
  rewrite forallb_app, IH. simpl. rewrite andb_true_r. apply andb_comm.
Qed.

Lemma dropWhile_suffix (p : N -> bool) (s : str) :
  exists pre, s = pre ++ dropWhile p s /\ forallb p pre = true.
Proof.
  induction s as [|c s (pre & E & H)]; simpl.
  - exists []. auto.
  - destruct (p c) eqn:Hc.
    + exists (c :: pre). simpl. rewrite Hc, H. split; [congruence | reflexivity].
    + exists []. auto.
Qed.

Lemma dropWhile_head (p : N -> bool) (s : str) (c : N) (r : str) :
  dropWhile p s = c :: r -> p c = false.
Proof.
  induction s as [|x s IH]; simpl; [discriminate|].
  destruct (p x) eqn:Hx; [exact IH | intros E; inversion E; subst; exact Hx].
Qed.

Lemma trim_empty_iff (s : str) :
  str_eqb (trim s) [] = true <-> forallb isWhitespace s = true.
Proof.
  rewrite str_eqb_eq. unfold trim, trimEnd, trimStart. split.
  - intros H. apply (f_equal (@rev N)) in H. rewrite rev_involutive in H.
    simpl in H. apply dropWhile_nil_iff in H. rewrite forallb_rev in H.
    destruct (dropWhile_suffix isWhitespace s) as (pre & E & Hpre).
    rewrite E, forallb_app, Hpre, H. reflexivity.
  - intros H. rewrite (dropWhile_all _ _ H). reflexivity.
Qed.

Lemma forallb_In_false (p : N -> bool) (s : str) (c : N) :
  forallb p s = true -> p c = false -> ~ In c s.
Proof.
  intros H Hc Hin. rewrite forallb_forall in H. specialize (H c Hin). congruence.
Qed.

(** [split] *)

Lemma split_aux_hd (c : N) (acc s : str) :
  hd [] (split_aux c acc s) = rev acc ++ takeWhile (fun x => negb (N.eqb x c)) s.
Proof.
  revert acc; induction s as [|x s IH]; intros acc; simpl.
  - now rewrite app_nil_r.
  - destruct (N.eqb x c); simpl; [now rewrite app_nil_r|].
    rewrite IH. simpl. now rewrite <- app_assoc.
Qed.

(** The first piece of [s.split(c)] is [s] up to its first [c]. *)
Lemma split_hd (c : N) (s : str) :
  hd [] (split c s) = takeWhile (fun x => negb (N.eqb x c)) s.
Proof. unfold split. now rewrite split_aux_hd. Qed.

End StringFacts.

(** ** Cursor position *)

Section Position.

Lemma nth_error_app_left (pre post : str) (j : nat) :
  (j < List.length pre)%nat -> nth_error (pre ++ post) j = nth_error pre j.
Proof. intros H. now apply nth_error_app1. Qed.

Lemma firstIndexOf_split (c : N) (pre post : str) :
  ~ In c pre -> firstIndexOf c (pre ++ c :: post) (len pre).
Proof.
  intros Hpre. unfold firstIndexOf, len. rewrite Nat2Z.id. repeat split.
  - lia.
  - rewrite nth_error_app2 by lia. now rewrite Nat.sub_diag.
  - intros j Hj E. rewrite nth_error_app_left in E by lia.
    apply nth_error_In in E. contradiction.
Qed.

Lemma firstIndexOf_indexOf (c : N) (s : str) :
  In c s -> firstIndexOf c s (indexOf c s).
Proof.
  intros H. destruct (indexOf_split c s H) as (pre & post & -> & Hpre & E).
  rewrite E. now apply firstIndexOf_split.
Qed.

Lemma firstIndexOf_unique (c : N) (s : str) (i j : Z) :
  firstIndexOf c s i -> firstIndexOf c s j -> i = j.
Proof.
  intros (Hi & Ei & Li) (Hj & Ej & Lj).
  destruct (Z.lt_trichotomy i j) as [H|[H|H]]; [|assumption|].
  - exfalso. apply (Lj i); [lia | assumption].
  - exfalso. apply (Li j); [lia | assumption].
Qed.

Lemma firstIndexOf_In (c : N) (s : str) (i : Z) : firstIndexOf c s i -> In c s.
Proof. intros (_ & E & _). eapply nth_error_In; eauto. Qed.

End Position.

(** C8.  For every line and every cursor offset exactly one of
    [isInKeyPosition] and [isInValuePosition] answers true; the first holds
    iff the line has no [=] or the offset is at most the index of its first
    [=], the second iff the line has a [=] and the offset is strictly
    greater than the index of the first one. *)
Theorem position_key_xor_value (line : str) (character : Z) :
  xorb (isInKeyPosition line character) (isInValuePosition line character)
    = true
  /\ (isInKeyPosition line character = true <->
        ~ In equalsSign line \/
        exists i, firstIndexOf equalsSign line i /\ (character <= i)%Z)
  /\ (isInValuePosition line character = true <->
        exists i, firstIndexOf equalsSign line i /\ (i < character)%Z).
Proof.
  unfold isInKeyPosition, isInValuePosition.
  pose proof (indexOf_absent equalsSign line) as Habs.
  pose proof (firstIndexOf_indexOf equalsSign line) as Hfst.
  destruct (Z.eqb_spec (indexOf equalsSign line) (-1)) as [E|E]; simpl.
  - apply Habs in E. split; [reflexivity|]. split; split.
    + intros _. now left.
    + reflexivity.
    + discriminate.
    + intros (i & Hi & _). apply firstIndexOf_In in Hi. contradiction.
  - assert (Hin : In equalsSign line).
    { destruct (in_dec N.eq_dec equalsSign line) as [H|H]; [assumption|].
      apply Habs in H. contradiction. }
    specialize (Hfst Hin).
    split; [|split].
    + destruct (Z.leb_spec character (indexOf equalsSign line));
        destruct (Z.gtb_spec character (indexOf equalsSign line));
        simpl; try reflexivity; lia.
    + rewrite Z.leb_le. split.
      * intros H. right. eauto.
      * intros [H|(i & Hi & Hle)]; [contradiction|].
        now rewrite (firstIndexOf_unique _ _ _ _ Hfst Hi).
    + rewrite Z.gtb_ltb, Z.ltb_lt. split.
      * intros H. eauto.
      * intros (i & Hi & Hlt). now rewrite (firstIndexOf_unique _ _ _ _ Hfst Hi).
Qed.

(** ** Validation: the entry rules and the keybind grammar *)

Section KeybindFacts.

Lemma with_equals_not_clear (value : str) :
  In equalsSign value -> str_eqb value (lit "clear") = false.
Proof.
  intros H. apply str_eqb_neq. intros ->.
  vm_compute in H. intuition discriminate.
Qed.

Lemma trim_prefix_nonempty (pre post : str) :
  trim pre <> [] -> str_eqb (trim (pre ++ post)) [] = false.
Proof.
  intros H. destruct (str_eqb (trim (pre ++ post)) []) eqn:E; [|reflexivity].
  exfalso. apply H. apply trim_empty_iff in E.
  rewrite forallb_app in E. apply andb_true_iff in E as [E _].
  apply str_eqb_eq, trim_empty_iff. exact E.
Qed.

(** What [validateKeybind] computes once the value is split at its first
    [=]. *)
Lemma validateKeybind_split (schema : GhosttySchema)
  (trigger actionPart : str) :
  ~ In equalsSign trigger ->
  validateKeybind (trigger ++ equalsSign :: actionPart) schema =
  if str_eqb (trim trigger) [] then invalid MsgEmptyTrigger SevError
  else if str_eqb (trim (actionNameOf actionPart)) []
  then invalid MsgEmptyAction SevError
  else
    match lookup (lit "keybind") (sch_types schema) with
    | Some keybindType =>
        match td_actions keybindType with
        | Some actions =>
            if (0 <? Z.of_nat (List.length actions))%Z
               && negb (member (actionNameOf actionPart) actions)
            then invalid (MsgUnknownAction (actionNameOf actionPart)) SevWarning
            else valid
        | None => valid
        end
    | None => valid
    end.
Proof.
  intros Hpre. unfold validateKeybind.
  rewrite with_equals_not_clear by (apply in_or_app; right; now left).
  rewrite (indexOf_app _ _ _ Hpre).
  destruct (Z.eqb_spec (len trigger) (-1)) as [E|_];
    [pose proof (len_nonneg trigger); lia|].
  rewrite substring_prefix, substringFrom_after, split_hd.
  reflexivity.
Qed.

End KeybindFacts.

(** C2 (as the code has it).  For every key present in [schema.options]
    and every value that is empty after trimming, [validateValue] answers
    [{isValid: true}], whatever the declared type of the key. *)
Theorem validateValue_blank_value (schema : GhosttySchema) (key value : str)
  (option : ConfigOption) :
  lookup key (sch_options schema) = Some option ->
  trim value = [] ->
  validateValue schema key value = valid.
Proof.
  intros Hkey Hblank. unfold validateValue, getProperty.
  rewrite Hkey, Hblank. reflexivity.
Qed.

Lemma validateValue_blank_value_witness :
  validateValue sampleSchema (lit "font-size") (lit "   ") = valid.
Proof.
  apply (validateValue_blank_value sampleSchema (lit "font-size") (lit "   ")
           fontSizeOption);
    reflexivity.
Defined.

(** C2 as stated fails for a key that [schema.options] neither holds nor
    inherits: the unknown-key check comes first, and an empty value is
    reported as not valid, with a warning. *)
Lemma blank_value_unknown_key :
  getProperty (lit "font-size") (sch_options emptySchema) = Absent /\
  trim [] = [] /\
  validateValue emptySchema (lit "font-size") [] =
    invalid (MsgUnknownKey (lit "font-size")) SevWarning /\
  isValid (validateValue emptySchema (lit "font-size") []) = false.
Proof. repeat split. Qed.

(** C10.  For every schema option of type [enum] without an [enum] list,
    [validateValue] answers [{isValid: true}] for every value, the
    non-empty ones included: membership is not checked. *)
Theorem validateValue_enum_without_list (schema : GhosttySchema)
  (key value : str) (option : ConfigOption) :
  lookup key (sch_options schema) = Some option ->
  opt_type option = TEnum ->
  opt_enum option = None ->
  value <> [] ->
  validateValue schema key value = valid.
Proof.
  intros Hkey Hty Hen _. unfold validateValue, getProperty. rewrite Hkey, Hty.
  unfold validateEnum. rewrite Hen. now destruct (str_eqb (trim value) []).
Qed.

Lemma validateValue_enum_without_list_witness :
  validateValue sampleSchema (lit "window-theme") (lit "anything") = valid.
Proof.
  apply (validateValue_enum_without_list sampleSchema (lit "window-theme")
           (lit "anything") (plainOption TEnum));
    try reflexivity.
  discriminate.
Defined.

(** C7.  For every keybind value: the literal [clear] is valid; a value
    without [=] is an error; a value whose text before the first [=] trims
    to empty is an error (empty trigger); a value whose action name (the
    text after the first [=], up to its first [:]) trims to empty is an
    error (empty action). *)
Theorem validateKeybind_structure (schema : GhosttySchema) (value : str) :
  (value = lit "clear" -> validateKeybind value schema = valid)
  /\ (value <> lit "clear" -> ~ In equalsSign value ->
      validateKeybind value schema = invalid MsgKeybindFormat SevError)
  /\ (forall trigger actionPart,
        value = trigger ++ equalsSign :: actionPart ->
        ~ In equalsSign trigger ->
        (trim trigger = [] ->
         validateKeybind value schema = invalid MsgEmptyTrigger SevError)
        /\ (trim (actionNameOf actionPart) = [] ->
            isValid (validateKeybind value schema) = false
            /\ severity (validateKeybind value schema) = Some SevError
            /\ (trim trigger <> [] ->
                validateKeybind value schema
                  = invalid MsgEmptyAction SevError))).
Proof.
  split; [|split].
  - intros ->. reflexivity.
  - intros Hne Hno. unfold validateKeybind.
    apply str_eqb_neq in Hne. rewrite Hne.
    apply indexOf_absent in Hno. rewrite Hno. reflexivity.
  - intros trigger actionPart -> Hpre.
    rewrite (validateKeybind_split schema _ actionPart Hpre).
    split.
    + intros ->. reflexivity.
    + intros ->. simpl (str_eqb [] []).
      destruct (str_eqb (trim trigger) []) eqn:E; simpl.
      * repeat split. intros H. apply str_eqb_eq in E. contradiction.
      * repeat split.
Qed.

Lemma validateKeybind_structure_witness :
  validateKeybind (lit "clear") sampleSchema = valid
  /\ validateKeybind (lit "ctrl+c") sampleSchema
     = invalid MsgKeybindFormat SevError
  /\ validateKeybind (lit "=copy") sampleSchema
     = invalid MsgEmptyTrigger SevError
  /\ validateKeybind (lit "ctrl+c=") sampleSchema
     = invalid MsgEmptyAction SevError.
Proof.
  split; [|split; [|split]].
  - apply (validateKeybind_structure sampleSchema (lit "clear")). reflexivity.
  - apply (validateKeybind_structure sampleSchema (lit "ctrl+c")).
    + discriminate.
    + vm_compute. intuition discriminate.
  - apply (proj2 (proj2 (validateKeybind_structure sampleSchema (lit "=copy")))
             [] (lit "copy")).
    + reflexivity.
    + intros [].
    + reflexivity.
  - apply (proj2 (proj2 (validateKeybind_structure sampleSchema (lit "ctrl+c=")))
             (lit "ctrl+c") []).
    + reflexivity.
    + vm_compute. intuition discriminate.
    + reflexivity.
    + discriminate.
Defined.

(** C1 (as the code has it).  For every schema whose keybind type
    definition declares a non-empty [actions] vocabulary and every keybind
    value [trigger=action] whose trigger and action name are not empty
    after trimming and whose action name is not in the vocabulary,
    [validateValue] answers [isValid = false] with severity [warning] and
    the message naming the unknown action: the finding is advisory through
    its severity, not through [isValid]. *)
Theorem validateValue_unknown_action (schema : GhosttySchema)
  (key trigger actionPart : str) (option : ConfigOption)
  (keybindType : TypeDefinition) (actions : list str) :
  lookup key (sch_options schema) = Some option ->
  opt_type option = TKeybind ->
  lookup (lit "keybind") (sch_types schema) = Some keybindType ->
  td_actions keybindType = Some actions ->
  actions <> [] ->
  ~ In equalsSign trigger ->
  trim trigger <> [] ->
  trim (actionNameOf actionPart) <> [] ->
  ~ In (actionNameOf actionPart) actions ->
  validateValue schema key (trigger ++ equalsSign :: actionPart) =
    invalid (MsgUnknownAction (actionNameOf actionPart)) SevWarning.
Proof.
  intros Hkey Hty Htd Hact Hne Hpre Htrig Hname Hnot.
  unfold validateValue, getProperty. rewrite Hkey, Hty.
  rewrite (trim_prefix_nonempty _ _ Htrig).
  rewrite (validateKeybind_split schema _ actionPart Hpre).
  apply str_eqb_neq in Htrig, Hname. rewrite Htrig, Hname, Htd, Hact.
  destruct actions as [|a rest]; [contradiction|].
  replace (member (actionNameOf actionPart) (a :: rest)) with false.
  - reflexivity.
  - symmetry. destruct (member (actionNameOf actionPart) (a :: rest)) eqn:E;
      [|reflexivity].
    apply member_In in E. contradiction.
Qed.

Lemma validateValue_unknown_action_witness :
  validateValue sampleSchema (lit "keybind") (lit "ctrl+x=teleport:now") =
    invalid (MsgUnknownAction (lit "teleport")) SevWarning.
Proof.
  apply (validateValue_unknown_action sampleSchema (lit "keybind")
           (lit "ctrl+x") (lit "teleport:now") (plainOption TKeybind)
           (keybindTypeDef (Some [lit "copy_to_clipboard"]))
           [lit "copy_to_clipboard"]);
    try reflexivity; try discriminate;
    vm_compute; intuition discriminate.
Defined.

(** C1 as stated fails on the specification's own example: with a
    vocabulary that excludes [teleport], the value [ctrl+x=teleport] is
    reported with [isValid = false], not [true]; only the severity is
    [warning]. *)
Lemma unknown_action_not_valid :
  lookup (lit "keybind") (sch_options sampleSchema)
    = Some (plainOption TKeybind)
  /\ member (lit "teleport") [lit "copy_to_clipboard"] = false
  /\ isValid (validateValue sampleSchema (lit "keybind")
                (lit "ctrl+x=teleport")) = false
  /\ severity (validateValue sampleSchema (lit "keybind")
                 (lit "ctrl+x=teleport")) = Some SevWarning.
Proof. repeat split. Qed.

(** ** Number validation *)

Section NumberFacts.

Lemma SFcompare_antisym (a b : number) :
  SFcompare b a = option_map CompOpp (SFcompare a b).
Proof.
  destruct a as [sa|sa| |sa ma ea], b as [sb|sb| |sb mb eb]; simpl;
    try reflexivity;
    try (destruct sa; reflexivity);
    try (destruct sb; reflexivity);
    try (destruct sa, sb; reflexivity).
  destruct sa, sb; simpl; try reflexivity;
    rewrite (Z.compare_antisym ea eb);
    destruct (ea ?= eb)%Z; simpl; try reflexivity.
  - do 2 f_equal. exact (eq_sym (Pos.compare_cont_antisym ma mb Eq)).
  - f_equal. exact (eq_sym (Pos.compare_cont_antisym ma mb Eq)).
Qed.

Lemma SFcompare_defined (a b : number) :
  isNaN a = false -> isNaN b = false -> exists c, SFcompare a b = Some c.
Proof.
  destruct a, b; simpl; intros; try discriminate; eauto.
Qed.

(** [a <= b] excludes [b < a], that is [a > b]. *)
Lemma leb_not_ltb (a b : number) : Num.leb a b = true -> Num.ltb b a = false.
Proof.
  unfold Num.leb, Num.ltb, SFleb, SFltb. rewrite (SFcompare_antisym a b).
  destruct (SFcompare a b) as [[| |]|]; simpl; congruence.
Qed.

Lemma leb_not_gtb (a b : number) : Num.leb a b = true -> Num.gtb a b = false.
Proof. exact (leb_not_ltb a b). Qed.

(** On numbers other than NaN the order is total. *)
Lemma not_leb_ltb (a b : number) :
  isNaN a = false -> isNaN b = false ->
  Num.leb a b = false -> Num.ltb b a = true.
Proof.
  intros Ha Hb. destruct (SFcompare_defined a b Ha Hb) as (c & E).
  unfold Num.leb, Num.ltb, SFleb, SFltb. rewrite (SFcompare_antisym a b), E.
  destruct c; simpl; congruence.
Qed.

Lemma not_leb_gtb (a b : number) :
  isNaN a = false -> isNaN b = false ->
  Num.leb a b = false -> Num.gtb a b = true.
Proof. exact (not_leb_ltb a b). Qed.

End NumberFacts.

(** C9.  Number validation: a value that does not parse as a
    floating-point literal is an error; otherwise the parsed number must
    lie within the declared minimum and maximum, bounds included: below the
    minimum is an error whose message names the minimum, above the maximum
    an error whose message names the maximum, and a number within the
    bounds is valid. *)
Theorem validateNumber_bounds (value : str) (option : ConfigOption) :
  boundsAreNumbers option ->
  let num := parseFloat value in
  (isNaN num = true ->
   validateNumber value (Some option) = invalid (MsgInvalidNumber value) SevError)
  /\ (isNaN num = false ->
      (withinMinimum option num = true -> withinMaximum option num = true ->
       validateNumber value (Some option) = valid)
      /\ (withinMinimum option num = false ->
          exists mn, opt_minimum option = Some mn /\
            validateNumber value (Some option)
              = invalid (MsgBelowMinimum num mn) SevError)
      /\ (withinMinimum option num = true ->
          withinMaximum option num = false ->
          exists mx, opt_maximum option = Some mx /\
            validateNumber value (Some option)
              = invalid (MsgAboveMaximum num mx) SevError)).
Proof.
  intros [Hmin Hmax] num. unfold validateNumber, withinMinimum, withinMaximum.
  fold num. split.
  - intros ->. reflexivity.
  - intros Hnum. rewrite Hnum. cbn [firstReturn].
    destruct (opt_minimum option) as [mn|] eqn:Emn;
      destruct (opt_maximum option) as [mx|] eqn:Emx;
      try specialize (Hmin _ eq_refl); try specialize (Hmax _ eq_refl);
      (split; [|split]).
    + intros Hlo Hhi.
      now rewrite (leb_not_ltb _ _ Hlo), (leb_not_gtb _ _ Hhi).
    + intros Hlo. exists mn. split; [reflexivity|].
      now rewrite (not_leb_ltb _ _ Hmin Hnum Hlo).
    + intros Hlo Hhi. exists mx. split; [reflexivity|].
      now rewrite (leb_not_ltb _ _ Hlo), (not_leb_gtb _ _ Hnum Hmax Hhi).
    + intros Hlo _. now rewrite (leb_not_ltb _ _ Hlo).
    + intros Hlo. exists mn. split; [reflexivity|].
      now rewrite (not_leb_ltb _ _ Hmin Hnum Hlo).
    + discriminate.
    + intros _ Hhi. now rewrite (leb_not_gtb _ _ Hhi).
    + discriminate.
    + intros _ Hhi. exists mx. split; [reflexivity|].
      now rewrite (not_leb_gtb _ _ Hnum Hmax Hhi).
    + reflexivity.
    + discriminate.
    + discriminate.
Qed.

Lemma fontSizeOption_bounds : boundsAreNumbers fontSizeOption.
Proof.
  split; intros x E; inversion E; reflexivity.
Qed.

Lemma validateNumber_bounds_witness :
  validateNumber (lit "abc") (Some fontSizeOption)
    = invalid (MsgInvalidNumber (lit "abc")) SevError
  /\ validateNumber (lit "14") (Some fontSizeOption) = valid
  /\ (exists mn, opt_minimum fontSizeOption = Some mn /\
        validateNumber (lit "4") (Some fontSizeOption)
          = invalid (MsgBelowMinimum (parseFloat (lit "4")) mn) SevError)
  /\ (exists mx, opt_maximum fontSizeOption = Some mx /\
        validateNumber (lit "96") (Some fontSizeOption)
          = invalid (MsgAboveMaximum (parseFloat (lit "96")) mx) SevError).
Proof.
  split; [|split; [|split]].
  - apply (validateNumber_bounds (lit "abc") fontSizeOption
             fontSizeOption_bounds).
    reflexivity.
  - apply (validateNumber_bounds (lit "14") fontSizeOption
             fontSizeOption_bounds); reflexivity.
  - apply (validateNumber_bounds (lit "4") fontSizeOption
             fontSizeOption_bounds); reflexivity.
  - apply (validateNumber_bounds (lit "96") fontSizeOption
             fontSizeOption_bounds); reflexivity.
Defined.

(** ** Regular expressions: the matcher decides the language *)

Section RegexFacts.

Lemma nullable_Lang (r : re) : nullable r = true <-> Lang r [].
Proof.
  induction r as [| |p|a IHa b IHb|a IHa b IHb|a IHa]; simpl.
  - split; [discriminate | intros H; inversion H].
  - split; auto with regex.
  - split; [discriminate | intros H; inversion H].
  - rewrite andb_true_iff, IHa, IHb. split.
    + intros [Ha Hb]. change (@nil N) with (@nil N ++ []). auto with regex.
    + intros H. inversion H as [| |a' b' s t Hs Ht E1 E2| | | |]; subst.
      apply app_eq_nil in E2 as [-> ->]. auto.
  - rewrite orb_true_iff, IHa, IHb. split.
    + intros [H|H]; auto with regex.
    + intros H. inversion H; subst; auto.
  - split; auto with regex.
Qed.

Lemma Lang_Star_cons (a : re) (c : N) (s : str) :
  Lang (Star a) (c :: s) ->
  exists s1 s2, s = s1 ++ s2 /\ Lang a (c :: s1) /\ Lang (Star a) s2.
Proof.
  intros H. remember (Star a) as r eqn:Er. remember (c :: s) as w eqn:Ew.
  revert s Ew.
  induction H as [| | | | | |a' u t Hu _ Ht IHt]; intros s0 Ew;
    try discriminate.
  inversion Er; subst a'. destruct u as [|x u]; simpl in Ew.
  - apply (IHt Er s0 Ew).
  - inversion Ew; subst. exists u, t. auto.
Qed.

Lemma deriv_Lang (r : re) (c : N) (s : str) :
  Lang (deriv c r) s <-> Lang r (c :: s).
Proof.
  revert s. induction r as [| |p|a IHa b IHb|a IHa b IHb|a IHa]; intros s; simpl.
  - split; intros H; inversion H.
  - split; intros H; inversion H.
  - destruct (p c) eqn:Hp; split; intros H; inversion H; subst.
    + now constructor.
    + constructor.
    + congruence.
  - assert (Hseq : Lang (Seq (deriv c a) b) s -> Lang (Seq a b) (c :: s)).
    { intros H. inversion H as [| |a' b' u t Hu Ht| | | |]; subst.
      apply IHa in Hu. change (c :: u ++ t) with ((c :: u) ++ t).
      now constructor. }
    assert (Hinv : Lang (Seq a b) (c :: s) ->
                   Lang (Seq (deriv c a) b) s \/ (Lang a [] /\ Lang b (c :: s))).
    { intros H. inversion H as [| |a' b' u t Hu Ht E1 E2| | | |]; subst.
      destruct u as [|x u]; simpl in E2.
      - subst t. right. auto.
      - inversion E2; subst. left. constructor; [now apply IHa | assumption]. }
    destruct (nullable a) eqn:Hn.
    + split.
      * intros H. inversion H; subst; [now apply Hseq|].
        apply nullable_Lang in Hn. change (c :: s) with ([] ++ c :: s).
        constructor; [assumption | now apply IHb].
      * intros H. destruct (Hinv H) as [H1|[_ H2]].
        -- now apply L_AltL.
        -- apply L_AltR. now apply IHb.
    + split; [exact Hseq|].
      intros H. destruct (Hinv H) as [H1|[H1 _]]; [assumption|].
      apply nullable_Lang in H1. congruence.
  - split; intros H; inversion H; subst.
    + apply L_AltL. now apply IHa.
    + apply L_AltR. now apply IHb.
    + apply L_AltL. now apply IHa.
    + apply L_AltR. now apply IHb.
  - split.
    + intros H. inversion H as [| |a' b' u t Hu Ht| | | |]; subst.
      apply IHa in Hu. change (c :: u ++ t) with ((c :: u) ++ t).
      now constructor.
    + intros H. apply Lang_Star_cons in H as (u & t & -> & Hu & Ht).
      constructor; [now apply IHa | assumption].
Qed.

Theorem matches_Lang (r : re) (s : str) : matches r s = true <-> Lang r s.
Proof.
  revert r. induction s as [|c s IH]; intros r; simpl.
  - apply nullable_Lang.
  - rewrite IH. apply deriv_Lang.
Qed.

(** The shapes the literals are made of. *)

Lemma Lang_Cls (p : N -> bool) (s : str) :
  Lang (Cls p) s <-> exists c, s = [c] /\ p c = true.
Proof.
  split.
  - intros H. inversion H; subst. eauto.
  - intros (c & -> & H). now constructor.
Qed.

Lemma Lang_Seq (a b : re) (s : str) :
  Lang (Seq a b) s <-> exists u t, s = u ++ t /\ Lang a u /\ Lang b t.
Proof.
  split.
  - intros H. inversion H; subst. eauto.
  - intros (u & t & -> & Hu & Ht). now constructor.
Qed.

Lemma Lang_Alt (a b : re) (s : str) :
  Lang (Alt a b) s <-> Lang a s \/ Lang b s.
Proof.
  split.
  - intros H. inversion H; subst; auto.
  - intros [H|H]; auto with regex.
Qed.

Lemma Lang_Eps (s : str) : Lang Eps s <-> s = [].
Proof.
  split; [intros H; now inversion H | intros ->; constructor].
Qed.

Lemma Lang_Chr_Seq (c : N) (r : re) (s : str) :
  Lang (Seq (Chr c) r) s <-> exists t, s = c :: t /\ Lang r t.
Proof.
  rewrite Lang_Seq. split.
  - intros (u & t & -> & Hu & Ht). apply Lang_Cls in Hu as (x & -> & Hx).
    apply N.eqb_eq in Hx. subst x. simpl. eauto.
  - intros (t & -> & Ht). exists [c], t. repeat split; [|assumption].
    constructor. apply N.eqb_refl.
Qed.

Lemma Lang_Rep_Cls (p : N -> bool) (n : nat) (s : str) :
  Lang (Rep n (Cls p)) s <-> List.length s = n /\ forallb p s = true.
Proof.
  revert s. induction n as [|n IH]; intros s; simpl.
  - rewrite Lang_Eps. split.
    + intros ->. auto.
    + intros [H _]. now apply length_zero_iff_nil.
  - rewrite Lang_Seq. split.
    + intros (u & t & -> & Hu & Ht). apply Lang_Cls in Hu as (x & -> & Hx).
      apply IH in Ht as [Hl Hf]. simpl. rewrite Hx, Hl, Hf. auto.
    + intros [Hl Hf]. destruct s as [|x t]; [discriminate|].
      simpl in Hl, Hf. apply andb_true_iff in Hf as [Hx Hf].
      exists [x], t. repeat split.
      * now constructor.
      * apply IH. split; [congruence | assumption].
Qed.

Lemma Lang_Star_Cls (p : N -> bool) (s : str) :
  Lang (Star (Cls p)) s <-> forallb p s = true.
Proof.
  split.
  - intros H. remember (Star (Cls p)) as r eqn:Er.
    induction H as [| | | | | |a u t Hu _ Ht IHt]; try discriminate.
    + reflexivity.
    + inversion Er; subst a. apply Lang_Cls in Hu as (x & -> & Hx).
      simpl. rewrite Hx. now apply IHt.
  - induction s as [|x s IH]; simpl; intros H.
    + constructor.
    + apply andb_true_iff in H as [Hx Hs].
      change (x :: s) with ([x] ++ s). constructor; [now constructor | auto].
Qed.

End RegexFacts.

(** ** Colour validation *)

Section ColorFacts.

Lemma forallb_below (f : N -> bool) (n : nat) :
  forallb f (map N.of_nat (seq 0 n)) = true ->
  forall c, (c < N.of_nat n)%N -> f c = true.
Proof.
  intros H c Hc. rewrite forallb_forall in H. apply H.
  rewrite <- (N2Nat.id c). apply in_map. apply in_seq. lia.
Qed.

Lemma isHexDigit_In (c : N) : isHexDigit c = true <-> In c hexDigitChars.
Proof.
  split.
  - intros H.
    assert (Hc : (c < N.of_nat 128)%N).
    { unfold isHexDigit, isDigit in H.
      rewrite !orb_true_iff, !andb_true_iff, !N.leb_le in H. lia. }
    pose proof (forallb_below
      (fun x => implb (isHexDigit x) (existsb (N.eqb x) hexDigitChars)) 128
      eq_refl c Hc) as Hall.
    cbv beta in Hall. rewrite H in Hall.
    destruct (existsb (N.eqb c) hexDigitChars) eqn:Hex; [|discriminate Hall].
    apply existsb_exists in Hex as (y & Hy & E).
    apply N.eqb_eq in E. now subst.
  - intros H. vm_compute in H.
    repeat (destruct H as [<-|H]; [reflexivity|]). contradiction.
Qed.

Lemma hexDigits_forallb (n : nat) (s : str) :
  List.length s = n /\ forallb isHexDigit s = true <-> hexDigits n s.
Proof.
  unfold hexDigits. rewrite forallb_forall.
  split; intros [Hl Hf]; (split; [assumption|]); intros c Hc;
    apply isHexDigit_In; auto.
Qed.

Lemma HEX_COLOR_REGEX_spec (value : str) :
  matches HEX_COLOR_REGEX value = true <->
  exists t, value = hash :: t /\
            (hexDigits 3 t \/ hexDigits 6 t \/ hexDigits 8 t).
Proof.
  unfold HEX_COLOR_REGEX.
  rewrite matches_Lang, !Lang_Alt, !Lang_Chr_Seq.
  split.
  - intros [(t & -> & H)|[(t & -> & H)|(t & -> & H)]];
      apply Lang_Rep_Cls, hexDigits_forallb in H; eauto 6.
  - intros (t & -> & [H|[H|H]]);
      apply hexDigits_forallb, Lang_Rep_Cls in H; eauto 6.
Qed.

Lemma HEX_COLOR_NO_HASH_REGEX_spec (value : str) :
  matches HEX_COLOR_NO_HASH_REGEX value = true <-> hexDigits 6 value.
Proof.
  unfold HEX_COLOR_NO_HASH_REGEX.
  now rewrite matches_Lang, Lang_Rep_Cls, hexDigits_forallb.
Qed.

Lemma NAMED_COLORS_lower (c : str) :
  In c NAMED_COLORS -> toLowerCase c = c.
Proof.
  intros H.
  assert (Hall : forallb (fun x => str_eqb (toLowerCase x) x) NAMED_COLORS
                 = true) by (vm_compute; reflexivity).
  rewrite forallb_forall in Hall. apply str_eqb_eq. now apply Hall.
Qed.

Lemma NAMED_COLORS_spec (value : str) :
  member (toLowerCase value) NAMED_COLORS = true <->
  namedColorInsensitive value.
Proof.
  rewrite member_In. unfold namedColorInsensitive. split.
  - intros H. exists (toLowerCase value). split; [assumption|].
    symmetry. now apply NAMED_COLORS_lower.
  - intros (c & Hc & E). rewrite E, (NAMED_COLORS_lower c Hc). assumption.
Qed.

Lemma validateColor_valid_iff (value : str) :
  isValid (validateColor value) = true <-> isColor value.
Proof.
  unfold isColor.
  rewrite <- HEX_COLOR_REGEX_spec, <- HEX_COLOR_NO_HASH_REGEX_spec,
    <- NAMED_COLORS_spec.
  unfold validateColor.
  destruct (matches HEX_COLOR_REGEX value);
    destruct (matches HEX_COLOR_NO_HASH_REGEX value);
    destruct (member (toLowerCase value) NAMED_COLORS); simpl;
    intuition congruence.
Qed.

End ColorFacts.

(** C6.  A value is a valid colour if and only if it is six hexadecimal
    digits with or without a leading [#], three or eight hexadecimal digits
    with a leading [#], or a named colour in any letter case; every other
    value is reported with [isValid = false] and severity [error]. *)
Theorem validateColor_spec (value : str) :
  (isValid (validateColor value) = true <-> isColor value)
  /\ (~ isColor value ->
      validateColor value = invalid (MsgInvalidColour value) SevError).
Proof.
  split; [apply validateColor_valid_iff|].
  intros H. rewrite <- validateColor_valid_iff in H.
  unfold validateColor in *.
  destruct (matches HEX_COLOR_REGEX value || matches HEX_COLOR_NO_HASH_REGEX value);
    [exfalso; now apply H|].
  destruct (member (toLowerCase value) NAMED_COLORS);
    [exfalso; now apply H | reflexivity].
Qed.

Lemma validateColor_spec_witness :
  ~ isColor (lit "#ff00")
  /\ validateColor (lit "#ff00")
     = invalid (MsgInvalidColour (lit "#ff00")) SevError.
Proof.
  assert (H : ~ isColor (lit "#ff00")).
  { intros H. apply (proj1 (validateColor_spec (lit "#ff00"))) in H.
    discriminate H. }
  split; [exact H|].
  exact (proj2 (validateColor_spec (lit "#ff00")) H).
Defined.

Example validateColor_examples :
  map (fun v => isValid (validateColor (lit v)))
      ["#ff0000"; "ff0000"; "#f00"; "#ff0000ff"; "#ff00"; "#gg0000";
       "black"; "f00"; "ff0000ff"; "Transparent"]%string
  = [true; true; true; true; false; false; true; false; false; true].
Proof. vm_compute. reflexivity. Qed.

(** ** Line parser: the value range *)

Section ParserFacts.

Lemma nth_error_middle (a w b : str) (k : nat) :
  (List.length a <= k < List.length a + List.length w)%nat ->
  exists x, nth_error (a ++ w ++ b) k = Some x /\ In x w.
Proof.
  intros Hk. rewrite nth_error_app2 by lia.
  rewrite nth_error_app1 by lia.
  destruct (nth_error w (k - List.length a)) as [x|] eqn:E.
  - exists x. split; [reflexivity|]. eapply nth_error_In; eauto.
  - apply nth_error_None in E. lia.
Qed.

Lemma nth_error_at (a b : str) (c : N) :
  nth_error (a ++ c :: b) (List.length a) = Some c.
Proof. rewrite nth_error_app2 by lia. now rewrite Nat.sub_diag. Qed.

(** [trimEnd] removes a run of white space that ends the line and stops
    at a character that is not white space. *)
Lemma trimEnd_split (s : str) :
  exists w, s = trimEnd s ++ w /\ forallb isWhitespace w = true.
Proof.
  unfold trimEnd.
  destruct (dropWhile_suffix isWhitespace (rev s)) as (p & E & Hp).
  exists (rev p). split.
  - rewrite <- rev_app_distr, <- E. now rewrite rev_involutive.
  - now rewrite forallb_rev.
Qed.

Lemma trimEnd_last (s : str) :
  trimEnd s = [] \/
  exists r c, trimEnd s = r ++ [c] /\ isWhitespace c = false.
Proof.
  unfold trimEnd. destruct (dropWhile isWhitespace (rev s)) as [|c r] eqn:E.
  - now left.
  - right. exists (rev r), c. split; [reflexivity|].
    eapply dropWhile_head; eauto.
Qed.

Lemma trimmedEnd_trimEnd (line : str) : trimmedEnd line (len (trimEnd line)).
Proof.
  destruct (trimEnd_split line) as (w & E & Hw).
  pose proof (trimEnd_last line) as Hlast.
  remember (trimEnd line) as t eqn:Et. clear Et. subst line.
  unfold trimmedEnd. rewrite len_app. split; [|split].
  - pose proof (len_nonneg t). pose proof (len_nonneg w). lia.
  - intros j Hj. unfold len in *.
    destruct (nth_error_middle t w [] (Z.to_nat j)) as (x & Ex & Hx); [lia|].
    rewrite app_nil_r in Ex. exists x. split; [assumption|].
    rewrite forallb_forall in Hw. auto.
  - destruct Hlast as [H|(r & c & H & Hc)].
    + left. now rewrite H.
    + right. exists c. split; [|assumption].
      rewrite H. unfold len. rewrite length_app. simpl List.length.
      replace (Z.to_nat (Z.of_nat (List.length r + 1) - 1)) with (List.length r)
        by lia.
      rewrite <- !app_assoc. simpl. apply nth_error_at.
Qed.

(** Where [trimStart] stops. *)
Lemma firstNonWhitespaceAfter_trimStart (pre rest : str) (c : N) (r : str) :
  trimStart rest = c :: r ->
  firstNonWhitespaceAfter (pre ++ equalsSign :: rest) (len pre)
    (len pre + 1 + (len rest - len (trimStart rest))).
Proof.
  intros E. unfold trimStart in *.
  destruct (dropWhile_suffix isWhitespace rest) as (w & Hrest & Hw).
  rewrite E in Hrest |- *.
  assert (Hc : isWhitespace c = false) by (eapply dropWhile_head; eauto).
  rewrite Hrest at 2. rewrite len_app.
  replace (len pre + 1 + (len w + len (c :: r) - len (c :: r)))%Z
    with (len pre + 1 + len w)%Z by lia.
  rewrite Hrest.
  replace (pre ++ equalsSign :: w ++ c :: r)
    with ((pre ++ [equalsSign]) ++ w ++ c :: r)
    by (rewrite <- app_assoc; reflexivity).
  unfold firstNonWhitespaceAfter, len. split; [lia|]. split.
  - exists c. split; [|assumption].
    rewrite app_assoc.
    replace (Z.to_nat (Z.of_nat (List.length pre) + 1 + Z.of_nat (List.length w)))
      with (List.length ((pre ++ [equalsSign]) ++ w))
      by (rewrite !length_app; simpl; lia).
    apply nth_error_at.
  - intros j Hj.
    destruct (nth_error_middle (pre ++ [equalsSign]) w (c :: r) (Z.to_nat j))
      as (x & Ex & Hx).
    + rewrite length_app. simpl. lia.
    + exists x. split; [assumption|].
      rewrite forallb_forall in Hw. auto.
Qed.

(** A line the key/value expression matches has a [=], and nothing before
    its first [=] but white space and key characters. *)
Lemma KEY_VALUE_REGEX_equals (line : str) :
  matches KEY_VALUE_REGEX line = true ->
  exists pre rest, line = pre ++ equalsSign :: rest /\ ~ In equalsSign pre.
Proof.
  rewrite matches_Lang. unfold KEY_VALUE_REGEX.
  intros H.
  apply Lang_Seq in H as (indent & l1 & -> & Hindent & H).
  apply Lang_Seq in H as (key & l2 & -> & Hkey & H).
  apply Lang_Seq in H as (ws & l3 & -> & Hws & H).
  apply Lang_Chr_Seq in H as (rest & -> & _).
  apply Lang_Seq in Hkey as (k0 & krest & -> & Hk0 & Hkrest).
  apply Lang_Cls in Hk0 as (k & -> & Hk).
  apply Lang_Star_Cls in Hindent, Hws, Hkrest.
  exists (indent ++ ([k] ++ krest) ++ ws), rest. split.
  - now rewrite <- !app_assoc.
  - intros Hin. rewrite !in_app_iff in Hin.
    destruct Hin as [Hin|[[Hin|Hin]|Hin]].
    + revert Hin. now apply forallb_In_false with (p := isWhitespace).
    + destruct Hin as [E|[]]. subst k. discriminate Hk.
    + revert Hin. now apply forallb_In_false with (p := isKeyChar).
    + revert Hin. now apply forallb_In_false with (p := isWhitespace).
Qed.

(** The record [parseLine] builds for a key/value line. *)
Lemma parseLine_keyValue (line : str) (lineNumber : Z) :
  pl_type (parseLine line lineNumber) = LKeyValue ->
  matches KEY_VALUE_REGEX line = true
  /\ pl_value (parseLine line lineNumber)
     = Some (trim (trim (substringFrom line (indexOf equalsSign line + 1))))
  /\ pl_valueRange (parseLine line lineNumber)
     = Some {| r_start :=
                 indexOf equalsSign line + 1
                 + (len (substringFrom line (indexOf equalsSign line + 1))
                    - len (trimStart
                             (substringFrom line (indexOf equalsSign line + 1))));
               r_end := len (trimEnd line) |}.
Proof.
  unfold parseLine, execKeyValue.
  destruct (str_eqb (trim line) []); [discriminate|].
  destruct (matchesPrefix COMMENT_REGEX line); [discriminate|].
  destruct (matches KEY_VALUE_REGEX line); [|discriminate].
  simpl. auto.
Qed.

Lemma trim_nonempty_trimStart (s : str) : trim s <> [] -> trimStart s <> [].
Proof.
  unfold trim. intros H E. apply H. rewrite E. reflexivity.
Qed.

Lemma trim_idempotent_nil (s : str) : trim (trim s) = [] <-> trim s = [].
Proof.
  split; [|intros ->; reflexivity].
  intros H. apply str_eqb_eq, trim_empty_iff in H.
  unfold trim in *.
  destruct (trimEnd_last (trimStart s)) as [E|(r & c & E & Hc)]; [assumption|].
  rewrite E in H. rewrite forallb_app in H. simpl in H. rewrite Hc in H.
  rewrite andb_false_r in H. discriminate.
Qed.

End ParserFacts.

(** C3 (as the code has it).  For every line that [parseLine] classifies
    as [keyValue], [valueRange.end] is the offset of the end of the line
    after its trailing white space is removed; and when the value is not
    empty, the character of the raw line at [valueRange.start] is the first
    character after the line's first [=] that is not white space. *)
Theorem parseLine_valueRange (line : str) (lineNumber : Z) :
  pl_type (parseLine line lineNumber) = LKeyValue ->
  exists e vr,
    firstIndexOf equalsSign line e
    /\ pl_valueRange (parseLine line lineNumber) = Some vr
    /\ trimmedEnd line (r_end vr)
    /\ (pl_value (parseLine line lineNumber) <> Some [] ->
        firstNonWhitespaceAfter line e (r_start vr)).
Proof.
  intros H. apply parseLine_keyValue in H as (Hm & Hval & Hrange).
  apply KEY_VALUE_REGEX_equals in Hm as (pre & rest & -> & Hpre).
  rewrite Hval, Hrange. clear Hval Hrange.
  rewrite (indexOf_app _ _ _ Hpre), substringFrom_after.
  eexists _, _. split; [now apply firstIndexOf_split|].
  split; [reflexivity|]. cbn [r_start r_end].
  split; [apply trimmedEnd_trimEnd|].
  intros Hne.
  assert (Ht : trimStart rest <> []).
  { apply trim_nonempty_trimStart. intros E. apply Hne.
    now rewrite (proj2 (trim_idempotent_nil rest) E). }
  destruct (trimStart rest) as [|c r] eqn:E; [contradiction|].
  rewrite <- E. eapply firstNonWhitespaceAfter_trimStart; eauto.
Qed.

Lemma parseLine_valueRange_witness :
  exists e vr,
    firstIndexOf equalsSign (lit "font-size = 14  ") e
    /\ pl_valueRange (parseLine (lit "font-size = 14  ") 0) = Some vr
    /\ trimmedEnd (lit "font-size = 14  ") (r_end vr)
    /\ (pl_value (parseLine (lit "font-size = 14  ") 0) <> Some [] ->
        firstNonWhitespaceAfter (lit "font-size = 14  ") e (r_start vr)).
Proof.
  apply (parseLine_valueRange (lit "font-size = 14  ") 0). reflexivity.
Defined.

(** C3 as stated fails on a key/value line whose value is empty: nothing
    but white space follows the [=], [valueRange.start] is the length of
    the raw line and there is no character at that index; with trailing
    white space the start even lies beyond [valueRange.end]. *)
Lemma valueRange_start_of_empty_value :
  pl_type (parseLine (lit "a=") 0) = LKeyValue
  /\ pl_valueRange (parseLine (lit "a=") 0)
     = Some {| r_start := 2; r_end := 2 |}
  /\ nth_error (lit "a=") 2 = None
  /\ ~ firstNonWhitespaceAfter (lit "a=") 1 2
  /\ pl_type (parseLine (lit "a=  ") 0) = LKeyValue
  /\ pl_valueRange (parseLine (lit "a=  ") 0)
     = Some {| r_start := 4; r_end := 2 |}
  /\ nth_error (lit "a=  ") 4 = None.
Proof.
  repeat split.
  intros (_ & (c & E & _) & _). discriminate E.
Qed.

(** ** Key completion *)

Section CompletionFacts.

Lemma startsWith_spec (s p : str) :
  startsWith s p = true <-> exists b, s = p ++ b.
Proof.
  revert s. induction p as [|y p IH]; intros s; simpl.
  - split; eauto.
  - destruct s as [|x s].
    + split; [discriminate | intros (b & E); discriminate E].
    + rewrite andb_true_iff, N.eqb_eq, IH. split.
      * intros (-> & b & ->). eauto.
      * intros (b & E). inversion E; subst. eauto.
Qed.

Lemma includes_spec (s p : str) : includes s p = true <-> isSubstring p s.
Proof.
  unfold isSubstring. induction s as [|x s IH].
  - simpl. rewrite orb_false_r, startsWith_spec. split.
    + intros (b & E). exists [], b. exact E.
    + intros (a & b & E). destruct a; [eauto|discriminate E].
  - simpl. rewrite orb_true_iff, startsWith_spec, IH. split.
    + intros [(b & E)|(a & b & E)].
      * exists [], b. exact E.
      * exists (x :: a), b. simpl. now rewrite E.
    + intros (a & b & E). destruct a as [|y a]; simpl in E.
      * left. eauto.
      * right. inversion E; subst. eauto.
Qed.

Lemma includes_nil (s : str) : includes s [] = true.
Proof. destruct s; reflexivity. Qed.

Lemma truthy_nil_iff (s : str) : truthy s = false <-> s = [].
Proof. destruct s; simpl; split; intros H; try reflexivity; try discriminate H. Qed.

(** The guard of the loop in [getKeyCompletions] skips exactly the keys
    that do not match. *)
Lemma key_guard (partialText key : str) :
  truthy (toLowerCase (trim partialText))
  && negb (includes (toLowerCase key) (toLowerCase (trim partialText)))
  = negb (keyMatches partialText key).
Proof.
  unfold keyMatches. destruct (toLowerCase (trim partialText)) as [|c p].
  - now rewrite includes_nil.
  - reflexivity.
Qed.

Lemma flat_map_guard (A B : Type) (skip : A -> bool) (g : A -> B)
  (l : list A) :
  flat_map (fun x => if skip x then [] else [g x]) l
  = map g (filter (fun x => negb (skip x)) l).
Proof.
  induction l as [|x l IH]; simpl; [reflexivity|].
  destruct (skip x); simpl; now rewrite IH.
Qed.

Lemma map_fst_filter (A : Type) (f : str -> bool) (l : list (str * A)) :
  map fst (filter (fun e => f (fst e)) l) = filter f (map fst l).
Proof.
  induction l as [|[k v] l IH]; simpl; [reflexivity|].
  destruct (f k); simpl; now rewrite IH.
Qed.

Lemma lookup_In (A : Type) (l : list (str * A)) (k : str) (v : A) :
  NoDup (map fst l) -> In (k, v) l -> lookup k l = Some v.
Proof.
  induction l as [|[k' v'] l IH]; simpl; [tauto|].
  intros Hnd [E|Hin].
  - inversion E; subst. now rewrite str_eqb_refl.
  - inversion Hnd as [|? ? Hnot Hnd']; subst.
    destruct (str_eqb k' k) eqn:Ek.
    + apply str_eqb_eq in Ek. subst k'. exfalso. apply Hnot.
      change k with (fst (k, v)). now apply in_map.
    + now apply IH.
Qed.

Lemma getKeyCompletions_map (schema : GhosttySchema) (partialText : str) :
  getKeyCompletions schema partialText
  = map (fun e => keyItem (fst e) (snd e))
        (filter (fun e => keyMatches partialText (fst e)) (sch_options schema)).
Proof.
  unfold getKeyCompletions.
  transitivity
    (flat_map (fun e : str * ConfigOption =>
                 if negb (keyMatches partialText (fst e)) then []
                 else [keyItem (fst e) (snd e)])
              (sch_options schema)).
  - apply flat_map_ext. intros [key option]. simpl. now rewrite key_guard.
  - rewrite flat_map_guard. f_equal.
    apply filter_ext. intros e. now rewrite negb_involutive.
Qed.

End CompletionFacts.

Lemma filter_all (A : Type) (f : A -> bool) (l : list A) :
  (forall x, f x = true) -> filter f l = l.
Proof.
  intros H. induction l as [|x l IH]; simpl; [reflexivity|].
  now rewrite H, IH.
Qed.

(** C4 (as the code has it).  For every schema whose keys are made of
    Basic Latin and Latin-1 characters and every partial text of such
    characters, the list returned by key completion holds each matching
    schema key exactly once, in the order in which the schema enumerates
    its keys; a key matches when its lower-case form contains the trimmed,
    lower-cased partial text, and with an empty partial text the list
    holds every schema key exactly once.  The list itself is not sorted:
    each item carries a sort text, the key itself for a key that is not
    deprecated and [z_] followed by the key for a deprecated one, together
    with the deprecation tag. *)
Theorem getKeyCompletions_keys (schema : GhosttySchema) (partialText : str) :
  latin1Keys schema = true ->
  isLatin1 partialText = true ->
  schema_wf schema ->
  let items := getKeyCompletions schema partialText in
  map label items
    = filter (keyMatches partialText) (map fst (sch_options schema))
  /\ NoDup (map label items)
  /\ (forall key,
        In key (map label items) <->
        In key (map fst (sch_options schema))
        /\ isSubstring (toLowerCase (trim partialText)) (toLowerCase key))
  /\ (trim partialText = [] ->
      map label items = map fst (sch_options schema))
  /\ (forall item, In item items ->
        tagDeprecated item = isDeprecatedKey schema (label item)
        /\ sortText item
           = Some (if isDeprecatedKey schema (label item)
                   then lit "z_" ++ label item else label item)).
Proof.
  intros _ _ Hwf items.
  assert (Hlabels : map label items
            = filter (keyMatches partialText) (map fst (sch_options schema))).
  { unfold items. rewrite getKeyCompletions_map, map_map. simpl.
    apply (map_fst_filter ConfigOption (keyMatches partialText)). }
  split; [exact Hlabels|]. rewrite Hlabels.
  split; [now apply NoDup_filter|].
  split; [|split].
  - intros key. rewrite filter_In. unfold keyMatches.
    now rewrite includes_spec.
  - intros Hblank. apply filter_all. intros key. unfold keyMatches.
    rewrite Hblank. apply includes_nil.
  - intros item Hitem. unfold items in Hitem.
    rewrite getKeyCompletions_map in Hitem.
    apply in_map_iff in Hitem as ([key option] & <- & Hin).
    apply filter_In in Hin as [Hin _]. simpl.
    unfold isDeprecatedKey.
    rewrite (lookup_In ConfigOption _ _ _ Hwf Hin). auto.
Qed.

Lemma getKeyCompletions_keys_witness :
  map label (getKeyCompletions sampleSchema (lit " SIZE "))
    = filter (keyMatches (lit " SIZE ")) (map fst (sch_options sampleSchema))
  /\ map label (getKeyCompletions sampleSchema (lit " SIZE "))
     = [lit "font-size"].
Proof.
  assert (Hwf : schema_wf sampleSchema).
  { unfold schema_wf. vm_compute.
    repeat (constructor; [simpl; intuition discriminate|]). constructor. }
  split.
  - apply (getKeyCompletions_keys sampleSchema (lit " SIZE ")
             eq_refl eq_refl Hwf).
  - reflexivity.
Defined.

(** C4 as stated fails: the returned list follows the schema's order and
    is not sorted.  For a schema that enumerates [zoom], [bold] and the
    deprecated [abc], the keys come back in that order, which is not
    lexicographic.  Ordering the items by their sort text would not give
    the stated order either: the sort text [z_abc] of the deprecated key
    comes before [zoom]. *)
Lemma key_completion_not_sorted :
  map label (getKeyCompletions unorderedSchema [])
    = [lit "zoom"; lit "bold"; lit "abc"]
  /\ claimedKeyOrder unorderedSchema
       (map label (getKeyCompletions unorderedSchema [])) = false
  /\ map sortText (getKeyCompletions unorderedSchema [])
     = [Some (lit "zoom"); Some (lit "bold"); Some (lit "z_abc")]
  /\ str_ltb (lit "z_abc") (lit "zoom") = true.
Proof. repeat split. Qed.

(** ** Value completion *)

Section ValueCompletionFacts.

Lemma guard_includes (p s : str) :
  negb (truthy p) || includes s p = includes s p.
Proof.
  destruct p as [|c p]; [now rewrite includes_nil | reflexivity].
Qed.

Lemma guard_startsWith (p s : str) :
  negb (truthy p) || startsWith s p = startsWith s p.
Proof. destruct p; reflexivity. Qed.

Lemma labels_of_filtered (d : str) (k : CompletionItemKind)
  (f g : str -> bool) (l : list str) :
  (forall v, In v l -> f v = g v) ->
  map label (map (fun v => withDetail d (newItem v k)) (filter f l))
  = filter g l.
Proof.
  intros H. rewrite map_map. simpl. rewrite map_id.
  induction l as [|x l IH]; simpl; [reflexivity|].
  rewrite (H x) by now left.
  rewrite IH by (intros v Hv; apply H; now right). reflexivity.
Qed.

Lemma labels_of_filtered_pairs (k : CompletionItemKind)
  (f : str * str -> bool) (g : str -> bool) (l : list (str * str)) :
  (forall e, f e = g (fst e)) ->
  map label (map (fun e : str * str => withDetail (snd e) (newItem (fst e) k))
                 (filter f l))
  = filter g (map fst l).
Proof.
  intros H. induction l as [|e l IH]; [reflexivity|].
  cbn [filter map]. rewrite H.
  destruct (g (fst e)); cbn [map]; now rewrite IH.
Qed.

Lemma namedColors_lower (c : str) : In c namedColors -> toLowerCase c = c.
Proof.
  intros H.
  assert (Hall : forallb (fun x => str_eqb (toLowerCase x) x) namedColors
                 = true) by (vm_compute; reflexivity).
  rewrite forallb_forall in Hall. apply str_eqb_eq. now apply Hall.
Qed.

(** A partial text that the inserted text [#] starts with is contained in
    the template's label. *)
Lemma hash_template_guard (p : str) :
  startsWith (lit "#") p = true ->
  includes (toLowerCase (lit "#RRGGBB")) p = true.
Proof.
  intros H. apply startsWith_spec in H as (b & E).
  destruct p as [|c p]; [reflexivity|].
  change (lit "#") with [hash] in E. inversion E as [[Ec Ep]].
  symmetry in Ep. apply app_eq_nil in Ep as [-> _]. reflexivity.
Qed.

Lemma getBooleanCompletions_labels (p : str) :
  map label (getBooleanCompletions p)
  = filter (fun v => startsWith v p) booleanCandidates.
Proof.
  unfold getBooleanCompletions. apply labels_of_filtered.
  intros v _. apply guard_startsWith.
Qed.

Lemma getColorCompletions_labels (p : str) :
  map label (getColorCompletions p) = filter (containsCI p) colorCandidates.
Proof.
  unfold getColorCompletions, colorCandidates. rewrite map_app.
  rewrite (labels_of_filtered _ _ _ (containsCI p)).
  - cbn [flat_map filter]. rewrite app_nil_r.
    change (containsCI p (lit "#RRGGBB"))
      with (includes (toLowerCase (lit "#RRGGBB")) p).
    rewrite guard_includes.
    destruct (includes (toLowerCase (lit "#RRGGBB")) p) eqn:E.
    + reflexivity.
    + destruct (startsWith (lit "#") p) eqn:S; [|reflexivity].
      apply hash_template_guard in S. congruence.
  - intros v Hv. unfold containsCI. rewrite (namedColors_lower v Hv).
    apply guard_includes.
Qed.

Lemma getEnumCompletions_labels (option : ConfigOption) (p : str) :
  map label (getEnumCompletions option p)
  = filter (containsCI p) (enumCandidates option).
Proof.
  unfold getEnumCompletions, enumCandidates.
  destruct (opt_enum option) as [vs|]; [|reflexivity].
  apply labels_of_filtered. intros v _. apply guard_includes.
Qed.

Lemma getExampleCompletions_labels (option : ConfigOption) (p : str) :
  map label (getExampleCompletions option p)
  = filter (containsCI p) (exampleCandidates option).
Proof.
  unfold getExampleCompletions, exampleCandidates, nonEmptyList.
  destruct (opt_examples option) as [[|ex exs]|]; try reflexivity.
  apply labels_of_filtered. intros v _. apply guard_includes.
Qed.

Lemma getThemeCompletions_labels (p : str) :
  map label (getThemeCompletions p)
  = filter (containsCI p) themes
    ++ (if includes (lit "light:") p || includes (lit "dark:") p
        then [themeComboLabel] else []).
Proof.
  unfold getThemeCompletions. rewrite map_app.
  rewrite (labels_of_filtered _ _ _ (containsCI p))
    by (intros v _; apply guard_includes).
  f_equal. rewrite <- orb_assoc.
  destruct p as [|c p]; [reflexivity|]. simpl negb. rewrite orb_false_l.
  now destruct (includes (lit "light:") (c :: p) || includes (lit "dark:") (c :: p)).
Qed.

Lemma getKeybindCompletions_labels (schema : GhosttySchema) (p : str) :
  map label (getKeybindCompletions schema p)
  = if includes p (lit "=")
    then filter (containsCI (actionPrefixOf p)) (actionCandidates schema)
    else filter (containsCI p) keybindCandidates.
Proof.
  unfold getKeybindCompletions, actionCandidates, keybindCandidates.
  destruct (includes p (lit "=")).
  - destruct (lookup (lit "keybind") (sch_types schema)) as [kt|];
      [|reflexivity].
    destruct (td_actions kt) as [actions|]; [|reflexivity].
    apply labels_of_filtered. intros v _. apply guard_includes.
  - rewrite map_app, filter_app. f_equal.
    + apply labels_of_filtered_pairs. intros e. apply guard_includes.
    + apply labels_of_filtered. intros v _. apply guard_includes.
Qed.

Lemma completeByType_labels (schema : GhosttySchema) (option : ConfigOption)
  (p : str) :
  map label (completeByType schema option p)
  = filteredValueLabels schema option p.
Proof.
  unfold completeByType, filteredValueLabels.
  destruct (opt_type option);
    auto using getBooleanCompletions_labels, getColorCompletions_labels,
      getEnumCompletions_labels, getExampleCompletions_labels,
      getThemeCompletions_labels, getKeybindCompletions_labels.
Qed.

Lemma filteredValueLabels_empty (schema : GhosttySchema)
  (option : ConfigOption) :
  filteredValueLabels schema option [] = candidates option.
Proof.
  unfold filteredValueLabels, candidates.
  destruct (opt_type option); simpl includes; cbv iota;
    try (apply filter_all; intros v; apply includes_nil).
  - apply filter_all. intros v. reflexivity.
  - reflexivity.
Qed.

End ValueCompletionFacts.

(** C5 (as the code has it).  For candidates and typed text made of Basic
    Latin and Latin-1 characters: value completion filters the candidates
    of the types color, enum, keybind (while the partial text has no [=]),
    theme (the theme names) and the examples of the other types by
    case-insensitive substring containment of the partial text in the
    candidate.  Boolean candidates are filtered by prefix match; once the
    partial text has a [=], keybind actions are filtered by containment of
    the text after that [=]; the light/dark template is offered when the
    partial text is contained in [light:] or [dark:].  An empty partial
    text yields the unfiltered candidate set for every type. *)
Theorem getValueCompletions_filter (schema : GhosttySchema)
  (key textBeforeCursor : str) (option : ConfigOption) :
  latin1Candidates schema option = true ->
  isLatin1 textBeforeCursor = true ->
  lookup key (sch_options schema) = Some option ->
  map label (getValueCompletions schema key textBeforeCursor)
    = filteredValueLabels schema option (partialValueOf textBeforeCursor)
  /\ (partialValueOf textBeforeCursor = [] ->
      map label (getValueCompletions schema key textBeforeCursor)
        = candidates option).
Proof.
  intros _ _ Hkey. unfold getValueCompletions, getProperty. rewrite Hkey.
  rewrite completeByType_labels. split; [reflexivity|].
  intros ->. apply filteredValueLabels_empty.
Qed.

Lemma getValueCompletions_filter_witness :
  map label (getValueCompletions sampleSchema (lit "bold-is-bright")
               (lit "bold-is-bright = T"))
    = [lit "true"]
  /\ map label (getValueCompletions sampleSchema (lit "background")
                  (lit "background = "))
     = candidates (plainOption TColor).
Proof.
  split.
  - apply (getValueCompletions_filter sampleSchema (lit "bold-is-bright")
             (lit "bold-is-bright = T") (plainOption TBoolean));
      reflexivity.
  - apply (getValueCompletions_filter sampleSchema (lit "background")
             (lit "background = ") (plainOption TColor));
      reflexivity.
Defined.

(** C5 as stated fails for booleans, which are matched by prefix: the
    partial text [rue] is contained in [true], yet nothing is offered. *)
Lemma boolean_completion_is_prefix_match :
  lookup (lit "bold-is-bright") (sch_options sampleSchema)
    = Some (plainOption TBoolean)
  /\ partialValueOf (lit "bold-is-bright = rue") = lit "rue"
  /\ claimedValueLabels (plainOption TBoolean) (lit "rue") = [lit "true"]
  /\ map label (getValueCompletions sampleSchema (lit "bold-is-bright")
                  (lit "bold-is-bright = rue")) = [].
Proof. repeat split. Qed.

(** ** The repository's test suites, run on the embedding *)

Section RepositoryTests.

(** [validators.test.ts] *)
Example test_validateColor :
  map (fun v => isValid (validateColor (lit v)))
      ["#ff0000"; "#AABBCC"; "#ff0000ff"; "#f00"; "#gg0000"; "ff0000";
       "#ff00"; "black"; "red"; "transparent"]%string
  = [true; true; true; true; false; true; false; true; true; true].
Proof. vm_compute. reflexivity. Qed.

Example test_validateBoolean :
  map (fun v => isValid (validateBoolean (lit v)))
      ["true"; "false"; "yes"; "no"; "on"; "off"; "1"; "enabled"]%string
  = [true; true; true; true; true; true; false; false].
Proof. vm_compute. reflexivity. Qed.

Example test_validateNumber :
  map (fun v => isValid (validateNumber (lit v) None))
      ["42"; "-10"; "0"; "1.5"; "0.75"; "abc"]%string
  = [true; true; true; true; true; false].
Proof. vm_compute. reflexivity. Qed.

(** [parser.test.ts] *)
Example test_parse_simple :
  map (fun r => (pl_key r, pl_value r)) (parseDocument (lit "font-size = 14"))
  = [(Some (lit "font-size"), Some (lit "14"))].
Proof. vm_compute. reflexivity. Qed.

Example test_parse_without_spaces :
  map (fun r => (pl_key r, pl_value r)) (parseDocument (lit "font-size=14"))
  = [(Some (lit "font-size"), Some (lit "14"))].
Proof. vm_compute. reflexivity. Qed.

Example test_parse_comment_and_empty :
  map pl_type
      (parseDocument
         (lit "# comment" ++ [10%N] ++ lit "font-size = 14" ++ [10%N; 10%N]
            ++ lit "background = #000"))
  = [LComment; LKeyValue; LEmpty; LKeyValue]
  /\ map pl_lineNumber
       (parseDocument
          (lit "# comment" ++ [10%N] ++ lit "font-size = 14" ++ [10%N; 10%N]
             ++ lit "background = #000"))
     = [0; 1; 2; 3]%Z.
Proof. vm_compute. split; reflexivity. Qed.

Example test_parse_value_with_equals :
  map (fun r => (pl_key r, pl_value r))
      (parseDocument (lit "keybind = ctrl+a=select_all"))
  = [(Some (lit "keybind"), Some (lit "ctrl+a=select_all"))].
Proof. vm_compute. reflexivity. Qed.

(** The examples of the specification's section on testable properties. *)
Example spec_keybind_examples :
  map (fun v => isValid (validateValue sampleSchema (lit "keybind") (lit v)))
      ["clear"; "ctrl+c=copy_to_clipboard"; "ctrl+c="; "=copy";
       "ctrl+x=teleport"]%string
  = [true; true; false; false; false].
Proof. vm_compute. reflexivity. Qed.

Example spec_number_examples :
  map (fun v => isValid (validateValue sampleSchema (lit "font-size") (lit v)))
      ["4"; "96"; "14"; "8"; "72"; ""]%string
  = [false; false; true; true; true; true].
Proof. vm_compute. reflexivity. Qed.

End RepositoryTests.

(** ** The parser's regular expressions and capture groups *)

Section CaptureFacts.

Lemma matchesPrefix_Lang (r : re) (s : str) :
  matchesPrefix r s = true <-> exists p q, s = p ++ q /\ Lang r p.
Proof.
  revert r. induction s as [|c s IH]; intros r; simpl.
  - rewrite orb_false_r, nullable_Lang. split.
    + intros H. exists [], []. auto.
    + intros (p & q & E & H). symmetry in E.
      apply app_eq_nil in E as [-> _]. exact H.
  - rewrite orb_true_iff, nullable_Lang, IH. split.
    + intros [H|(p & q & -> & H)].
      * exists [], (c :: s). auto.
      * exists (c :: p), q. split; [reflexivity | now apply deriv_Lang].
    + intros (p & q & E & H). destruct p as [|x p]; simpl in E.
      * now left.
      * inversion E; subst. right. exists p, q.
        split; [reflexivity | now apply deriv_Lang].
Qed.

(** A comment line: white space, then [#]. *)
Lemma COMMENT_REGEX_spec (line : str) :
  matchesPrefix COMMENT_REGEX line = true <->
  exists w rest, line = w ++ hash :: rest /\ forallb isWhitespace w = true.
Proof.
  rewrite matchesPrefix_Lang. unfold COMMENT_REGEX. split.
  - intros (p & q & -> & H). apply Lang_Seq in H as (w & h & -> & Hw & Hh).
    apply Lang_Star_Cls in Hw. apply Lang_Cls in Hh as (x & -> & Hx).
    apply N.eqb_eq in Hx. subst x. exists w, q.
    rewrite <- app_assoc. auto.
  - intros (w & rest & -> & Hw). exists (w ++ [hash]), rest. split.
    + now rewrite <- app_assoc.
    + constructor; [now apply Lang_Star_Cls|].
      constructor. apply N.eqb_refl.
Qed.

Lemma takeWhile_app_stop (p : N -> bool) (a b : str) :
  forallb p a = true -> stopsAt p b ->
  takeWhile p (a ++ b) = a /\ dropWhile p (a ++ b) = b.
Proof.
  intros Ha Hb. induction a as [|x a IH]; simpl in *.
  - destruct b as [|c b]; simpl in *; [auto|]. rewrite Hb. auto.
  - apply andb_true_iff in Ha as [Hx Ha]. rewrite Hx.
    destruct (IH Ha) as [-> ->]. auto.
Qed.

Lemma dropWhile_app_all (p : N -> bool) (a b : str) :
  forallb p a = true -> dropWhile p (a ++ b) = dropWhile p b.
Proof.
  induction a as [|x a IH]; simpl; [reflexivity|].
  intros H. apply andb_true_iff in H as [-> H]. auto.
Qed.

Lemma dropWhile_app_keep (p : N -> bool) (a b : str) :
  dropWhile p a <> [] -> dropWhile p (a ++ b) = dropWhile p a ++ b.
Proof.
  induction a as [|x a IH]; simpl; [congruence|].
  destruct (p x); auto.
Qed.

Lemma trimEnd_app_all (x w : str) :
  forallb isWhitespace w = true -> trimEnd (x ++ w) = trimEnd x.
Proof.
  intros H. unfold trimEnd. rewrite rev_app_distr.
  rewrite dropWhile_app_all by now rewrite forallb_rev. reflexivity.
Qed.

(** White space around a string does not change what [trim] answers. *)
Lemma trim_strip (a x b : str) :
  forallb isWhitespace a = true -> forallb isWhitespace b = true ->
  trim (a ++ x ++ b) = trim x.
Proof.
  intros Ha Hb. unfold trim, trimStart.
  rewrite (dropWhile_app_all _ _ _ Ha).
  destruct (dropWhile isWhitespace x) as [|c r] eqn:E.
  - apply dropWhile_nil_iff in E.
    rewrite dropWhile_all by (rewrite forallb_app, E, Hb; reflexivity).
    reflexivity.
  - rewrite dropWhile_app_keep by congruence. rewrite E.
    now apply trimEnd_app_all.
Qed.

Lemma dropWhile_In (p : N -> bool) (s : str) (c : N) :
  In c (dropWhile p s) -> In c s.
Proof.
  destruct (dropWhile_suffix p s) as (pre & E & _).
  intros H. rewrite E. apply in_or_app. now right.
Qed.

Lemma trim_In (s : str) (c : N) : In c (trim s) -> In c s.
Proof.
  unfold trim, trimEnd, trimStart. intros H.
  apply in_rev, dropWhile_In, in_rev, dropWhile_In in H. exact H.
Qed.

Lemma trim_split (s : str) :
  exists w w', s = w ++ trim s ++ w'
    /\ forallb isWhitespace w = true /\ forallb isWhitespace w' = true
    /\ (trim s = [] -> w' = []).
Proof.
  destruct (dropWhile_suffix isWhitespace s) as (w & E & Hw).
  destruct (trimEnd_split (trimStart s)) as (w' & E' & Hw').
  exists w, w'. unfold trim. repeat split; try assumption.
  - rewrite <- E'. exact E.
  - intros H. rewrite H in E'. simpl in E'.
    destruct (trimStart s) as [|c r] eqn:Es; [now subst|].
    exfalso. unfold trimEnd in H.
    apply (f_equal (@rev N)) in H. rewrite rev_involutive in H.
    change (rev []) with (@nil N) in H.
    apply dropWhile_nil_iff in H. rewrite forallb_rev in H.
    simpl in H. apply andb_true_iff in H as [Hc _].
    unfold trimStart in Es. apply dropWhile_head in Es. congruence.
Qed.

Lemma trim_ends (s : str) :
  stopsAt isWhitespace (trim s) /\ stopsAt isWhitespace (rev (trim s)).
Proof.
  unfold trim. split.
  - destruct (trimStart s) as [|c r] eqn:E; [exact I|].
    assert (Hc : isWhitespace c = false)
      by (unfold trimStart in E; eapply dropWhile_head; eauto).
    unfold trimEnd. simpl rev.
    destruct (dropWhile isWhitespace (rev r)) as [|y u] eqn:Eu.
    + apply dropWhile_nil_iff in Eu.
      rewrite dropWhile_app_all by assumption. simpl. rewrite Hc. exact Hc.
    + rewrite dropWhile_app_keep by congruence. rewrite Eu.
      rewrite rev_app_distr. simpl. exact Hc.
  - unfold trimEnd. rewrite rev_involutive.
    destruct (dropWhile isWhitespace (rev (trimStart s))) as [|c r] eqn:E;
      [exact I|].
    simpl. eapply dropWhile_head; eauto.
Qed.

Lemma isKeyChar_not_whitespace (c : N) :
  isKeyChar c = true -> isWhitespace c = false.
Proof.
  intros H.
  assert (Hc : (c < N.of_nat 128)%N).
  { unfold isKeyChar, isAlpha, isDigit in H.
    rewrite !orb_true_iff, !andb_true_iff, !N.leb_le, !N.eqb_eq in H. lia. }
  pose proof (forallb_below
    (fun x => implb (isKeyChar x) (negb (isWhitespace x))) 128 eq_refl c Hc)
    as Hall.
  cbv beta in Hall. rewrite H in Hall.
  now destruct (isWhitespace c).
Qed.

Lemma isAlpha_isKeyChar (c : N) : isAlpha c = true -> isKeyChar c = true.
Proof. unfold isKeyChar. now intros ->. Qed.

(** The capture groups [execKeyValue] answers decompose the line the way
    the expression reads it: group 1 is white space and the key follows
    it; group 2 is a key and what follows is no key character; group 3 has
    no line terminator, does not start with white space (the preceding
    [\s*] is greedy) and does not end with white space ([.*?] is lazy). *)
Theorem execKeyValue_captures (line indent key value : str) :
  execKeyValue line = Some (indent, key, value) ->
  exists ws1 ws2 ws3,
    line = indent ++ key ++ ws1 ++ equalsSign :: ws2 ++ value ++ ws3
    /\ forallb isWhitespace indent = true
    /\ Lang (Seq (Cls isAlpha) (Star (Cls isKeyChar))) key
    /\ forallb isWhitespace ws1 = true
    /\ forallb isWhitespace ws2 = true
    /\ forallb isDot value = true
    /\ forallb isWhitespace ws3 = true
    /\ stopsAt isWhitespace value
    /\ stopsAt isWhitespace (rev value)
    /\ (value = [] -> ws3 = []).
Proof.
  unfold execKeyValue.
  destruct (matches KEY_VALUE_REGEX line) eqn:Hm; [|discriminate].
  apply matches_Lang in Hm. unfold KEY_VALUE_REGEX in Hm.
  apply Lang_Seq in Hm as (ind & l1 & -> & Hind & H).
  apply Lang_Seq in H as (ky & l2 & -> & Hkey & H).
  apply Lang_Seq in H as (w1 & l3 & -> & Hw1 & H).
  apply Lang_Chr_Seq in H as (rest & -> & H).
  apply Lang_Seq in H as (w2 & l4 & -> & Hw2 & H).
  apply Lang_Seq in H as (body & w3 & -> & Hbody & Hw3).
  pose proof Hkey as Hkey'.
  apply Lang_Seq in Hkey as (k0 & krest & -> & Hk0 & Hkrest).
  apply Lang_Cls in Hk0 as (k & -> & Hk).
  apply Lang_Star_Cls in Hind, Hw1, Hw2, Hbody, Hw3, Hkrest.
  assert (Hkk : isKeyChar k = true) by now apply isAlpha_isKeyChar.
  (* group 1 *)
  destruct (takeWhile_app_stop isWhitespace ind
              (([k] ++ krest) ++ w1 ++ equalsSign :: w2 ++ body ++ w3) Hind)
    as [Hti Hdi].
  { simpl. now apply isKeyChar_not_whitespace. }
  (* group 2 *)
  destruct (takeWhile_app_stop isKeyChar ([k] ++ krest)
              (w1 ++ equalsSign :: w2 ++ body ++ w3)) as [Htk _].
  { simpl. now rewrite Hkk, Hkrest. }
  { destruct w1 as [|x w1]; simpl; [reflexivity|].
    simpl in Hw1. apply andb_true_iff in Hw1 as [Hx _].
    destruct (isKeyChar x) eqn:Ex; [|reflexivity].
    apply isKeyChar_not_whitespace in Ex. congruence. }
  (* group 3 *)
  assert (Hpre : ~ In equalsSign (ind ++ ([k] ++ krest) ++ w1)).
  { intros Hin. rewrite !in_app_iff in Hin.
    destruct Hin as [Hin|[[Hin|Hin]|Hin]].
    - revert Hin. now apply forallb_In_false with (p := isWhitespace).
    - destruct Hin as [Eq|[]]. subst k. discriminate Hk.
    - revert Hin. now apply forallb_In_false with (p := isKeyChar).
    - revert Hin. now apply forallb_In_false with (p := isWhitespace). }
  assert (Hrest :
    substringFrom
      (ind ++ ([k] ++ krest) ++ w1 ++ equalsSign :: w2 ++ body ++ w3)
      (indexOf equalsSign
         (ind ++ ([k] ++ krest) ++ w1 ++ equalsSign :: w2 ++ body ++ w3) + 1)
    = w2 ++ body ++ w3).
  { replace (ind ++ ([k] ++ krest) ++ w1 ++ equalsSign :: w2 ++ body ++ w3)
      with ((ind ++ ([k] ++ krest) ++ w1) ++ equalsSign :: w2 ++ body ++ w3)
      by now rewrite <- !app_assoc.
    now rewrite (indexOf_app _ _ _ Hpre), substringFrom_after. }
  intros E. injection E as <- <- <-. cbn [app] in *.
  rewrite Hti, Hdi, Htk, Hrest.
  destruct (trim_split (w2 ++ body ++ w3)) as (u & u' & Esplit & Hu & Hu' & Hnil).
  destruct (trim_ends (w2 ++ body ++ w3)) as [Hs He].
  exists w1, u, u'. rewrite <- Esplit.
  repeat split; try assumption.
  rewrite (trim_strip _ _ _ Hw2 Hw3).
  apply forallb_forall. intros c Hc. apply trim_In in Hc.
  rewrite forallb_forall in Hbody. auto.
Qed.

End CaptureFacts.

(** * Further properties of the sources *)

Import Hover SpecMore.

(** ** [parseDocument] *)

Section DocumentFacts.

Lemma parseLine_raw (line : str) (n : Z) : pl_raw (parseLine line n) = line.
Proof.
  unfold parseLine.
  destruct (str_eqb (trim line) []); [reflexivity|].
  destruct (matchesPrefix COMMENT_REGEX line); [reflexivity|].
  destruct (execKeyValue line) as [[[indent key] value]|]; reflexivity.
Qed.

Lemma parseLine_lineNumber (line : str) (n : Z) :
  pl_lineNumber (parseLine line n) = n.
Proof.
  unfold parseLine.
  destruct (str_eqb (trim line) []); [reflexivity|].
  destruct (matchesPrefix COMMENT_REGEX line); [reflexivity|].
  destruct (execKeyValue line) as [[[indent key] value]|]; reflexivity.
Qed.

Lemma split_aux_nonempty (c : N) (acc s : str) : split_aux c acc s <> [].
Proof.
  revert acc. induction s as [|x s IH]; intros acc; simpl; [discriminate|].
  destruct (N.eqb x c); [discriminate | apply IH].
Qed.

Lemma join_cons (sep x : str) (l : list str) :
  l <> [] -> join sep (x :: l) = x ++ sep ++ join sep l.
Proof. destruct l; [congruence | reflexivity]. Qed.

Lemma join_split_aux (c : N) (acc s : str) :
  join [c] (split_aux c acc s) = rev acc ++ s.
Proof.
  revert acc. induction s as [|x s IH]; intros acc; simpl.
  - now rewrite app_nil_r.
  - destruct (N.eqb_spec x c) as [->|Hne].
    + rewrite join_cons by apply split_aux_nonempty.
      rewrite IH. reflexivity.
    + rewrite IH. simpl. now rewrite <- app_assoc.
Qed.

Lemma length_split_aux (c : N) (acc s : str) :
  List.length (split_aux c acc s) = S (count_occ N.eq_dec s c).
Proof.
  revert acc. induction s as [|x s IH]; intros acc; simpl; [reflexivity|].
  destruct (N.eq_dec x c) as [E|E].
  - subst x. rewrite N.eqb_refl. simpl. now rewrite IH.
  - rewrite (proj2 (N.eqb_neq x c) E). now rewrite IH.
Qed.

Lemma split_aux_pieces (c : N) (acc s : str) :
  ~ In c acc -> forall piece, In piece (split_aux c acc s) -> ~ In c piece.
Proof.
  revert acc. induction s as [|x s IH]; intros acc Hacc piece; simpl.
  - intros [<-|[]]. now rewrite <- in_rev.
  - destruct (N.eqb_spec x c) as [->|Hne].
    + intros [<-|H]; [now rewrite <- in_rev|].
      revert H. apply IH. intros [].
    + apply IH. intros [H|H]; [congruence | contradiction].
Qed.

Lemma parseLines_raw (lines : list str) (i : Z) :
  map pl_raw (parseLines lines i) = lines.
Proof.
  revert i. induction lines as [|l lines IH]; intros i; simpl; [reflexivity|].
  now rewrite parseLine_raw, IH.
Qed.

Lemma parseLines_nth (lines : list str) (i : Z) (k : nat) (r : ParsedLine) :
  nth_error (parseLines lines i) k = Some r ->
  exists l, nth_error lines k = Some l /\ r = parseLine l (i + Z.of_nat k).
Proof.
  revert i k. induction lines as [|l lines IH]; intros i k; simpl.
  - destruct k; discriminate.
  - destruct k as [|k]; simpl.
    + intros E. inversion E. exists l. rewrite Z.add_0_r. auto.
    + intros E. destruct (IH _ _ E) as (l' & Hl & ->). exists l'.
      split; [assumption|]. f_equal. lia.
Qed.

End DocumentFacts.

(** X1.  [parseDocument] answers one record per line of the text: as many
    records as the text has newline characters, plus one; the record at
    index [k] carries line number [k], is [parseLine] of its own raw text,
    and that raw text has no newline; joining the raw texts with newlines
    gives the document back. *)
Theorem parseDocument_records (text : str) :
  List.length (parseDocument text) = S (count_occ N.eq_dec text newline)
  /\ join [newline] (map pl_raw (parseDocument text)) = text
  /\ (forall k r,
        nth_error (parseDocument text) k = Some r ->
        pl_lineNumber r = Z.of_nat k
        /\ r = parseLine (pl_raw r) (Z.of_nat k)
        /\ ~ In newline (pl_raw r)).
Proof.
  unfold parseDocument, split. split; [|split].
  - rewrite <- (length_map pl_raw), parseLines_raw. apply length_split_aux.
  - rewrite parseLines_raw. apply (join_split_aux newline [] text).
  - intros k r Hk. apply parseLines_nth in Hk as (l & Hl & ->).
    rewrite parseLine_lineNumber, parseLine_raw. simpl.
    repeat split.
    apply nth_error_In in Hl.
    apply (split_aux_pieces newline [] text); [intros []|assumption].
Qed.

Lemma parseDocument_records_witness :
  nth_error (parseDocument (lit "a = 1" ++ [newline] ++ lit "# c")) 1
  = Some (parseLine (lit "# c") 1)
  /\ pl_lineNumber (parseLine (lit "# c") 1) = 1%Z
  /\ ~ In newline (pl_raw (parseLine (lit "# c") 1)).
Proof.
  assert (H : nth_error (parseDocument (lit "a = 1" ++ [newline] ++ lit "# c")) 1
              = Some (parseLine (lit "# c") 1)) by reflexivity.
  split; [exact H|].
  destruct (proj2 (proj2 (parseDocument_records
                            (lit "a = 1" ++ [newline] ++ lit "# c")))
              1%nat _ H) as (Hn & _ & Hr).
  split; [exact Hn | exact Hr].
Defined.

(** ** [parseLine]: classification, fields and ranges *)

Section LineFacts.

Lemma isKey_Lang (key : str) :
  isKey key = true <-> Lang (Seq (Cls isAlpha) (Star (Cls isKeyChar))) key.
Proof.
  rewrite Lang_Seq. split.
  - destruct key as [|k rest]; simpl; [discriminate|].
    intros H. apply andb_true_iff in H as [Hk Hrest].
    exists [k], rest. repeat split.
    + now constructor.
    + now apply Lang_Star_Cls.
  - intros (u & t & -> & Hu & Ht). apply Lang_Cls in Hu as (k & -> & Hk).
    apply Lang_Star_Cls in Ht. simpl. now rewrite Hk, Ht.
Qed.

Lemma isKey_chars (key : str) :
  isKey key = true -> forallb isKeyChar key = true.
Proof.
  destruct key as [|k rest]; simpl; [discriminate|].
  intros H. apply andb_true_iff in H as [Hk ->].
  now rewrite (isAlpha_isKeyChar k Hk).
Qed.

Lemma isKey_stops (key rest : str) :
  isKey key = true -> stopsAt isWhitespace (key ++ rest).
Proof.
  destruct key as [|k r]; simpl; [discriminate|].
  intros H. apply andb_true_iff in H as [Hk _].
  now apply isKeyChar_not_whitespace, isAlpha_isKeyChar.
Qed.

Lemma trim_fixed (v : str) :
  stopsAt isWhitespace v -> stopsAt isWhitespace (rev v) -> trim v = v.
Proof.
  intros Hs He. unfold trim, trimStart, trimEnd.
  assert (E1 : dropWhile isWhitespace v = v).
  { destruct v as [|c r]; simpl in *; [reflexivity | now rewrite Hs]. }
  rewrite E1.
  assert (E2 : dropWhile isWhitespace (rev v) = rev v).
  { destruct (rev v) as [|c r]; simpl in *; [reflexivity | now rewrite He]. }
  rewrite E2. apply rev_involutive.
Qed.

Lemma stopsAt_app (p : N -> bool) (a b : str) :
  a <> [] -> stopsAt p a -> stopsAt p (a ++ b).
Proof. destruct a; [congruence | auto]. Qed.

(** The white space before the key, the key and the white space up to
    the [=] hold no [=]. *)
Lemma shape_prefix_no_equals (indent key ws1 : str) :
  forallb isWhitespace indent = true -> isKey key = true ->
  forallb isWhitespace ws1 = true ->
  ~ In equalsSign (indent ++ key ++ ws1).
Proof.
  intros Hi Hk Hw Hin. rewrite !in_app_iff in Hin.
  destruct Hin as [Hin|[Hin|Hin]]; revert Hin.
  - now apply forallb_In_false with (p := isWhitespace).
  - apply forallb_In_false with (p := isKeyChar); [now apply isKey_chars|].
    reflexivity.
  - now apply forallb_In_false with (p := isWhitespace).
Qed.

Lemma shape_matches (line indent key ws1 ws2 value ws3 : str) :
  keyValueShape line indent key ws1 ws2 value ws3 ->
  matches KEY_VALUE_REGEX line = true.
Proof.
  intros (-> & Hi & Hk & H1 & H2 & (_ & _ & Hv) & H3).
  apply matches_Lang. unfold KEY_VALUE_REGEX.
  constructor; [now apply Lang_Star_Cls|].
  constructor; [now apply isKey_Lang|].
  constructor; [now apply Lang_Star_Cls|].
  apply Lang_Chr_Seq. eexists. split; [reflexivity|].
  constructor; [now apply Lang_Star_Cls|].
  constructor; now apply Lang_Star_Cls.
Qed.

Lemma shape_not_blank (line indent key ws1 ws2 value ws3 : str) :
  keyValueShape line indent key ws1 ws2 value ws3 ->
  str_eqb (trim line) [] = false.
Proof.
  intros (-> & Hi & Hk & _).
  destruct (str_eqb (trim _) []) eqn:E; [|reflexivity]. exfalso.
  apply trim_empty_iff in E.
  rewrite !forallb_app in E. apply andb_true_iff in E as [_ E].
  apply andb_true_iff in E as [E _].
  destruct key as [|k r]; simpl in *; [discriminate|].
  apply andb_true_iff in Hk as [Hk _]. apply andb_true_iff in E as [E _].
  apply isAlpha_isKeyChar, isKeyChar_not_whitespace in Hk. congruence.
Qed.

Lemma shape_not_comment (line indent key ws1 ws2 value ws3 : str) :
  keyValueShape line indent key ws1 ws2 value ws3 ->
  matchesPrefix COMMENT_REGEX line = false.
Proof.
  intros (-> & Hi & Hk & _).
  destruct (matchesPrefix COMMENT_REGEX _) eqn:E; [|reflexivity]. exfalso.
  apply COMMENT_REGEX_spec in E as (w & rest & E & Hw).
  destruct (takeWhile_app_stop isWhitespace indent
              (key ++ ws1 ++ equalsSign :: ws2 ++ value ++ ws3) Hi
              (isKey_stops key _ Hk)) as [_ Hd].
  destruct (takeWhile_app_stop isWhitespace w (hash :: rest) Hw eq_refl)
    as [_ Hd'].
  rewrite E, Hd' in Hd.
  destruct key as [|k r]; simpl in *; [discriminate|].
  inversion Hd; subst k. discriminate Hk.
Qed.

Lemma shape_exec (line indent key ws1 ws2 value ws3 : str) :
  keyValueShape line indent key ws1 ws2 value ws3 ->
  execKeyValue line = Some (indent, key, value).
Proof.
  intros Hshape. pose proof (shape_matches _ _ _ _ _ _ _ Hshape) as Hm.
  destruct Hshape as (-> & Hi & Hk & H1 & H2 & (Hs & He & Hv) & H3).
  unfold execKeyValue. rewrite Hm.
  destruct (takeWhile_app_stop isWhitespace indent
              (key ++ ws1 ++ equalsSign :: ws2 ++ value ++ ws3) Hi
              (isKey_stops key _ Hk)) as [Ht Hd].
  rewrite Ht, Hd.
  destruct (takeWhile_app_stop isKeyChar key
              (ws1 ++ equalsSign :: ws2 ++ value ++ ws3)
              (isKey_chars key Hk)) as [Htk _].
  { destruct ws1 as [|x w]; simpl; [reflexivity|].
    simpl in H1. apply andb_true_iff in H1 as [Hx _].
    destruct (isKeyChar x) eqn:Ex; [|reflexivity].
    apply isKeyChar_not_whitespace in Ex. congruence. }
  rewrite Htk.
  pose proof (shape_prefix_no_equals indent key ws1 Hi Hk H1) as Hpre.
  replace (indent ++ key ++ ws1 ++ equalsSign :: ws2 ++ value ++ ws3)
    with ((indent ++ key ++ ws1) ++ equalsSign :: ws2 ++ value ++ ws3)
    by now rewrite <- !app_assoc.
  rewrite (indexOf_app _ _ _ Hpre), substringFrom_after.
  rewrite (trim_strip _ _ _ H2 H3), (trim_fixed _ Hs He). reflexivity.
Qed.

(** The converse: what [execKeyValue] answers is a shape of the line. *)
Lemma exec_shape (line indent key value : str) :
  execKeyValue line = Some (indent, key, value) ->
  exists ws1 ws2 ws3, keyValueShape line indent key ws1 ws2 value ws3
                      /\ (value = [] -> ws3 = []).
Proof.
  intros H. apply execKeyValue_captures in H
    as (ws1 & ws2 & ws3 & E & Hi & Hk & H1 & H2 & Hv & H3 & Hs & He & Hn).
  exists ws1, ws2, ws3. split; [|assumption].
  unfold keyValueShape, isTrimmedValue. rewrite isKey_Lang. auto 10.
Qed.

End LineFacts.

Section LineRecordFacts.

Lemma trimEnd_fixed (x : str) :
  stopsAt isWhitespace (rev x) -> trimEnd x = x.
Proof.
  intros H. unfold trimEnd.
  destruct (rev x) as [|c r] eqn:E; cbn [dropWhile stopsAt] in *.
  - apply (f_equal (@rev N)) in E. rewrite rev_involutive in E. now subst.
  - rewrite H, <- E. apply rev_involutive.
Qed.

Lemma trimStart_shape (ws2 value ws3 : str) :
  forallb isWhitespace ws2 = true -> forallb isWhitespace ws3 = true ->
  stopsAt isWhitespace value ->
  trimStart (ws2 ++ value ++ ws3)
  = match value with [] => [] | _ => value ++ ws3 end.
Proof.
  intros H2 H3 Hs. unfold trimStart. destruct value as [|c v].
  - apply dropWhile_all. simpl. now rewrite forallb_app, H2, H3.
  - apply (takeWhile_app_stop isWhitespace ws2 ((c :: v) ++ ws3) H2). exact Hs.
Qed.

Lemma trimEnd_shape (pre ws2 value ws3 : str) :
  forallb isWhitespace ws2 = true -> forallb isWhitespace ws3 = true ->
  stopsAt isWhitespace (rev value) ->
  trimEnd (pre ++ equalsSign :: ws2 ++ value ++ ws3)
  = match value with
    | [] => pre ++ [equalsSign]
    | _ => pre ++ equalsSign :: ws2 ++ value
    end.
Proof.
  intros H2 H3 He. destruct value as [|c v].
  - simpl app.
    replace (pre ++ equalsSign :: ws2 ++ ws3)
      with ((pre ++ [equalsSign]) ++ (ws2 ++ ws3))
      by (rewrite <- app_assoc; reflexivity).
    rewrite trimEnd_app_all by (now rewrite forallb_app, H2, H3).
    apply trimEnd_fixed. rewrite rev_app_distr. reflexivity.
  - replace (pre ++ equalsSign :: ws2 ++ (c :: v) ++ ws3)
      with ((pre ++ equalsSign :: ws2 ++ c :: v) ++ ws3)
      by (rewrite <- !app_assoc; simpl; now rewrite <- app_assoc).
    rewrite trimEnd_app_all by assumption.
    apply trimEnd_fixed.
    replace (pre ++ equalsSign :: ws2 ++ c :: v)
      with ((pre ++ equalsSign :: ws2) ++ c :: v)
      by (rewrite <- app_assoc; reflexivity).
    rewrite rev_app_distr. apply stopsAt_app; [|assumption].
    simpl. intros E. apply app_eq_nil in E as [_ E]. discriminate E.
Qed.

(** The record [parseLine] builds for a line of the key/value shape. *)
Lemma parseLine_shape (line indent key ws1 ws2 value ws3 : str) (n : Z) :
  keyValueShape line indent key ws1 ws2 value ws3 ->
  parseLine line n =
  {| pl_type := LKeyValue; pl_lineNumber := n;
     pl_key := Some key; pl_value := Some value;
     pl_keyRange :=
       Some {| r_start := len indent; r_end := len indent + len key |};
     pl_valueRange :=
       Some {| r_start :=
                 len (indent ++ key ++ ws1) + 1
                 + match value with
                   | [] => len ws2 + len ws3
                   | _ => len ws2
                   end;
               r_end :=
                 len (indent ++ key ++ ws1) + 1
                 + match value with
                   | [] => 0
                   | _ => len ws2 + len value
                   end |};
     pl_raw := line |}%Z.
Proof.
  intros Hshape. unfold parseLine.
  rewrite (shape_not_blank _ _ _ _ _ _ _ Hshape),
    (shape_not_comment _ _ _ _ _ _ _ Hshape),
    (shape_exec _ _ _ _ _ _ _ Hshape).
  destruct Hshape as (-> & Hi & Hk & H1 & H2 & (Hs & He & Hv) & H3).
  pose proof (shape_prefix_no_equals indent key ws1 Hi Hk H1) as Hpre.
  rewrite (trim_fixed _ Hs He).
  replace (indent ++ key ++ ws1 ++ equalsSign :: ws2 ++ value ++ ws3)
    with ((indent ++ key ++ ws1) ++ equalsSign :: ws2 ++ value ++ ws3)
    by now rewrite <- !app_assoc.
  rewrite (indexOf_app _ _ _ Hpre), substringFrom_after.
  rewrite (trimStart_shape _ _ _ H2 H3 Hs).
  rewrite (trimEnd_shape _ _ _ _ H2 H3 He).
  f_equal. f_equal. f_equal.
  - destruct value as [|c v]; rewrite !len_app;
      change (len []) with 0%Z; lia.
  - destruct value as [|c v].
    + rewrite len_app. change (len [equalsSign]) with 1%Z. lia.
    + rewrite (len_app (indent ++ key ++ ws1)), len_cons, (len_app ws2). lia.
Qed.

End LineRecordFacts.

Section ClassificationFacts.

Lemma parseLine_type (line : str) (n : Z) :
  pl_type (parseLine line n) =
  if str_eqb (trim line) [] then LEmpty
  else if matchesPrefix COMMENT_REGEX line then LComment
  else if matches KEY_VALUE_REGEX line then LKeyValue
  else LInvalid.
Proof.
  unfold parseLine, execKeyValue.
  destruct (str_eqb (trim line) []); [reflexivity|].
  destruct (matchesPrefix COMMENT_REGEX line); [reflexivity|].
  now destruct (matches KEY_VALUE_REGEX line).
Qed.

Lemma commentShape_not_blank (line : str) :
  commentShape line -> str_eqb (trim line) [] = false.
Proof.
  intros (w & rest & -> & Hw).
  destruct (str_eqb (trim _) []) eqn:E; [|reflexivity].
  apply trim_empty_iff in E. rewrite forallb_app in E.
  apply andb_true_iff in E as [_ E]. discriminate E.
Qed.

(** A key/value record comes with a shape of its line. *)
Lemma keyValue_record (line : str) (n : Z) :
  pl_type (parseLine line n) = LKeyValue ->
  exists indent key ws1 ws2 value ws3,
    keyValueShape line indent key ws1 ws2 value ws3
    /\ (value = [] -> ws3 = []).
Proof.
  rewrite parseLine_type.
  destruct (str_eqb (trim line) []); [discriminate|].
  destruct (matchesPrefix COMMENT_REGEX line); [discriminate|].
  destruct (matches KEY_VALUE_REGEX line) eqn:Hm; [|discriminate].
  intros _.
  assert (E : execKeyValue line
              = Some (takeWhile isWhitespace line,
                      takeWhile isKeyChar (dropWhile isWhitespace line),
                      trim (substringFrom line (indexOf equalsSign line + 1)))).
  { unfold execKeyValue. now rewrite Hm. }
  apply exec_shape in E as (ws1 & ws2 & ws3 & H & Hn). eauto 10.
Qed.

End ClassificationFacts.

(** X2.  [parseLine] classifies a line by its text alone: it is [empty]
    exactly when every character is white space; a [comment] exactly when
    its first character that is not white space is [#]; a [keyValue]
    exactly when it reads as white space, a key, white space, [=], white
    space, a value without line terminators, white space; and [invalid] in
    every other case. *)
Theorem parseLine_classification (line : str) (n : Z) :
  (pl_type (parseLine line n) = LEmpty <-> forallb isWhitespace line = true)
  /\ (pl_type (parseLine line n) = LComment <-> commentShape line)
  /\ (pl_type (parseLine line n) = LKeyValue <->
      exists indent key ws1 ws2 value ws3,
        keyValueShape line indent key ws1 ws2 value ws3)
  /\ (pl_type (parseLine line n) = LInvalid <->
      forallb isWhitespace line = false
      /\ ~ commentShape line
      /\ ~ exists indent key ws1 ws2 value ws3,
             keyValueShape line indent key ws1 ws2 value ws3).
Proof.
  assert (Hkv : pl_type (parseLine line n) = LKeyValue <->
                exists indent key ws1 ws2 value ws3,
                  keyValueShape line indent key ws1 ws2 value ws3).
  { split.
    - intros H. apply keyValue_record in H
        as (indent & key & ws1 & ws2 & value & ws3 & H & _). eauto 10.
    - intros (indent & key & ws1 & ws2 & value & ws3 & H).
      now rewrite (parseLine_shape _ _ _ _ _ _ _ n H). }
  assert (Hc : pl_type (parseLine line n) = LComment <-> commentShape line).
  { rewrite parseLine_type. split.
    - destruct (str_eqb (trim line) []); [discriminate|].
      destruct (matchesPrefix COMMENT_REGEX line) eqn:E.
      + intros _. now apply COMMENT_REGEX_spec.
      + destruct (matches KEY_VALUE_REGEX line); discriminate.
    - intros H. rewrite (commentShape_not_blank _ H).
      apply COMMENT_REGEX_spec in H. now rewrite H. }
  assert (He : pl_type (parseLine line n) = LEmpty <->
               forallb isWhitespace line = true).
  { rewrite <- trim_empty_iff, parseLine_type.
    destruct (str_eqb (trim line) []); [tauto|].
    destruct (matchesPrefix COMMENT_REGEX line);
      [|destruct (matches KEY_VALUE_REGEX line)];
      split; discriminate. }
  split; [exact He|]. split; [exact Hc|]. split; [exact Hkv|].
  rewrite <- Hkv, <- Hc, <- not_true_iff_false, <- He.
  destruct (pl_type (parseLine line n)); split;
    try discriminate; try (intros (A & B & C); congruence).
  intros _. repeat split; discriminate.
Qed.

(** X3.  Whatever the indentation and the spacing around the [=], a line
    written as key, [=], value parses back to that key and that value, with
    the key range locating the key after the indentation.  Only the first
    [=] separates: the value may itself hold [=] signs. *)
Theorem parseLine_formatted (line indent key ws1 ws2 value ws3 : str) (n : Z) :
  keyValueShape line indent key ws1 ws2 value ws3 ->
  pl_type (parseLine line n) = LKeyValue
  /\ pl_key (parseLine line n) = Some key
  /\ pl_value (parseLine line n) = Some value
  /\ pl_keyRange (parseLine line n)
     = Some {| r_start := len indent; r_end := len indent + len key |}.
Proof.
  intros H. rewrite (parseLine_shape _ _ _ _ _ _ _ n H). repeat split.
Qed.

Lemma parseLine_formatted_witness :
  pl_type (parseLine (lit "  keybind = ctrl+a=select_all  ") 7) = LKeyValue
  /\ pl_key (parseLine (lit "  keybind = ctrl+a=select_all  ") 7)
     = Some (lit "keybind")
  /\ pl_value (parseLine (lit "  keybind = ctrl+a=select_all  ") 7)
     = Some (lit "ctrl+a=select_all")
  /\ pl_keyRange (parseLine (lit "  keybind = ctrl+a=select_all  ") 7)
     = Some {| r_start := 2; r_end := 9 |}.
Proof.
  apply (parseLine_formatted (lit "  keybind = ctrl+a=select_all  ")
           (lit "  ") (lit "keybind") (lit " ") (lit " ")
           (lit "ctrl+a=select_all") (lit "  ") 7).
  unfold keyValueShape, isTrimmedValue. repeat split; reflexivity.
Defined.

Section RangeFacts.

Lemma substring_comm (s : str) (a b : Z) : substring s a b = substring s b a.
Proof.
  unfold substring. now rewrite Nat.min_comm, Nat.max_comm.
Qed.

Lemma substring_middle (a b c : str) :
  substring (a ++ b ++ c) (len a) (len a + len b) = b.
Proof.
  unfold substring.
  replace (clamp (a ++ b ++ c) (len a)) with (List.length a)
    by (unfold clamp; rewrite !len_app; unfold len; lia).
  replace (clamp (a ++ b ++ c) (len a + len b))
    with (List.length a + List.length b)%nat
    by (unfold clamp; rewrite !len_app; unfold len; lia).
  rewrite Nat.min_l, Nat.max_r by lia.
  rewrite skipn_app, skipn_all, Nat.sub_diag. simpl.
  replace (List.length a + List.length b - List.length a)%nat
    with (List.length b) by lia.
  rewrite firstn_app, firstn_all, Nat.sub_diag. simpl. apply app_nil_r.
Qed.

End RangeFacts.

(** X4.  The ranges of a key/value record locate its fields in the raw
    line: the text at the key range is the key; the text at the value
    range, trimmed, is the value, and is the value itself when the value is
    not empty.  The key range ends at or before the first [=] and the
    value range starts after it. *)
Theorem parseLine_ranges_roundtrip (line : str) (n : Z) :
  pl_type (parseLine line n) = LKeyValue ->
  exists key value kr vr,
    pl_key (parseLine line n) = Some key
    /\ pl_value (parseLine line n) = Some value
    /\ pl_keyRange (parseLine line n) = Some kr
    /\ pl_valueRange (parseLine line n) = Some vr
    /\ substring line (r_start kr) (r_end kr) = key
    /\ trim (substring line (r_start vr) (r_end vr)) = value
    /\ (value <> [] -> substring line (r_start vr) (r_end vr) = value)
    /\ (0 <= r_start kr < r_end kr)%Z
    /\ (r_end kr <= indexOf equalsSign line < r_start vr)%Z
    /\ (r_start vr <= len line)%Z.
Proof.
  intros H. apply keyValue_record in H
    as (indent & key & ws1 & ws2 & value & ws3 & Hshape & Hnil).
  rewrite (parseLine_shape _ _ _ _ _ _ _ n Hshape).
  destruct Hshape as (-> & Hi & Hk & H1 & H2 & (Hs & He & Hv) & H3).
  pose proof (shape_prefix_no_equals indent key ws1 Hi Hk H1) as Hpre.
  exists key, value. eexists _, _. cbn [pl_key pl_value pl_keyRange
    pl_valueRange r_start r_end].
  split; [reflexivity|]. split; [reflexivity|].
  split; [reflexivity|]. split; [reflexivity|].
  assert (Hidx : indexOf equalsSign
                   (indent ++ key ++ ws1 ++ equalsSign :: ws2 ++ value ++ ws3)
                 = len (indent ++ key ++ ws1)).
  { replace (indent ++ key ++ ws1 ++ equalsSign :: ws2 ++ value ++ ws3)
      with ((indent ++ key ++ ws1) ++ equalsSign :: ws2 ++ value ++ ws3)
      by now rewrite <- !app_assoc.
    apply (indexOf_app _ _ _ Hpre). }
  assert (Hvalue :
    trim (substring
            (indent ++ key ++ ws1 ++ equalsSign :: ws2 ++ value ++ ws3)
            (len (indent ++ key ++ ws1) + 1
             + match value with [] => len ws2 + len ws3 | _ => len ws2 end)
            (len (indent ++ key ++ ws1) + 1
             + match value with [] => 0 | _ => len ws2 + len value end))
    = value
    /\ (value <> [] ->
        substring
          (indent ++ key ++ ws1 ++ equalsSign :: ws2 ++ value ++ ws3)
          (len (indent ++ key ++ ws1) + 1
           + match value with [] => len ws2 + len ws3 | _ => len ws2 end)
          (len (indent ++ key ++ ws1) + 1
           + match value with [] => 0 | _ => len ws2 + len value end)
        = value)).
  { destruct value as [|c v].
    - rewrite (Hnil eq_refl). split; [|congruence].
      rewrite substring_comm.
      replace (indent ++ key ++ ws1 ++ equalsSign :: ws2 ++ [] ++ [])
        with (((indent ++ key ++ ws1) ++ [equalsSign]) ++ ws2 ++ [])
        by (rewrite <- !app_assoc; reflexivity).
      replace (len (indent ++ key ++ ws1) + 1 + 0)%Z
        with (len ((indent ++ key ++ ws1) ++ [equalsSign]))
        by (rewrite (len_app _ [equalsSign]); change (len [equalsSign]) with 1%Z; lia).
      replace (len (indent ++ key ++ ws1) + 1 + (len ws2 + len []))%Z
        with (len ((indent ++ key ++ ws1) ++ [equalsSign]) + len ws2)%Z
        by (rewrite (len_app _ [equalsSign]);
            change (len [equalsSign]) with 1%Z; change (len []) with 0%Z; lia).
      rewrite substring_middle.
      apply str_eqb_eq, trim_empty_iff. exact H2.
    - replace (indent ++ key ++ ws1 ++ equalsSign :: ws2 ++ (c :: v) ++ ws3)
        with (((indent ++ key ++ ws1) ++ equalsSign :: ws2) ++ (c :: v) ++ ws3)
        by (rewrite <- !app_assoc; reflexivity).
      replace (len (indent ++ key ++ ws1) + 1 + len ws2)%Z
        with (len ((indent ++ key ++ ws1) ++ equalsSign :: ws2))
        by (rewrite (len_app _ (equalsSign :: ws2)), len_cons; lia).
      replace (len (indent ++ key ++ ws1) + 1 + (len ws2 + len (c :: v)))%Z
        with (len ((indent ++ key ++ ws1) ++ equalsSign :: ws2) + len (c :: v))%Z
        by (rewrite (len_app _ (equalsSign :: ws2)), len_cons; lia).
      rewrite substring_middle. split; [|reflexivity].
      now apply trim_fixed. }
  split; [apply substring_middle|].
  split; [apply Hvalue|]. split; [apply Hvalue|].
  rewrite Hidx.
  pose proof (len_nonneg indent). pose proof (len_nonneg ws1).
  pose proof (len_nonneg ws2). pose proof (len_nonneg ws3).
  assert (0 < len key)%Z.
  { destruct key; [discriminate|]. rewrite len_cons.
    pose proof (len_nonneg key). lia. }
  cbn [r_start r_end]. rewrite !len_app, len_cons, !len_app.
  destruct value as [|c v]; [rewrite (Hnil eq_refl); change (len []) with 0%Z|];
    try (pose proof (len_nonneg (c :: v))); lia.
Qed.

Lemma parseLine_ranges_roundtrip_witness :
  exists key value kr vr,
    pl_key (parseLine (lit " font-size =  14 ") 0) = Some key
    /\ pl_value (parseLine (lit " font-size =  14 ") 0) = Some value
    /\ pl_keyRange (parseLine (lit " font-size =  14 ") 0) = Some kr
    /\ pl_valueRange (parseLine (lit " font-size =  14 ") 0) = Some vr
    /\ substring (lit " font-size =  14 ") (r_start kr) (r_end kr) = key
    /\ trim (substring (lit " font-size =  14 ") (r_start vr) (r_end vr))
       = value
    /\ (value <> [] ->
        substring (lit " font-size =  14 ") (r_start vr) (r_end vr) = value)
    /\ (0 <= r_start kr < r_end kr)%Z
    /\ (r_end kr <= indexOf equalsSign (lit " font-size =  14 ")
        < r_start vr)%Z
    /\ (r_start vr <= len (lit " font-size =  14 "))%Z.
Proof.
  apply (parseLine_ranges_roundtrip (lit " font-size =  14 ") 0). reflexivity.
Defined.

Section PositionLookupFacts.

(** In a key/value record the key range ends at or before the first [=]
    and the value range starts after it. *)
Lemma keyValue_order (line : str) (n : Z) :
  pl_type (parseLine line n) = LKeyValue ->
  exists key value kr vr,
    pl_key (parseLine line n) = Some key
    /\ pl_value (parseLine line n) = Some value
    /\ pl_keyRange (parseLine line n) = Some kr
    /\ pl_valueRange (parseLine line n) = Some vr
    /\ key <> []
    /\ (0 < r_end kr <= indexOf equalsSign line)%Z
    /\ (indexOf equalsSign line < r_start vr)%Z.
Proof.
  intros H. apply keyValue_record in H
    as (indent & key & ws1 & ws2 & value & ws3 & Hshape & _).
  rewrite (parseLine_shape _ _ _ _ _ _ _ n Hshape).
  destruct Hshape as (-> & Hi & Hk & H1 & H2 & _ & H3).
  pose proof (shape_prefix_no_equals indent key ws1 Hi Hk H1) as Hpre.
  exists key, value. eexists _, _.
  cbn [pl_key pl_value pl_keyRange pl_valueRange].
  do 4 (split; [reflexivity|]).
  split; [intros ->; discriminate Hk|].
  replace (indent ++ key ++ ws1 ++ equalsSign :: ws2 ++ value ++ ws3)
    with ((indent ++ key ++ ws1) ++ equalsSign :: ws2 ++ value ++ ws3)
    by now rewrite <- !app_assoc.
  rewrite (indexOf_app _ _ _ Hpre). cbn [r_start r_end].
  rewrite !len_app.
  pose proof (len_nonneg indent). pose proof (len_nonneg ws1).
  pose proof (len_nonneg ws2). pose proof (len_nonneg ws3).
  assert (0 < len key)%Z.
  { destruct key; [discriminate|]. rewrite len_cons.
    pose proof (len_nonneg key). lia. }
  destruct value; lia.
Qed.

Lemma truthy_nonempty (s : str) : s <> [] -> truthy s = true.
Proof. destruct s; [congruence | reflexivity]. Qed.

End PositionLookupFacts.

(** X5.  The two position look-ups agree with the parser and with the
    position tests: a key is answered only for a cursor in key position and
    is the parsed key; a key/value pair is answered only for a cursor in
    value position and is the parsed key and value; and no position answers
    both. *)
Theorem position_lookups_consistent (document : TextDocument)
  (position : Position) :
  let line := document (pos_line position) in
  let parsed := parseLine line (pos_line position) in
  (forall key,
     getKeyAtPosition document position = Some key ->
     pl_key parsed = Some key
     /\ isInKeyPosition line (pos_character position) = true)
  /\ (forall key value,
        getValueAtPosition document position = Some (key, value) ->
        pl_key parsed = Some key /\ pl_value parsed = Some value
        /\ isInValuePosition line (pos_character position) = true)
  /\ (getKeyAtPosition document position = None
      \/ getValueAtPosition document position = None).
Proof.
  intros line parsed. unfold getKeyAtPosition, getValueAtPosition.
  fold line. fold parsed.
  destruct (pl_type parsed) eqn:Hty;
    try (repeat split; try discriminate; now left).
  destruct (keyValue_order line (pos_line position) Hty)
    as (key & value & kr & vr & Ek & Ev & Ekr & Evr & Hne & Hord & Hord').
  fold parsed in Ek, Ev, Ekr, Evr. rewrite Ek, Ev, Ekr, Evr.
  rewrite (truthy_nonempty key Hne).
  unfold isInKeyPosition, isInValuePosition.
  assert (Hidx : (indexOf equalsSign line =? -1)%Z = false).
  { apply Z.eqb_neq. lia. }
  rewrite Hidx. cbn [orb negb andb].
  destruct ((r_start kr <=? pos_character position)%Z
            && (pos_character position <=? r_end kr)%Z) eqn:Hk;
    destruct ((r_start vr <=? pos_character position)%Z
              && (pos_character position <=? r_end vr)%Z) eqn:Hv.
  - exfalso. apply andb_true_iff in Hk as [_ Hk], Hv as [Hv _].
    apply Z.leb_le in Hk, Hv. lia.
  - apply andb_true_iff in Hk as [_ Hk]. apply Z.leb_le in Hk.
    split; [|split; [discriminate | now right]].
    intros k E. inversion E; subst. split; [reflexivity|].
    apply Z.leb_le. lia.
  - apply andb_true_iff in Hv as [Hv _]. apply Z.leb_le in Hv.
    split; [discriminate|]. split; [|now left].
    intros k v E. inversion E; subst. split; [reflexivity|].
    split; [now destruct value|]. apply Z.gtb_lt. lia.
  - split; [discriminate|]. split; [discriminate | now left].
Qed.

Lemma position_lookups_consistent_witness :
  getKeyAtPosition (fun _ => lit "font-size = 12")
    {| pos_line := 0; pos_character := 3 |} = Some (lit "font-size")
  /\ isInKeyPosition (lit "font-size = 12") 3 = true.
Proof.
  assert (H : getKeyAtPosition (fun _ => lit "font-size = 12")
                {| pos_line := 0; pos_character := 3 |}
              = Some (lit "font-size")) by reflexivity.
  split; [exact H|].
  exact (proj2 (proj1 (position_lookups_consistent
                         (fun _ => lit "font-size = 12")
                         {| pos_line := 0; pos_character := 3 |})
                  (lit "font-size") H)).
Defined.

(** ** [validateValue]: the shape of its results *)

Section ResultFacts.

Lemma validateNumber_cases (value : str) (option : option ConfigOption) :
  validateNumber value option = valid
  \/ exists m, validateNumber value option = invalid m SevError.
Proof.
  unfold validateNumber.
  destruct (isNaN (parseFloat value)); cbn [firstReturn]; [eauto|].
  destruct option as [o|]; [|now left].
  destruct (opt_minimum o) as [mn|];
    [destruct (Num.ltb (parseFloat value) mn); [eauto|]|];
    (destruct (opt_maximum o) as [mx|];
     [destruct (Num.gtb (parseFloat value) mx); eauto | now left]).
Qed.

Lemma validateKeybind_cases (value : str) (schema : GhosttySchema) :
  validateKeybind value schema = valid
  \/ (exists m, validateKeybind value schema = invalid m SevError
                /\ (m = MsgKeybindFormat \/ m = MsgEmptyTrigger
                    \/ m = MsgEmptyAction))
  \/ (exists a, validateKeybind value schema
                = invalid (MsgUnknownAction a) SevWarning).
Proof.
  unfold validateKeybind.
  destruct (str_eqb value (lit "clear")); [now left|].
  destruct (indexOf equalsSign value =? -1)%Z;
    [right; left; eexists; split; [reflexivity | auto]|].
  destruct (str_eqb (trim (substring value 0 (indexOf equalsSign value))) []);
    [right; left; eexists; split; [reflexivity | auto]|].
  match goal with
  | |- context [if ?c then invalid MsgEmptyAction SevError else _] =>
      destruct c; [right; left; eexists; split; [reflexivity | auto]|]
  end.
  destruct (lookup (lit "keybind") (sch_types schema)) as [kt|]; [|now left].
  destruct (td_actions kt) as [actions|]; [|now left].
  destruct (_ && _); eauto.
Qed.

(** The results of the validators behind the type dispatch: valid, or an
    error, or the unknown-action warning of a keybind. *)
Lemma dispatch_cases (schema : GhosttySchema) (key value : str)
  (option : ConfigOption) :
  lookup key (sch_options schema) = Some option ->
  validateValue schema key value = valid
  \/ (exists m, validateValue schema key value = invalid m SevError)
  \/ (opt_type option = TKeybind
      /\ exists a, validateValue schema key value
                   = invalid (MsgUnknownAction a) SevWarning).
Proof.
  intros Hkey. unfold validateValue, getProperty. rewrite Hkey.
  destruct (str_eqb (trim value) []) eqn:Hblank; [now left|].
  destruct (opt_type option) eqn:Hty; try (now left).
  - destruct (validateNumber_cases value (Some option)) as [->|(m & ->)]; eauto.
  - unfold validateBoolean. destruct (member _ _); eauto.
  - unfold validateColor. destruct (_ || _); [now left|].
    destruct (member _ _); eauto.
  - unfold validateEnum. destruct (opt_enum option); [|now left].
    destruct (member _ _); eauto.
  - destruct (validateKeybind_cases value schema)
      as [->|[(m & -> & _)|(a & ->)]]; eauto 6.
  - unfold validatePath. rewrite Hblank.
    destruct (_ || _); now left.
  - unfold validatePercentage. destruct (isNaN _); eauto.
  - unfold validateDuration. destruct (matches _ _); eauto.
Qed.

(** A key without an entry of its own: the members every object inherits
    are found under their names, and any other key is unknown. *)
Lemma validateValue_not_own (schema : GhosttySchema) (key value : str) :
  lookup key (sch_options schema) = None ->
  validateValue schema key value
  = if member key objectPrototypeNames then valid
    else invalid (MsgUnknownKey key) SevWarning.
Proof.
  intros Hkey. unfold validateValue, getProperty. rewrite Hkey.
  destruct (member key objectPrototypeNames); [|reflexivity].
  now destruct (str_eqb (trim value) []).
Qed.

End ResultFacts.

(** X6.  The result of [validateValue] is always well formed: when
    [isValid] is true it carries neither message nor severity, and when
    [isValid] is false it carries both; the severity is [error] or
    [warning], never [info] or [hint]. *)
Theorem validateValue_result_shape (schema : GhosttySchema) (key value : str) :
  let r := validateValue schema key value in
  (isValid r = true -> message r = None /\ severity r = None)
  /\ (isValid r = false ->
      (exists m, message r = Some m)
      /\ (severity r = Some SevError \/ severity r = Some SevWarning)).
Proof.
  intros r. unfold r.
  destruct (lookup key (sch_options schema)) as [option|] eqn:Hkey.
  - destruct (dispatch_cases schema key value option Hkey)
      as [->|[(m & ->)|(_ & a & ->)]]; simpl;
      (split; [intros H | intros H]); try discriminate; eauto.
  - rewrite (validateValue_not_own schema key value Hkey).
    destruct (member key objectPrototypeNames); simpl;
      (split; [intros H | intros H]); try discriminate; eauto.
Qed.

Lemma validateValue_result_shape_witness :
  isValid (validateValue sampleSchema (lit "font-size") (lit "large")) = false
  /\ (exists m,
        message (validateValue sampleSchema (lit "font-size") (lit "large"))
        = Some m)
  /\ (severity (validateValue sampleSchema (lit "font-size") (lit "large"))
      = Some SevError
      \/ severity (validateValue sampleSchema (lit "font-size") (lit "large"))
         = Some SevWarning).
Proof.
  assert (H : isValid (validateValue sampleSchema (lit "font-size")
                         (lit "large")) = false) by reflexivity.
  split; [exact H|].
  exact (proj2 (validateValue_result_shape sampleSchema (lit "font-size")
                  (lit "large")) H).
Defined.

Section WarningFacts.

Lemma validateKeybind_warning (schema : GhosttySchema) (value : str) :
  severity (validateKeybind value schema) = Some SevWarning <->
  unknownActionValue schema value.
Proof.
  assert (Hsplit : forall trigger actionPart,
            ~ In equalsSign trigger ->
            (severity (validateKeybind (trigger ++ equalsSign :: actionPart)
                         schema) = Some SevWarning <->
             trim trigger <> [] /\ trim (actionNameOf actionPart) <> []
             /\ actionCandidates schema <> []
             /\ ~ In (actionNameOf actionPart) (actionCandidates schema))).
  { intros trigger actionPart Hpre.
    rewrite (validateKeybind_split schema trigger actionPart Hpre).
    unfold actionCandidates.
    destruct (str_eqb (trim trigger) []) eqn:Ht.
    - apply str_eqb_eq in Ht. simpl. split; [discriminate | tauto].
    - apply str_eqb_neq in Ht.
      destruct (str_eqb (trim (actionNameOf actionPart)) []) eqn:Ha.
      + apply str_eqb_eq in Ha. simpl. split; [discriminate | tauto].
      + apply str_eqb_neq in Ha.
        destruct (lookup (lit "keybind") (sch_types schema)) as [kt|];
          [|simpl; split; [discriminate | tauto]].
        destruct (td_actions kt) as [[|a actions]|];
          try (simpl; split; [discriminate | tauto]).
        destruct (member (actionNameOf actionPart) (a :: actions)) eqn:Hm.
        * apply member_In in Hm.
          cbn [List.length Z.of_nat Z.ltb andb negb]. simpl.
          split; [discriminate | tauto].
        * assert (Hn : ~ In (actionNameOf actionPart) (a :: actions)).
          { intros H. apply member_In in H. congruence. }
          cbn [List.length Z.of_nat Z.ltb andb negb]. simpl.
          split; [|reflexivity]. intros _.
          repeat split; auto. discriminate. }
  unfold unknownActionValue. split.
  - intros H.
    destruct (in_dec N.eq_dec equalsSign value) as [Hin|Hno].
    + apply indexOf_split in Hin as (trigger & actionPart & -> & Hpre & _).
      exists trigger, actionPart. apply Hsplit in H; tauto.
    + apply indexOf_absent in Hno. unfold validateKeybind in H.
      rewrite Hno in H.
      destruct (str_eqb value (lit "clear")); discriminate H.
  - intros (trigger & actionPart & -> & Hpre & H). now apply Hsplit.
Qed.

End WarningFacts.

(** X7.  [validateValue] answers with the severity [warning] in exactly
    two cases: the key is unknown, that is, [schema.options] has no entry
    of that name and no object inherits a member of that name; or the key
    is a keybind of the schema and the value names an action outside a
    declared, non-empty vocabulary.  An unknown key gets the unknown-key
    message whatever the value, and the name of an inherited member
    ([constructor], [toString] and the like) is accepted whatever the
    value.  Every finding that is not a warning is an error. *)
Theorem validateValue_warning_iff (schema : GhosttySchema) (key value : str) :
  let r := validateValue schema key value in
  (severity r = Some SevWarning <->
   (lookup key (sch_options schema) = None
    /\ ~ In key objectPrototypeNames)
   \/ (exists option,
         lookup key (sch_options schema) = Some option
         /\ opt_type option = TKeybind
         /\ unknownActionValue schema value))
  /\ (lookup key (sch_options schema) = None ->
      ~ In key objectPrototypeNames ->
      r = invalid (MsgUnknownKey key) SevWarning)
  /\ (lookup key (sch_options schema) = None ->
      In key objectPrototypeNames ->
      r = valid)
  /\ (isValid r = false -> severity r <> Some SevWarning ->
      severity r = Some SevError).
Proof.
  intros r. unfold r. clear r.
  destruct (lookup key (sch_options schema)) as [option|] eqn:Hkey.
  - split; [|split; [discriminate|split; [discriminate|]]].
    + split.
      * intros H. right. exists option. split; [reflexivity|].
        destruct (dispatch_cases schema key value option Hkey)
          as [E|[(m & E)|(Hty & a & E)]];
          try (rewrite E in H; discriminate H).
        split; [exact Hty|]. apply validateKeybind_warning.
        unfold validateValue, getProperty in H. rewrite Hkey, Hty in H.
        destruct (str_eqb (trim value) []); [discriminate H | exact H].
      * intros [[H _]|(o & Ho & Hty & H)]; [discriminate H|].
        inversion Ho; subst o.
        pose proof H as (trigger & actionPart & -> & _ & Ht & _).
        apply validateKeybind_warning in H.
        unfold validateValue, getProperty. rewrite Hkey, Hty.
        now rewrite (trim_prefix_nonempty trigger _ Ht).
    + destruct (dispatch_cases schema key value option Hkey)
        as [E|[(m & E)|(Hty & a & E)]]; rewrite E; simpl;
        intros H1 H2; try discriminate H1; try reflexivity.
      now contradiction H2.
  - rewrite (validateValue_not_own schema key value Hkey).
    destruct (member key objectPrototypeNames) eqn:Hm.
    + apply member_In in Hm.
      split; [|split; [|split]]; simpl.
      * split; [discriminate|].
        intros [[_ H]|(o & Ho & _)]; [contradiction | discriminate Ho].
      * intros _ H. contradiction.
      * reflexivity.
      * discriminate.
    + assert (Hn : ~ In key objectPrototypeNames).
      { intros H. apply member_In in H. congruence. }
      split; [|split; [|split]]; simpl.
      * split; [intros _; left; auto | reflexivity].
      * reflexivity.
      * intros _ H. contradiction.
      * intros _ H. now contradiction H.
Qed.

Lemma validateValue_warning_iff_witness :
  validateValue sampleSchema (lit "font-sise") (lit "12")
  = invalid (MsgUnknownKey (lit "font-sise")) SevWarning
  /\ validateValue sampleSchema (lit "constructor") (lit "12") = valid.
Proof.
  split.
  - apply (proj1 (proj2 (validateValue_warning_iff sampleSchema
                           (lit "font-sise") (lit "12")))).
    + reflexivity.
    + vm_compute. intuition discriminate.
  - apply (proj1 (proj2 (proj2 (validateValue_warning_iff sampleSchema
                                  (lit "constructor") (lit "12"))))).
    + reflexivity.
    + vm_compute. tauto.
Defined.

(** X8.  For a known key of type [string], [theme] or [path] every value
    is valid: through [validateValue] the empty-path error of
    [validatePath] cannot arise, since an empty value is accepted before
    the type is looked at. *)
Theorem validateValue_unconstrained_types (schema : GhosttySchema)
  (key value : str) (option : ConfigOption) :
  lookup key (sch_options schema) = Some option ->
  opt_type option = TString \/ opt_type option = TTheme
  \/ opt_type option = TPath ->
  validateValue schema key value = valid.
Proof.
  intros Hkey Hty. unfold validateValue, getProperty. rewrite Hkey.
  destruct (str_eqb (trim value) []) eqn:Hblank; [reflexivity|].
  destruct Hty as [->|[->| ->]]; try reflexivity.
  unfold validatePath. rewrite Hblank. now destruct (_ || _).
Qed.

Lemma validateValue_unconstrained_types_witness :
  validateValue smallSchema (lit "config-file") (lit "?themes/extra") = valid.
Proof.
  apply (validateValue_unconstrained_types smallSchema (lit "config-file")
           (lit "?themes/extra") (plainOption TPath)).
  - reflexivity.
  - right. right. reflexivity.
Defined.

(** ** The validators of the single types *)

(** X9.  For a known key of type [enum] that declares its list, a value
    is valid exactly when it is blank or is, character for character, one
    of the listed values; any other value is an error whose message
    carries the value and the whole list. *)
Theorem validateValue_enum_membership (schema : GhosttySchema)
  (key value : str) (option : ConfigOption) (allowed : list str) :
  lookup key (sch_options schema) = Some option ->
  opt_type option = TEnum ->
  opt_enum option = Some allowed ->
  (isValid (validateValue schema key value) = true <->
   trim value = [] \/ In value allowed)
  /\ (trim value <> [] -> ~ In value allowed ->
      validateValue schema key value
      = invalid (MsgInvalidEnum value allowed) SevError).
Proof.
  intros Hkey Hty Hen. unfold validateValue, getProperty. rewrite Hkey, Hty.
  unfold validateEnum. rewrite Hen.
  destruct (str_eqb (trim value) []) eqn:Hblank.
  - apply str_eqb_eq in Hblank. split; [tauto|]. congruence.
  - apply str_eqb_neq in Hblank.
    destruct (member value allowed) eqn:Hm.
    + apply member_In in Hm. split; [tauto|]. contradiction.
    + assert (Hn : ~ In value allowed).
      { intros H. apply member_In in H. congruence. }
      split; [|reflexivity]. simpl. split; [discriminate | tauto].
Qed.

Lemma validateValue_enum_membership_witness :
  validateValue smallSchema (lit "cursor-style") (lit "Block")
  = invalid (MsgInvalidEnum (lit "Block") [lit "block"; lit "bar"]) SevError.
Proof.
  apply (validateValue_enum_membership smallSchema (lit "cursor-style")
           (lit "Block") styleOption [lit "block"; lit "bar"]).
  - reflexivity.
  - reflexivity.
  - reflexivity.
  - discriminate.
  - vm_compute. intuition discriminate.
Defined.

Section BooleanFacts.

Lemma lowerUnit_ascii (c t : N) :
  asciiLower c = t -> (97 <= t <= 122)%N -> lowerUnit c = [t].
Proof.
  unfold asciiLower, lowerUnit. intros E Ht.
  destruct (N.leb 65 c && N.leb c 90)%N eqn:Hup; [now subst|].
  subst t.
  assert (H1 : (N.leb 192 c && N.leb c 222 && negb (N.eqb c 215))%N = false).
  { destruct (N.leb_spec 192 c); [|reflexivity].
    destruct (N.leb_spec c 222); [lia | reflexivity]. }
  rewrite H1.
  destruct (N.eqb_spec c 304); [lia|].
  destruct (N.eqb_spec c 376); [lia|].
  destruct (N.eqb_spec c 7838); [lia|].
  destruct (N.eqb_spec c 8490); [lia|].
  destruct (N.eqb_spec c 8491); [lia|]. reflexivity.
Qed.

Lemma toLowerCase_ascii (value token : str) :
  map asciiLower value = token ->
  forallb (fun t => N.leb 97 t && N.leb t 122)%N token = true ->
  toLowerCase value = token.
Proof.
  revert token. induction value as [|c value IH]; intros token E H.
  - now subst.
  - simpl in E. subst token. simpl in H.
    apply andb_true_iff in H as [Hc H].
    apply andb_true_iff in Hc as [H1 H2]. apply N.leb_le in H1, H2.
    unfold toLowerCase. simpl.
    rewrite (lowerUnit_ascii c _ eq_refl (conj H1 H2)). simpl. f_equal.
    now apply IH.
Qed.

Lemma lowerUnit_whitespace (c : N) :
  isWhitespace c = true -> lowerUnit c = [c].
Proof.
  unfold isWhitespace, isLineTerminator, lowerUnit.
  rewrite !orb_true_iff, !andb_true_iff, !N.eqb_eq, !N.leb_le. intros H.
  destruct (N.leb_spec 65 c); destruct (N.leb_spec c 90); simpl; try lia;
    (destruct (N.leb_spec 192 c); destruct (N.leb_spec c 222); simpl;
     try lia);
    (destruct (N.eqb_spec c 304); [lia|]);
      (destruct (N.eqb_spec c 376); [lia|]);
      (destruct (N.eqb_spec c 7838); [lia|]);
    (destruct (N.eqb_spec c 8490); [lia|]);
    (destruct (N.eqb_spec c 8491); [lia|]); reflexivity.
Qed.

Lemma toLowerCase_In (value : str) (c : N) :
  In c value -> lowerUnit c = [c] -> In c (toLowerCase value).
Proof.
  intros Hin Hc. unfold toLowerCase. apply in_flat_map.
  exists c. split; [assumption|]. rewrite Hc. now left.
Qed.

End BooleanFacts.

(** X10.  [validateBoolean] accepts the six words [true], [false], [yes],
    [no], [on] and [off] in every mix of capital and small letters, and
    rejects every value that holds a white-space character: a value is not
    trimmed before it is compared. *)
Theorem validateBoolean_casing (value : str) :
  (forall token, In token BOOLEAN_VALUES ->
     map asciiLower value = token -> validateBoolean value = valid)
  /\ ((exists c, In c value /\ isWhitespace c = true) ->
      validateBoolean value = invalid (MsgInvalidBoolean value) SevError).
Proof.
  unfold validateBoolean. split.
  - intros token Htok E.
    assert (Hlow : forallb (fun t => N.leb 97 t && N.leb t 122)%N token = true).
    { assert (Hall : forallb
                (forallb (fun t => N.leb 97 t && N.leb t 122)%N)
                BOOLEAN_VALUES = true) by (vm_compute; reflexivity).
      rewrite forallb_forall in Hall. now apply Hall. }
    rewrite (toLowerCase_ascii value token E Hlow).
    apply member_In in Htok. now rewrite Htok.
  - intros (c & Hin & Hc).
    destruct (member (toLowerCase value) BOOLEAN_VALUES) eqn:Hm;
      [|reflexivity].
    exfalso. apply member_In in Hm.
    pose proof (toLowerCase_In value c Hin (lowerUnit_whitespace c Hc)) as Hl.
    assert (Hall : forallb (forallb (fun t => negb (isWhitespace t)))
                     BOOLEAN_VALUES = true) by (vm_compute; reflexivity).
    rewrite forallb_forall in Hall. specialize (Hall _ Hm).
    rewrite forallb_forall in Hall. specialize (Hall _ Hl).
    rewrite Hc in Hall. discriminate.
Qed.

Lemma validateBoolean_casing_witness :
  validateBoolean (lit "TrUe") = valid
  /\ validateBoolean (lit "true ")
     = invalid (MsgInvalidBoolean (lit "true ")) SevError.
Proof.
  split.
  - apply (proj1 (validateBoolean_casing (lit "TrUe")) (lit "true")).
    + vm_compute. tauto.
    + reflexivity.
  - apply (proj2 (validateBoolean_casing (lit "true "))).
    exists 32%N. split; [vm_compute; tauto | reflexivity].
Defined.

Section DurationFacts.

Lemma Lang_Opt (r : re) (s : str) : Lang (Opt r) s <-> s = [] \/ Lang r s.
Proof. unfold Opt. rewrite Lang_Alt, Lang_Eps. tauto. Qed.

Lemma Lang_Plus_Cls (p : N -> bool) (s : str) :
  Lang (Plus (Cls p)) s <-> s <> [] /\ forallb p s = true.
Proof.
  unfold Plus. rewrite Lang_Seq. split.
  - intros (u & t & -> & Hu & Ht). apply Lang_Cls in Hu as (c & -> & Hc).
    apply Lang_Star_Cls in Ht. simpl. rewrite Hc, Ht.
    split; [discriminate | reflexivity].
  - intros [Hne H]. destruct s as [|c s]; [congruence|].
    simpl in H. apply andb_true_iff in H as [Hc Hs].
    exists [c], s. repeat split; [now constructor | now apply Lang_Star_Cls].
Qed.

Lemma Lang_Chr (c : N) (s : str) : Lang (Chr c) s <-> s = [c].
Proof.
  unfold Chr. rewrite Lang_Cls. split.
  - intros (x & -> & H). apply N.eqb_eq in H. now subst.
  - intros ->. exists c. split; [reflexivity | apply N.eqb_refl].
Qed.

Lemma Lang_Word (w s : str) : Lang (Word w) s <-> s = w.
Proof.
  revert s. induction w as [|c w IH]; intros s; simpl.
  - apply Lang_Eps.
  - rewrite Lang_Chr_Seq. split.
    + intros (t & -> & H). apply IH in H. now subst.
    + intros ->. exists w. split; [reflexivity | now apply IH].
Qed.

Lemma durationRegex_Lang (value : str) :
  Lang durationRegex value <-> isDurationText value.
Proof.
  unfold durationRegex, isDurationText, isDigits. split.
  - intros H.
    apply Lang_Seq in H as (sign & r1 & -> & Hsign & H).
    apply Lang_Seq in H as (whole & r2 & -> & Hwhole & H).
    apply Lang_Seq in H as (fraction & unit & -> & Hfrac & Hunit).
    exists sign, whole, fraction, unit. split; [reflexivity|].
    apply Lang_Opt in Hsign. rewrite Lang_Chr in Hsign.
    apply Lang_Plus_Cls in Hwhole.
    apply Lang_Opt in Hfrac. rewrite Lang_Chr_Seq in Hfrac.
    apply Lang_Opt in Hunit.
    repeat split; try tauto.
    + destruct Hfrac as [->|(ds & -> & Hds)]; [now left|].
      right. exists ds. apply Lang_Plus_Cls in Hds. tauto.
    + destruct Hunit as [->|Hunit]; [now left|]. right.
      rewrite !Lang_Alt, !Lang_Word in Hunit.
      unfold durationUnits. simpl. intuition auto.
  - intros (sign & whole & fraction & unit & -> & Hsign & Hwhole & Hfrac
            & Hunit).
    constructor; [apply Lang_Opt; rewrite Lang_Chr; tauto|].
    constructor; [now apply Lang_Plus_Cls|].
    constructor.
    + apply Lang_Opt. rewrite Lang_Chr_Seq.
      destruct Hfrac as [->|(ds & -> & Hds)]; [now left|].
      right. exists ds. split; [reflexivity | now apply Lang_Plus_Cls].
    + apply Lang_Opt. destruct Hunit as [->|Hunit]; [now left|]. right.
      rewrite !Lang_Alt, !Lang_Word.
      unfold durationUnits in Hunit. simpl in Hunit. intuition auto.
Qed.

End DurationFacts.

(** X11.  A duration is valid exactly when it reads as an optional [-],
    one or more digits, optionally a [.] with one or more digits, and
    optionally one of the units y, d, h, m, s, ms, us, µs, ns, with nothing
    before, between or after; every other value is an error. *)
Theorem validateDuration_text (value : str) :
  (isValid (validateDuration value) = true <-> isDurationText value)
  /\ (~ isDurationText value ->
      validateDuration value = invalid (MsgInvalidDuration value) SevError).
Proof.
  rewrite <- durationRegex_Lang, <- matches_Lang. unfold validateDuration.
  destruct (matches durationRegex value); simpl.
  - split; [tauto|]. intros H. exfalso. now apply H.
  - split; [|reflexivity]. split; discriminate.
Qed.

Lemma validateDuration_text_witness :
  ~ isDurationText (lit "5 ms")
  /\ validateDuration (lit "5 ms")
     = invalid (MsgInvalidDuration (lit "5 ms")) SevError.
Proof.
  assert (H : ~ isDurationText (lit "5 ms")).
  { intros H. apply (proj1 (validateDuration_text (lit "5 ms"))) in H.
    discriminate H. }
  split; [exact H|].
  exact (proj2 (validateDuration_text (lit "5 ms")) H).
Defined.

(** ** Which texts [parseFloat] reads as a number *)

Section ParseFloatFacts.

Lemma iter_pos_invariant (A : Type) (P : A -> Prop) (f : A -> A) :
  (forall x, P x -> P (f x)) ->
  forall p x, P x -> P (iter_pos f p x).
Proof.
  intros Hf. induction p as [p IH|p IH|]; intros x Hx; simpl; auto.
Qed.

Lemma shr_1_nonneg (mrs : shr_record) :
  (0 <= shr_m mrs)%Z -> (0 <= shr_m (shr_1 mrs))%Z.
Proof.
  destruct mrs as [m r s]. simpl.
  destruct m as [|[p|p|]|p]; simpl; lia.
Qed.

Lemma shr_nonneg (mrs : shr_record) (e n : Z) :
  (0 <= shr_m mrs)%Z -> (0 <= shr_m (fst (shr mrs e n)))%Z.
Proof.
  intros H. unfold shr. destruct n as [|p|p]; simpl; try assumption.
  now apply (iter_pos_invariant _ (fun x => 0 <= shr_m x)%Z shr_1 shr_1_nonneg).
Qed.

Lemma shr_record_of_loc_m (m : Z) (l : location) :
  shr_m (shr_record_of_loc m l) = m.
Proof. destruct l as [|[| |]]; reflexivity. Qed.

Lemma shr_fexp_nonneg (m e : Z) (l : location) :
  (0 <= m)%Z -> (0 <= shr_m (fst (shr_fexp prec emax m e l)))%Z.
Proof.
  intros H. unfold shr_fexp. apply shr_nonneg.
  now rewrite shr_record_of_loc_m.
Qed.

Lemma round_nearest_even_nonneg (m : Z) (l : location) :
  (0 <= m)%Z -> (0 <= round_nearest_even m l)%Z.
Proof.
  intros H. unfold round_nearest_even.
  destruct l as [|[| |]]; try assumption; [destruct (Z.even m)|]; lia.
Qed.

(** Rounding a mantissa that is not negative never answers NaN. *)
Lemma binary_round_aux_number (sx : bool) (mx ex : Z) (lx : location) :
  (0 <= mx)%Z -> isNaN (binary_round_aux prec emax sx mx ex lx) = false.
Proof.
  intros H. unfold binary_round_aux.
  pose proof (shr_fexp_nonneg mx ex lx H) as H1.
  destruct (shr_fexp prec emax mx ex lx) as [mrs' e'] eqn:E1. simpl in H1.
  pose proof (shr_fexp_nonneg
                (round_nearest_even (shr_m mrs') (loc_of_shr_record mrs'))
                e' loc_Exact
                (round_nearest_even_nonneg _ _ H1)) as H2.
  destruct (shr_fexp prec emax _ e' loc_Exact) as [mrs'' e''] eqn:E2.
  simpl in H2.
  destruct (shr_m mrs'') as [|p|p]; try reflexivity.
  - now destruct (e'' <=? emax - prec)%Z.
  - lia.
Qed.

Lemma binary_normalize_number (m e : Z) (szero : bool) :
  isNaN (binary_normalize prec emax m e szero) = false.
Proof.
  unfold binary_normalize, binary_round.
  destruct m as [|p|p]; [reflexivity| |];
    destruct (shl_align _ _ _) as [mz ez];
    apply binary_round_aux_number; lia.
Qed.

Lemma decimalToNumber_number (neg : bool) (m e : Z) :
  (0 <= m)%Z -> isNaN (decimalToNumber neg m e) = false.
Proof.
  intros H. unfold decimalToNumber.
  destruct m as [|p|p]; [reflexivity| |lia].
  destruct (Z.leb_spec 0 e) as [He|He]; [apply binary_normalize_number|].
  unfold SFdiv_core_binary.
  match goal with
  | |- context [Z.div_eucl ?a ?b] =>
      assert (Ha : (0 <= a)%Z);
      [|assert (Hb : (0 < b)%Z);
        [|pose proof (Z.div_pos a b Ha Hb) as Hq; unfold Z.div in Hq;
          destruct (Z.div_eucl a b) as [q r]; simpl in Hq;
          now apply binary_round_aux_number]]
  end.
  - match goal with
    | |- (0 <= match ?s with _ => _ end)%Z => destruct s
    end; try lia.
    apply Z.shiftl_nonneg. lia.
  - apply Z.pow_pos_nonneg; lia.
Qed.

Lemma digitsValue_nonneg (ds : str) :
  forallb isDigit ds = true -> (0 <= digitsValue ds)%Z.
Proof.
  unfold digitsValue. intros H.
  assert (G : forall acc, (0 <= acc)%Z ->
              (0 <= fold_left (fun a c => a * 10 + (Z.of_N c - 48)) ds acc)%Z);
    [|apply G; lia].
  induction ds as [|c ds IH]; intros acc Hacc; simpl; [assumption|].
  simpl in H. apply andb_true_iff in H as [Hc Hds].
  apply IH; [assumption|].
  unfold isDigit in Hc. apply andb_true_iff in Hc as [Hc _].
  apply N.leb_le in Hc. lia.
Qed.

Lemma takeWhile_forallb (p : N -> bool) (s : str) :
  forallb p (takeWhile p s) = true.
Proof.
  induction s as [|c s IH]; simpl; [reflexivity|].
  destruct (p c) eqn:E; simpl; [now rewrite E|reflexivity].
Qed.

Lemma readSign_stripSign (s : str) : snd (readSign s) = stripSign s.
Proof.
  destruct s as [|c r]; [reflexivity|]. unfold readSign, stripSign.
  destruct c as [|p]; [reflexivity|].
  do 6 (destruct p as [p|p|]; try reflexivity).
Qed.

Lemma fractionOf_eq (r1 : str) :
  match r1 with
  | 46%N :: r => (takeWhile isDigit r, dropWhile isDigit r)
  | _ => ([], r1)
  end = fractionOf r1.
Proof.
  destruct r1 as [|c r]; [reflexivity|]. unfold fractionOf.
  destruct c as [|p]; [reflexivity|].
  do 6 (destruct p as [p|p|]; try reflexivity).
Qed.

Lemma fractionOf_digits (r1 : str) :
  forallb isDigit (fst (fractionOf r1)) = true.
Proof.
  destruct r1 as [|c r]; [reflexivity|]. unfold fractionOf.
  destruct (N.eqb c 46); [apply takeWhile_forallb | reflexivity].
Qed.

Lemma digits_empty_iff (s1 : str) :
  takeWhile isDigit s1 ++ fst (fractionOf (dropWhile isDigit s1)) = []
  <-> startsNumber s1 = false.
Proof.
  destruct s1 as [|c r]; [simpl; tauto|].
  cbn [takeWhile dropWhile startsNumber].
  destruct (isDigit c) eqn:Hc.
  - simpl. split; discriminate.
  - cbn [app fractionOf orb]. destruct (N.eqb c 46); [|simpl; tauto].
    cbn [fst andb]. destruct r as [|d r']; [simpl; tauto|].
    cbn [takeWhile]. destruct (isDigit d); [split; discriminate | tauto].
Qed.

(** [parseFloat] answers NaN exactly for the texts without a numeric
    prefix. *)
Lemma parseFloat_NaN (value : str) :
  isNaN (parseFloat value) = negb (hasNumericPrefix value).
Proof.
  unfold parseFloat, hasNumericPrefix.
  rewrite <- readSign_stripSign.
  destruct (readSign (trimStart value)) as [neg s1]. simpl snd.
  destruct (startsWith s1 (lit "Infinity")); [reflexivity|]. simpl orb.
  rewrite fractionOf_eq.
  pose proof (digits_empty_iff s1) as Hiff.
  pose proof (fractionOf_digits (dropWhile isDigit s1)) as Hfp.
  destruct (fractionOf (dropWhile isDigit s1)) as [fp r2]. simpl fst in *.
  destruct (takeWhile isDigit s1 ++ fp) as [|d ds] eqn:E.
  - now rewrite (proj1 Hiff eq_refl).
  - destruct (startsNumber s1).
    + apply decimalToNumber_number, digitsValue_nonneg.
      rewrite <- E, forallb_app, takeWhile_forallb. exact Hfp.
    + destruct Hiff as [_ Hiff]. discriminate (Hiff eq_refl).
Qed.

End ParseFloatFacts.

Section NumericPrefixFacts.

Lemma startsWith_app (s p junk : str) :
  startsWith s p = true -> startsWith (s ++ junk) p = true.
Proof.
  intros H. apply startsWith_spec in H as (b & ->).
  apply startsWith_spec. exists (b ++ junk). now rewrite app_assoc.
Qed.

Lemma startsNumber_app (s junk : str) :
  startsNumber s = true -> startsNumber (s ++ junk) = true.
Proof.
  destruct s as [|c [|d r]]; simpl; try discriminate; try tauto.
  rewrite andb_false_r, orb_false_r. now intros ->.
Qed.

Lemma hasNumericPrefix_app (value junk : str) :
  hasNumericPrefix value = true -> hasNumericPrefix (value ++ junk) = true.
Proof.
  unfold hasNumericPrefix, trimStart. intros H.
  destruct (dropWhile isWhitespace value) as [|c r] eqn:E;
    [discriminate H|].
  rewrite dropWhile_app_keep, E by congruence.
  assert (Hs : stripSign ((c :: r) ++ junk) = stripSign (c :: r) ++ junk).
  { simpl. now destruct (N.eqb c 45 || N.eqb c 43)%N. }
  rewrite Hs. apply orb_true_iff in H as [H|H]; apply orb_true_iff.
  - left. now apply startsWith_app.
  - right. now apply startsNumber_app.
Qed.

End NumericPrefixFacts.

(** X12.  [validateNumber] accepts a value exactly when, after its leading
    white space and an optional sign, it starts with a digit, with a [.]
    followed by a digit, or with [Infinity]; what follows that start is not
    looked at, so an accepted value stays accepted whatever text is
    appended to it.  Any other value is reported as an invalid number,
    whatever the option. *)
Theorem validateNumber_numeric_prefix (value : str) :
  isValid (validateNumber value None) = hasNumericPrefix value
  /\ (hasNumericPrefix value = true ->
      forall junk, validateNumber (value ++ junk) None = valid)
  /\ (hasNumericPrefix value = false ->
      forall option,
        validateNumber value option
        = invalid (MsgInvalidNumber value) SevError).
Proof.
  assert (Hnone : forall v, validateNumber v None
                  = if hasNumericPrefix v then valid
                    else invalid (MsgInvalidNumber v) SevError).
  { intros v. unfold validateNumber. rewrite parseFloat_NaN.
    now destruct (hasNumericPrefix v). }
  split; [|split].
  - rewrite Hnone. now destruct (hasNumericPrefix value).
  - intros H junk. rewrite Hnone. now rewrite (hasNumericPrefix_app _ junk H).
  - intros H option. unfold validateNumber. rewrite parseFloat_NaN, H.
    reflexivity.
Qed.

Lemma validateNumber_numeric_prefix_witness :
  validateNumber (lit " -.5" ++ lit "px") None = valid
  /\ validateNumber (lit "px12") (Some fontSizeOption)
     = invalid (MsgInvalidNumber (lit "px12")) SevError.
Proof.
  split.
  - apply (proj1 (proj2 (validateNumber_numeric_prefix (lit " -.5")))).
    reflexivity.
  - apply (proj2 (proj2 (validateNumber_numeric_prefix (lit "px12")))).
    reflexivity.
Defined.

(** X13.  A percentage is a number with at most one [%] after it:
    [validatePercentage] accepts a value exactly when the value, without
    one trailing [%], has a numeric prefix; so a value followed by [%] is
    accepted exactly when [validateNumber] accepts the value itself. *)
Theorem validatePercentage_number (value : str) :
  isValid (validatePercentage value)
  = hasNumericPrefix
      (if endsWithChar value percent then removelast value else value)
  /\ isValid (validatePercentage (value ++ [percent]))
     = isValid (validateNumber value None).
Proof.
  assert (H : forall v, isValid (validatePercentage v)
              = hasNumericPrefix
                  (if endsWithChar v percent then removelast v else v)).
  { intros v. unfold validatePercentage, sliceDropLast.
    rewrite parseFloat_NaN. now destruct (hasNumericPrefix _). }
  split; [apply H|].
  rewrite H.
  assert (E : endsWithChar (value ++ [percent]) percent = true).
  { unfold endsWithChar. rewrite rev_app_distr. apply N.eqb_refl. }
  rewrite E, removelast_last.
  unfold validateNumber. rewrite parseFloat_NaN.
  now destruct (hasNumericPrefix value).
Qed.

(** X14.  A keybind is valid exactly when it is the word [clear], or it
    splits at its first [=] into a trigger and an action part such that the
    trigger and the action name are not blank and the action name, as
    written, belongs to the schema's action vocabulary when the schema
    declares a non-empty one.  What follows the first [:] of the action
    part plays no role. *)
Theorem validateKeybind_valid_iff (schema : GhosttySchema) (value : str) :
  isValid (validateKeybind value schema) = true <->
  value = lit "clear"
  \/ exists trigger actionPart,
       value = trigger ++ equalsSign :: actionPart
       /\ ~ In equalsSign trigger
       /\ trim trigger <> []
       /\ trim (actionNameOf actionPart) <> []
       /\ (actionCandidates schema = []
           \/ In (actionNameOf actionPart) (actionCandidates schema)).
Proof.
  assert (Hsplit : forall trigger actionPart,
            ~ In equalsSign trigger ->
            (isValid (validateKeybind (trigger ++ equalsSign :: actionPart)
                        schema) = true <->
             trim trigger <> [] /\ trim (actionNameOf actionPart) <> []
             /\ (actionCandidates schema = []
                 \/ In (actionNameOf actionPart) (actionCandidates schema)))).
  { intros trigger actionPart Hpre.
    rewrite (validateKeybind_split schema trigger actionPart Hpre).
    unfold actionCandidates.
    destruct (str_eqb (trim trigger) []) eqn:Ht.
    - apply str_eqb_eq in Ht. simpl. split; [discriminate | tauto].
    - apply str_eqb_neq in Ht.
      destruct (str_eqb (trim (actionNameOf actionPart)) []) eqn:Ha.
      + apply str_eqb_eq in Ha. simpl. split; [discriminate | tauto].
      + apply str_eqb_neq in Ha.
        destruct (lookup (lit "keybind") (sch_types schema)) as [kt|];
          [|simpl; tauto].
        destruct (td_actions kt) as [[|a actions]|]; try (simpl; tauto).
        destruct (member (actionNameOf actionPart) (a :: actions)) eqn:Hm.
        * apply member_In in Hm. simpl. tauto.
        * assert (Hn : ~ In (actionNameOf actionPart) (a :: actions)).
          { intros H. apply member_In in H. congruence. }
          cbn [List.length Z.of_nat Z.ltb andb negb]. simpl.
          split; [discriminate|].
          intros (_ & _ & [H|H]); [discriminate | contradiction]. }
  split.
  - intros H.
    destruct (str_eqb value (lit "clear")) eqn:Hc;
      [left; now apply str_eqb_eq|]. right.
    destruct (in_dec N.eq_dec equalsSign value) as [Hin|Hno].
    + apply indexOf_split in Hin as (trigger & actionPart & -> & Hpre & _).
      exists trigger, actionPart. apply Hsplit in H; tauto.
    + apply indexOf_absent in Hno. unfold validateKeybind in H.
      rewrite Hc, Hno in H. discriminate H.
  - intros [->|(trigger & actionPart & -> & Hpre & H)]; [reflexivity|].
    now apply Hsplit.
Qed.

Lemma validateKeybind_valid_iff_witness :
  isValid (validateKeybind (lit "ctrl+c=copy_to_clipboard:mixed") sampleSchema)
  = true.
Proof.
  apply (proj2 (validateKeybind_valid_iff sampleSchema
                  (lit "ctrl+c=copy_to_clipboard:mixed"))).
  right. exists (lit "ctrl+c"), (lit "copy_to_clipboard:mixed").
  split; [reflexivity|].
  split; [vm_compute; intuition discriminate|].
  split; [discriminate|]. split; [discriminate|].
  right. vm_compute. tauto.
Defined.

(** ** [provideCompletionItems] *)

Section ProvideFacts.

Lemma substring_from_start (s : str) (c : Z) :
  substring s 0 c = firstn (clamp s c) s.
Proof.
  unfold substring.
  replace (clamp s 0) with 0%nat
    by (unfold clamp; pose proof (len_nonneg s); lia).
  now rewrite Nat.min_0_l, Nat.max_0_l, Nat.sub_0_r.
Qed.

Lemma clamp_app_ge (a b : str) (c : Z) :
  (len a <= c)%Z -> (List.length a <= clamp (a ++ b) c)%nat.
Proof.
  intros H. unfold clamp. rewrite len_app. unfold len in *.
  pose proof (len_nonneg b). unfold len in *. lia.
Qed.

Lemma clamp_app_le (a b : str) (c : Z) :
  (c <= len a)%Z -> (clamp (a ++ b) c <= List.length a)%nat.
Proof.
  intros H. unfold clamp. rewrite len_app. unfold len in *. lia.
Qed.

(** The text before a cursor that is beyond [a] starts with [a]. *)
Lemma text_before_beyond (a b : str) (c : Z) :
  (len a <= c)%Z -> exists b', substring (a ++ b) 0 c = a ++ b'.
Proof.
  intros H. rewrite substring_from_start, firstn_app.
  rewrite firstn_all2 by now apply clamp_app_ge. eauto.
Qed.

(** The text before a cursor that is within [a] is a part of [a]. *)
Lemma text_before_within (a b : str) (c : Z) :
  (c <= len a)%Z ->
  substring (a ++ b) 0 c = firstn (clamp (a ++ b) c) a.
Proof.
  intros H. rewrite substring_from_start, firstn_app.
  replace (clamp (a ++ b) c - List.length a)%nat with 0%nat
    by (pose proof (clamp_app_le a b c H); lia).
  simpl. apply app_nil_r.
Qed.

Lemma trimEnd_cons (c : N) (r : str) :
  isWhitespace c = false -> exists r', trimEnd (c :: r) = c :: r'.
Proof.
  intros Hc. unfold trimEnd. simpl rev.
  destruct (dropWhile isWhitespace (rev r)) as [|y u] eqn:Eu.
  - apply dropWhile_nil_iff in Eu.
    rewrite dropWhile_app_all by assumption. simpl. rewrite Hc.
    exists []. reflexivity.
  - rewrite dropWhile_app_keep by congruence. rewrite Eu.
    rewrite rev_app_distr. simpl. eauto.
Qed.

(** The trimmed text begins with the first character that is not white
    space. *)
Lemma trim_first (w : str) (c : N) (r : str) :
  forallb isWhitespace w = true -> isWhitespace c = false ->
  exists r', trim (w ++ c :: r) = c :: r'.
Proof.
  intros Hw Hc. unfold trim, trimStart.
  destruct (takeWhile_app_stop isWhitespace w (c :: r) Hw Hc) as [_ ->].
  now apply trimEnd_cons.
Qed.

Lemma forallb_firstn (p : N -> bool) (n : nat) (s : str) :
  forallb p s = true -> forallb p (firstn n s) = true.
Proof.
  revert n. induction s as [|c s IH]; intros [|n]; simpl; auto.
  intros H. apply andb_true_iff in H as [-> H]. simpl. auto.
Qed.

(** In a line of the key/value shape a cursor beyond the [=] gets the
    value completions of the parsed key. *)
Lemma provide_after_equals (schema : GhosttySchema)
  (line indent key ws1 ws2 value ws3 : str) (n character : Z) :
  keyValueShape line indent key ws1 ws2 value ws3 ->
  (len (indent ++ key ++ ws1) < character)%Z ->
  provideCompletionItems schema line n character
  = getValueCompletions schema key (substring line 0 character).
Proof.
  intros Hshape Hc. unfold provideCompletionItems.
  rewrite (parseLine_shape _ _ _ _ _ _ _ n Hshape). cbn [pl_key].
  destruct Hshape as (-> & Hi & Hk & H1 & H2 & _ & H3).
  pose proof (shape_prefix_no_equals indent key ws1 Hi Hk H1) as Hpre.
  assert (Hidx : indexOf equalsSign
                   (indent ++ key ++ ws1 ++ equalsSign :: ws2 ++ value ++ ws3)
                 = len (indent ++ key ++ ws1)).
  { replace (indent ++ key ++ ws1 ++ equalsSign :: ws2 ++ value ++ ws3)
      with ((indent ++ key ++ ws1) ++ equalsSign :: ws2 ++ value ++ ws3)
      by now rewrite <- !app_assoc.
    apply (indexOf_app _ _ _ Hpre). }
  assert (Hcomment :
    startsWith
      (trim (substring
               (indent ++ key ++ ws1 ++ equalsSign :: ws2 ++ value ++ ws3)
               0 character)) (lit "#") = false).
  { destruct key as [|k krest]; [discriminate Hk|].
    destruct (text_before_beyond (indent ++ [k])
                (krest ++ ws1 ++ equalsSign :: ws2 ++ value ++ ws3) character)
      as (b' & E).
    { rewrite !len_app, len_cons in Hc. rewrite len_app.
      change (len [k]) with 1%Z.
      pose proof (len_nonneg krest). pose proof (len_nonneg ws1). lia. }
    rewrite <- !app_assoc in E. cbn [app] in E |- *. rewrite E.
    simpl in Hk. apply andb_true_iff in Hk as [Hk _].
    destruct (trim_first indent k b' Hi) as (r' & ->).
    { now apply isKeyChar_not_whitespace, isAlpha_isKeyChar. }
    change (lit "#") with [hash]. cbn [startsWith].
    destruct (N.eqb_spec k hash) as [->|_]; [discriminate Hk | reflexivity]. }
  rewrite Hcomment. unfold isInKeyPosition, isInValuePosition.
  rewrite Hidx.
  destruct (Z.eqb_spec (len (indent ++ key ++ ws1)) (-1)) as [E|_];
    [pose proof (len_nonneg (indent ++ key ++ ws1)); lia|].
  destruct (Z.leb_spec character (len (indent ++ key ++ ws1))); [lia|].
  destruct (Z.gtb_spec character (len (indent ++ key ++ ws1))); [|lia].
  cbn [orb andb negb].
  rewrite truthy_nonempty by (intros ->; discriminate Hk). reflexivity.
Qed.

End ProvideFacts.

(** X15.  On a key/value line, a cursor anywhere after the first [=]
    gets the value completions of the parsed key, computed from the text
    before the cursor: neither the comment test nor the key position
    applies there. *)
Theorem provideCompletionItems_value_position (schema : GhosttySchema)
  (line key : str) (n character : Z) :
  pl_type (parseLine line n) = LKeyValue ->
  pl_key (parseLine line n) = Some key ->
  (indexOf equalsSign line < character)%Z ->
  provideCompletionItems schema line n character
  = getValueCompletions schema key (substring line 0 character).
Proof.
  intros Hty Hkey Hc.
  apply keyValue_record in Hty
    as (indent & key' & ws1 & ws2 & value & ws3 & Hshape & _).
  rewrite (parseLine_shape _ _ _ _ _ _ _ n Hshape) in Hkey.
  inversion Hkey; subst key'.
  apply (provide_after_equals schema line indent key ws1 ws2 value ws3);
    [assumption|].
  destruct Hshape as (-> & Hi & Hk & H1 & _).
  pose proof (shape_prefix_no_equals indent key ws1 Hi Hk H1) as Hpre.
  replace (indent ++ key ++ ws1 ++ equalsSign :: ws2 ++ value ++ ws3)
    with ((indent ++ key ++ ws1) ++ equalsSign :: ws2 ++ value ++ ws3)
    in Hc by now rewrite <- !app_assoc.
  now rewrite (indexOf_app _ _ _ Hpre) in Hc.
Qed.

Lemma provideCompletionItems_value_position_witness :
  provideCompletionItems sampleSchema (lit "bold-is-bright = f") 3 18
  = getValueCompletions sampleSchema (lit "bold-is-bright")
      (substring (lit "bold-is-bright = f") 0 18).
Proof.
  apply (provideCompletionItems_value_position sampleSchema
           (lit "bold-is-bright = f") (lit "bold-is-bright") 3 18).
  - reflexivity.
  - reflexivity.
  - vm_compute. reflexivity.
Defined.

Section CommentLineFacts.

Lemma indexOf_beyond (c : N) (pre post : str) :
  ~ In c pre ->
  (indexOf c (pre ++ post) = -1 \/ len pre <= indexOf c (pre ++ post))%Z.
Proof.
  intros Hpre.
  destruct (in_dec N.eq_dec c post) as [Hin|Hno].
  - right. apply indexOf_split in Hin as (a & b & -> & Ha & _).
    rewrite app_assoc, indexOf_app.
    + rewrite len_app. pose proof (len_nonneg a). lia.
    + intros H. apply in_app_or in H. tauto.
  - left. apply indexOf_absent. intros H. apply in_app_or in H. tauto.
Qed.

Lemma blank_prefix_labels (schema : GhosttySchema) (text : str) :
  forallb isWhitespace text = true ->
  map label (getKeyCompletions schema text) = map fst (sch_options schema).
Proof.
  intros H. rewrite getKeyCompletions_map, map_map. simpl.
  rewrite (map_fst_filter ConfigOption (keyMatches text)).
  apply filter_all. intros key. unfold keyMatches.
  apply trim_empty_iff, str_eqb_eq in H. rewrite H. apply includes_nil.
Qed.

End CommentLineFacts.

(** X16.  On a comment line nothing is offered once the cursor is past
    the [#]; the test looks at the text before the cursor only, so with the
    cursor at or before the [#] every key of the schema is offered. *)
Theorem provideCompletionItems_comment_line (schema : GhosttySchema)
  (w rest : str) (n character : Z) :
  forallb isWhitespace w = true ->
  (len w < character ->
   provideCompletionItems schema (w ++ hash :: rest) n character = [])%Z
  /\ (character <= len w ->
      map label (provideCompletionItems schema (w ++ hash :: rest) n character)
      = map fst (sch_options schema))%Z.
Proof.
  intros Hw. unfold provideCompletionItems. cbv zeta. split; intros Hc.
  - destruct (text_before_beyond (w ++ [hash]) rest character) as (b' & E).
    { rewrite len_app. change (len [hash]) with 1%Z. lia. }
    rewrite <- !app_assoc in E. cbn [app] in E. rewrite E.
    destruct (trim_first w hash b' Hw eq_refl) as (r' & ->).
    reflexivity.
  - rewrite (text_before_within w (hash :: rest) character Hc).
    set (before := firstn (clamp (w ++ hash :: rest) character) w).
    assert (Hb : forallb isWhitespace before = true)
      by now apply forallb_firstn.
    pose proof Hb as Hb'. apply trim_empty_iff, str_eqb_eq in Hb'.
    rewrite Hb'. cbn [startsWith lit].
    change (startsWith [] (lit "#")) with false. cbv iota.
    assert (Hkey : isInKeyPosition (w ++ hash :: rest) character = true).
    { unfold isInKeyPosition.
      destruct (indexOf_beyond equalsSign w (hash :: rest)) as [->|H].
      - now apply forallb_In_false with (p := isWhitespace).
      - reflexivity.
      - apply orb_true_iff. right. apply Z.leb_le. lia. }
    rewrite Hkey. now apply blank_prefix_labels.
Qed.

Lemma provideCompletionItems_comment_line_witness :
  provideCompletionItems sampleSchema (lit "  # font-size = 1") 0 9 = []
  /\ map label (provideCompletionItems sampleSchema
                  (lit "  # font-size = 1") 0 2)
     = map fst (sch_options sampleSchema).
Proof.
  split.
  - apply (proj1 (provideCompletionItems_comment_line sampleSchema
                    (lit "  ") (lit " font-size = 1") 0 9 eq_refl)).
    reflexivity.
  - apply (proj2 (provideCompletionItems_comment_line sampleSchema
                    (lit "  ") (lit " font-size = 1") 0 2 eq_refl)).
    vm_compute. discriminate.
Defined.

Section AcceptedKeyFacts.

Lemma substring_whole (s : str) : substring s 0 (len s) = s.
Proof.
  rewrite substring_from_start.
  replace (clamp s (len s)) with (List.length s) by (unfold clamp, len; lia).
  apply firstn_all.
Qed.

Lemma inserted_shape (key : str) :
  isKey key = true ->
  keyValueShape (key ++ lit " = ") [] key (lit " ") (lit " ") [] [].
Proof.
  intros Hk. unfold keyValueShape, isTrimmedValue.
  repeat split; try reflexivity. exact Hk.
Qed.

Lemma inserted_partial (key : str) :
  isKey key = true -> partialValueOf (key ++ lit " = ") = [].
Proof.
  intros Hk. unfold partialValueOf.
  pose proof (shape_prefix_no_equals [] key (lit " ") eq_refl Hk eq_refl)
    as Hpre.
  cbn [app] in Hpre.
  replace (key ++ lit " = ") with ((key ++ lit " ") ++ equalsSign :: lit " ")
    by (rewrite <- app_assoc; reflexivity).
  rewrite (indexOf_app _ _ _ Hpre), substringFrom_after.
  destruct (Z.eqb_spec (len (key ++ lit " ")) (-1)) as [E|_];
    [pose proof (len_nonneg (key ++ lit " ")); lia | reflexivity].
Qed.

End AcceptedKeyFacts.

(** X17.  Accepting a key completion leads on to the values of that key:
    the inserted text of an offered key is the key followed by [ = ]; it
    parses as a key/value line with that key and an empty value; and with
    the cursor at its end, completion offers the whole, unfiltered
    candidate list of the key. *)
Theorem accepted_key_completion (schema : GhosttySchema)
  (partialText : str) (item : CompletionItem) (n : Z) :
  schema_wf schema ->
  In item (getKeyCompletions schema partialText) ->
  isKey (label item) = true ->
  exists option,
    lookup (label item) (sch_options schema) = Some option
    /\ insertText item = Some (label item ++ lit " = ")
    /\ pl_key (parseLine (label item ++ lit " = ") n) = Some (label item)
    /\ pl_value (parseLine (label item ++ lit " = ") n) = Some []
    /\ map label
         (provideCompletionItems schema (label item ++ lit " = ") n
            (len (label item ++ lit " = ")))
       = candidates option.
Proof.
  intros Hwf Hitem Hk.
  rewrite getKeyCompletions_map in Hitem.
  apply in_map_iff in Hitem as ([key option] & <- & Hin).
  apply filter_In in Hin as [Hin _]. cbn [fst snd keyItem label] in *.
  exists option.
  pose proof (lookup_In ConfigOption _ _ _ Hwf Hin) as Hlookup.
  pose proof (inserted_shape key Hk) as Hshape.
  split; [assumption|]. split; [reflexivity|].
  rewrite (parseLine_shape _ _ _ _ _ _ _ n Hshape). cbn [pl_key pl_value].
  split; [reflexivity|]. split; [reflexivity|].
  rewrite (provide_after_equals schema _ _ _ _ _ _ _ n _ Hshape).
  - rewrite substring_whole. unfold getValueCompletions, getProperty.
    rewrite Hlookup, completeByType_labels, (inserted_partial key Hk).
    apply filteredValueLabels_empty.
  - cbn [app]. rewrite !len_app.
    change (len (lit " = ")) with 3%Z. change (len (lit " ")) with 1%Z. lia.
Qed.

Lemma accepted_key_completion_witness :
  exists option,
    lookup (lit "background") (sch_options sampleSchema) = Some option
    /\ insertText (keyItem (lit "background") (plainOption TColor))
       = Some (lit "background" ++ lit " = ")
    /\ pl_key (parseLine (lit "background" ++ lit " = ") 4)
       = Some (lit "background")
    /\ pl_value (parseLine (lit "background" ++ lit " = ") 4) = Some []
    /\ map label
         (provideCompletionItems sampleSchema (lit "background" ++ lit " = ") 4
            (len (lit "background" ++ lit " = ")))
       = candidates option.
Proof.
  apply (accepted_key_completion sampleSchema (lit "back")
           (keyItem (lit "background") (plainOption TColor)) 4).
  - unfold schema_wf. vm_compute.
    repeat (constructor; [simpl; intuition discriminate|]). constructor.
  - vm_compute. tauto.
  - reflexivity.
Defined.

Section OfferedValueFacts.

Lemma namedColors_valid (c : str) :
  In c namedColors -> validateColor c = valid.
Proof.
  intros H. vm_compute in H.
  repeat (destruct H as [<-|H]; [vm_compute; reflexivity|]). contradiction.
Qed.

Lemma booleanCandidates_valid (v : str) :
  In v booleanCandidates -> validateBoolean v = valid.
Proof.
  intros H. vm_compute in H.
  repeat (destruct H as [<-|H]; [vm_compute; reflexivity|]). contradiction.
Qed.

End OfferedValueFacts.

(** X18.  What value completion offers for a boolean key, for an enum
    key and, the hex placeholder [#RRGGBB] apart, for a colour key is
    accepted by [validateValue] for that key. *)
Theorem offered_values_validate (schema : GhosttySchema)
  (key textBeforeCursor offered : str) (option : ConfigOption) :
  lookup key (sch_options schema) = Some option ->
  opt_type option = TBoolean \/ opt_type option = TEnum
  \/ (opt_type option = TColor /\ offered <> lit "#RRGGBB") ->
  In offered (map label (getValueCompletions schema key textBeforeCursor)) ->
  validateValue schema key offered = valid.
Proof.
  intros Hkey Hty Hin. unfold getValueCompletions, getProperty in Hin.
  rewrite Hkey, completeByType_labels in Hin.
  unfold filteredValueLabels in Hin. unfold validateValue, getProperty. rewrite Hkey.
  destruct (str_eqb (trim offered) []); [reflexivity|].
  destruct Hty as [Hty|[Hty|[Hty Hne]]]; rewrite Hty in Hin |- *.
  - apply filter_In in Hin as [Hin _]. now apply booleanCandidates_valid.
  - apply filter_In in Hin as [Hin _]. unfold validateEnum, enumCandidates in *.
    destruct (opt_enum option) as [vs|]; [|reflexivity].
    apply member_In in Hin. now rewrite Hin.
  - apply filter_In in Hin as [Hin _]. unfold colorCandidates in Hin.
    destruct Hin as [E|Hin]; [congruence|]. now apply namedColors_valid.
Qed.

Lemma offered_values_validate_witness :
  validateValue sampleSchema (lit "background") (lit "cell-background")
  = valid.
Proof.
  apply (offered_values_validate sampleSchema (lit "background")
           (lit "background = cell-b") (lit "cell-background")
           (plainOption TColor)).
  - reflexivity.
  - right. right. split; [reflexivity | discriminate].
  - vm_compute. tauto.
Defined.

(** ** The hover provider *)

Section HoverDispatchFacts.

Lemma shape_not_hash (line indent key ws1 ws2 value ws3 : str) :
  keyValueShape line indent key ws1 ws2 value ws3 ->
  startsWith (trim line) (lit "#") = false.
Proof.
  intros (-> & Hi & Hk & _).
  destruct key as [|k krest]; [discriminate Hk|].
  simpl in Hk. apply andb_true_iff in Hk as [Hk _].
  cbn [app].
  destruct (trim_first indent k
              (krest ++ ws1 ++ equalsSign :: ws2 ++ value ++ ws3) Hi)
    as (r' & ->).
  { now apply isKeyChar_not_whitespace, isAlpha_isKeyChar. }
  change (lit "#") with [hash]. cbn [startsWith].
  destruct (N.eqb_spec k hash) as [->|_]; [discriminate Hk | reflexivity].
Qed.

End HoverDispatchFacts.

(** X19.  The hover follows the position look-ups of the parser: where
    [getKeyAtPosition] answers a key the hover is the key's hover;
    otherwise, where [getValueAtPosition] answers a key and a value, it is
    the value's hover; everywhere else (comments, empty and invalid lines,
    positions outside both ranges) there is no hover. *)
Theorem provideHover_dispatch (numberToString : number -> str)
  (schema : GhosttySchema) (document : TextDocument) (position : Position) :
  provideHover numberToString schema document position =
  match getKeyAtPosition document position with
  | Some key => getKeyHover numberToString schema key
  | None =>
      match getValueAtPosition document position with
      | Some (key, value) => getValueHover schema key value
      | None => None
      end
  end.
Proof.
  unfold provideHover, getKeyAtPosition, getValueAtPosition. cbv zeta.
  set (line := document (pos_line position)).
  destruct (pl_type (parseLine line (pos_line position))) eqn:Hty;
    try (now destruct (startsWith (trim line) (lit "#"))).
  apply keyValue_record in Hty
    as (indent & key & ws1 & ws2 & value & ws3 & Hshape & _).
  rewrite (shape_not_hash _ _ _ _ _ _ _ Hshape).
  rewrite (parseLine_shape _ _ _ _ _ _ _ (pos_line position) Hshape).
  cbn [pl_type pl_key pl_value pl_keyRange pl_valueRange withinRange].
  assert (Hk : truthy key = true).
  { destruct Hshape as (_ & _ & Hk & _). destruct key; [discriminate Hk|].
    reflexivity. }
  rewrite Hk.
  destruct (_ && _); [reflexivity|].
  destruct (_ && _); [|reflexivity].
  now destruct value.
Qed.

Section HoverValueFacts.

Lemma boolean_lists (x : str) :
  member x BOOLEAN_VALUES
  = member x (map lit ["true"; "yes"; "on"]%string)
    || member x (map lit ["false"; "no"; "off"]%string).
Proof.
  unfold member, BOOLEAN_VALUES. cbn [map existsb].
  destruct (str_eqb x (lit "true")), (str_eqb x (lit "false")),
    (str_eqb x (lit "yes")), (str_eqb x (lit "no")),
    (str_eqb x (lit "on")), (str_eqb x (lit "off")); reflexivity.
Qed.

Lemma Lang_RepUpTo_Cls (p : N -> bool) (n : nat) (s : str) :
  Lang (RepUpTo n (Cls p)) s <->
  (List.length s <= n)%nat /\ forallb p s = true.
Proof.
  revert s. induction n as [|n IH]; intros s; cbn [RepUpTo].
  - rewrite Lang_Eps. split.
    + intros ->. simpl. auto.
    + intros [H _]. destruct s; [reflexivity | simpl in H; lia].
  - rewrite Lang_Opt, Lang_Seq. split.
    + intros [->|(u & t & -> & Hu & Ht)].
      * simpl. split; [lia | reflexivity].
      * apply Lang_Cls in Hu as (c & -> & Hc). apply IH in Ht as [Hl Hf].
        simpl. rewrite Hc, Hf. split; [lia | reflexivity].
    + intros [Hl Hf]. destruct s as [|c s]; [now left|]. right.
      simpl in Hl, Hf. apply andb_true_iff in Hf as [Hc Hf].
      exists [c], s. repeat split; [now constructor|].
      apply IH. split; [lia | assumption].
Qed.

Lemma Lang_hex_range (s : str) :
  Lang (Seq (Rep 3 (Cls isHexDigit)) (RepUpTo 5 (Cls isHexDigit))) s <->
  (3 <= List.length s <= 8)%nat /\ forallb isHexDigit s = true.
Proof.
  rewrite Lang_Seq. split.
  - intros (u & t & -> & Hu & Ht).
    apply Lang_Rep_Cls in Hu as [Hl Hf].
    apply Lang_RepUpTo_Cls in Ht as [Hl' Hf'].
    rewrite length_app, forallb_app, Hf, Hf'. split; [lia | reflexivity].
  - intros [Hl Hf]. exists (firstn 3 s), (skipn 3 s).
    rewrite <- (firstn_skipn 3 s) in Hf. rewrite forallb_app in Hf.
    apply andb_true_iff in Hf as [Hf1 Hf2].
    split; [now rewrite firstn_skipn|]. split.
    + apply Lang_Rep_Cls. split; [|assumption].
      rewrite length_firstn. lia.
    + apply Lang_RepUpTo_Cls. split; [|assumption].
      rewrite length_skipn. lia.
Qed.

(** What the hover's expression for colours accepts. *)
Lemma HOVER_HEX_REGEX_spec (value : str) :
  matches HOVER_HEX_REGEX value = true <->
  (3 <= List.length (hexGroup value) <= 8)%nat
  /\ forallb isHexDigit (hexGroup value) = true.
Proof.
  rewrite matches_Lang. unfold HOVER_HEX_REGEX. rewrite Lang_Seq.
  rewrite <- Lang_hex_range. split.
  - intros (u & t & -> & Hu & Ht). apply Lang_Opt in Hu as [->|Hu].
    + simpl app. destruct t as [|c r]; [assumption|].
      unfold hexGroup. destruct (N.eqb_spec c hash) as [->|_]; [|assumption].
      apply Lang_hex_range in Ht as [_ Ht]. discriminate Ht.
    + apply Lang_Chr in Hu. subst u. unfold hexGroup. cbn [app].
      now rewrite N.eqb_refl.
  - intros H. destruct value as [|c r].
    + exists [], []. repeat split; [apply Lang_Opt; now left | assumption].
    + unfold hexGroup in H. destruct (N.eqb_spec c hash) as [->|Hne].
      * exists [hash], r. repeat split; [|assumption].
        apply Lang_Opt. right. now apply Lang_Chr.
      * exists [], (c :: r). repeat split; [apply Lang_Opt; now left|].
        assumption.
Qed.

End HoverValueFacts.

(** X20.  The hover of a boolean value and [validateBoolean] agree: the
    hover shows the invalid-boolean warning exactly for the values the
    validator rejects, and [Enabled] or [Disabled] for the others. *)
Theorem getBooleanHover_agrees (value : str) :
  (isValid (validateBoolean value) = false <->
   getBooleanHover value = plain (invalidBooleanText value))
  /\ (isValid (validateBoolean value) = true <->
      getBooleanHover value = plain (enabledText value)
      \/ getBooleanHover value = plain (disabledText value)).
Proof.
  unfold validateBoolean, getBooleanHover. cbv zeta.
  rewrite boolean_lists.
  assert (D1 : plain (enabledText value) <> plain (invalidBooleanText value)).
  { intros E. inversion E. }
  assert (D2 : plain (disabledText value) <> plain (invalidBooleanText value)).
  { intros E. inversion E. }
  destruct (member (toLowerCase value) (map lit ["true"; "yes"; "on"]%string));
    [|destruct (member (toLowerCase value)
                  (map lit ["false"; "no"; "off"]%string))];
    simpl; (split; split); try discriminate; try tauto; auto.
  - intros [E|E]; symmetry in E; contradiction.
Qed.

(** X21.  The hover of an enum value marks the value valid exactly when
    it is in the option's list.  When the list is declared this is the
    verdict of [validateValue] for a value that is not blank; when the
    option has no list the hover marks every value unknown, while
    [validateValue] accepts every value. *)
Theorem getValueHover_enum (schema : GhosttySchema) (key value : str)
  (option : ConfigOption) :
  lookup key (sch_options schema) = Some option ->
  opt_type option = TEnum ->
  (In value (enumCandidates option) ->
   getValueHover schema key value
   = Some (plain (validValueText value
                  ++ allValuesText (enumCandidates option))))
  /\ (~ In value (enumCandidates option) ->
      getValueHover schema key value
      = Some (plain (unknownValueText value
                     ++ allValuesText (enumCandidates option))))
  /\ (opt_enum option <> None -> trim value <> [] ->
      (In value (enumCandidates option) <->
       isValid (validateValue schema key value) = true))
  /\ (opt_enum option = None ->
      ~ In value (enumCandidates option)
      /\ validateValue schema key value = valid).
Proof.
  intros Hkey Hty.
  unfold getValueHover, getEnumHover, validateValue, getProperty.
  rewrite Hkey, Hty. unfold enumCandidates, validateEnum. cbv zeta.
  destruct (opt_enum option) as [vs|].
  - split; [|split; [|split]].
    + intros H. apply member_In in H. now rewrite H.
    + intros H. destruct (member value vs) eqn:Hm; [|reflexivity].
      apply member_In in Hm. contradiction.
    + intros _ Hblank. apply str_eqb_neq in Hblank. rewrite Hblank.
      rewrite <- member_In. now destruct (member value vs).
    + discriminate.
  - split; [|split; [|split]].
    + intros [].
    + reflexivity.
    + congruence.
    + intros _. split; [intros []|].
      now destruct (str_eqb (trim value) []).
Qed.

Lemma getValueHover_enum_witness :
  getValueHover smallSchema (lit "cursor-style") (lit "bar")
  = Some (plain (validValueText (lit "bar")
                 ++ allValuesText [lit "block"; lit "bar"]))
  /\ validateValue sampleSchema (lit "window-theme") (lit "dark") = valid
  /\ getValueHover sampleSchema (lit "window-theme") (lit "dark")
     = Some (plain (unknownValueText (lit "dark") ++ allValuesText [])).
Proof.
  split; [|split].
  - apply (getValueHover_enum smallSchema (lit "cursor-style") (lit "bar")
             styleOption eq_refl eq_refl).
    vm_compute. tauto.
  - apply (getValueHover_enum sampleSchema (lit "window-theme") (lit "dark")
             (plainOption TEnum) eq_refl eq_refl).
    reflexivity.
  - apply (getValueHover_enum sampleSchema (lit "window-theme") (lit "dark")
             (plainOption TEnum) eq_refl eq_refl).
    intros [].
Defined.

Section HoverColourFacts.

Lemma hexGroup_cases (value : str) :
  value = hash :: hexGroup value
  \/ (hexGroup value = value /\ forall r, value <> hash :: r).
Proof.
  destruct value as [|c r]; [right; split; [reflexivity | discriminate]|].
  unfold hexGroup. destruct (N.eqb_spec c hash) as [->|Hne]; [now left|].
  right. split; [reflexivity|]. intros r' E. inversion E. contradiction.
Qed.

Lemma hexGroup_hash (t : str) : hexGroup (hash :: t) = t.
Proof. unfold hexGroup. now rewrite N.eqb_refl. Qed.

Lemma hexGroup_hex (t : str) :
  forallb isHexDigit t = true -> hexGroup t = t.
Proof.
  destruct t as [|c r]; [reflexivity|]. intros H. unfold hexGroup.
  destruct (N.eqb_spec c hash) as [->|_]; [discriminate H | reflexivity].
Qed.

Lemma lowerUnit_hex (c : N) :
  isHexDigit c = true ->
  exists d, lowerUnit c = [d] /\ isHexDigit d = true.
Proof.
  intros H.
  assert (Back : forall d,
             (48 <= d <= 57 \/ 97 <= d <= 102 \/ 65 <= d <= 70)%N ->
             isHexDigit d = true).
  { intros d Hd. unfold isHexDigit, isDigit.
    rewrite !orb_true_iff, !andb_true_iff, !N.leb_le. lia. }
  assert (R : (48 <= c <= 57 \/ 97 <= c <= 102 \/ 65 <= c <= 70)%N).
  { unfold isHexDigit, isDigit in H.
    rewrite !orb_true_iff, !andb_true_iff, !N.leb_le in H. lia. }
  assert (Rest : (c < 65 \/ 90 < c)%N -> lowerUnit c = [c]).
  { intros Hc. unfold lowerUnit.
    destruct (N.leb_spec 65 c), (N.leb_spec c 90); cbn [andb]; try lia;
      (destruct (N.leb_spec 192 c); [lia|]); cbn [andb];
      (destruct (N.eqb_spec c 304); [lia|]);
      (destruct (N.eqb_spec c 376); [lia|]);
      (destruct (N.eqb_spec c 7838); [lia|]);
      (destruct (N.eqb_spec c 8490); [lia|]);
      (destruct (N.eqb_spec c 8491); [lia|]); reflexivity. }
  destruct (N.leb_spec 65 c) as [H1|H1];
    [destruct (N.leb_spec c 90) as [H2|H2]|].
  - exists (c + 32)%N. split; [|apply Back; lia].
    unfold lowerUnit.
    destruct (N.leb_spec 65 c), (N.leb_spec c 90); cbn [andb]; try lia.
    reflexivity.
  - exists c. split; [apply Rest; lia | exact H].
  - exists c. split; [apply Rest; lia | exact H].
Qed.

Lemma toLowerCase_hex (s : str) :
  forallb isHexDigit s = true ->
  List.length (toLowerCase s) = List.length s
  /\ forallb isHexDigit (toLowerCase s) = true.
Proof.
  unfold toLowerCase. induction s as [|c s IH]; [auto|].
  cbn [forallb flat_map]. intros H. apply andb_true_iff in H as [Hc Hs].
  destruct (lowerUnit_hex c Hc) as (d & -> & Hd).
  destruct (IH Hs) as [Hl Hf]. cbn [app List.length forallb].
  rewrite Hd, Hf, Hl. auto.
Qed.

(** Lower-casing keeps a value in the language of the hover's expression. *)
Lemma HOVER_HEX_REGEX_lower (value : str) :
  matches HOVER_HEX_REGEX value = true ->
  matches HOVER_HEX_REGEX (toLowerCase value) = true.
Proof.
  rewrite !HOVER_HEX_REGEX_spec. intros [Hl Hf].
  destruct (toLowerCase_hex _ Hf) as [Hl' Hf'].
  destruct (hexGroup_cases value) as [E|[E _]].
  - rewrite E. unfold toLowerCase. cbn [flat_map].
    change (lowerUnit hash) with [hash]. cbn [app].
    rewrite hexGroup_hash. fold (toLowerCase (hexGroup value)).
    rewrite Hl'. auto.
  - rewrite E in *. rewrite (hexGroup_hex _ Hf'). rewrite Hl'. auto.
Qed.

(** No named colour is read as hexadecimal digits by the hover. *)
Lemma named_not_hex (value : str) :
  member (toLowerCase value) NAMED_COLORS = true ->
  matches HOVER_HEX_REGEX value = false.
Proof.
  intros Hn. destruct (matches HOVER_HEX_REGEX value) eqn:Hm; [|reflexivity].
  apply HOVER_HEX_REGEX_lower in Hm. apply member_In in Hn.
  assert (Hall : forallb (fun c => negb (matches HOVER_HEX_REGEX c))
                   NAMED_COLORS = true) by (vm_compute; reflexivity).
  rewrite forallb_forall in Hall. apply Hall in Hn. rewrite Hm in Hn.
  discriminate Hn.
Qed.

Lemma displayColorOf_three (a b c : N) (value : str) :
  hexGroup value = [a; b; c] ->
  displayColorOf value = hash :: doubled [a; b; c].
Proof. unfold displayColorOf. intros ->. reflexivity. Qed.

Lemma displayColorOf_longer (value : str) :
  List.length (hexGroup value) <> 3%nat ->
  displayColorOf value = hash :: hexGroup value.
Proof.
  intros Hl. unfold displayColorOf. cbv zeta.
  assert (E : (if startsWith value (lit "#") then value else lit "#" ++ value)
              = hash :: hexGroup value).
  { destruct value as [|x r]; [reflexivity|].
    change (lit "#") with [hash]. cbn [startsWith hexGroup app].
    destruct (N.eqb x hash) eqn:Ex; cbn [andb]; [|reflexivity].
    apply N.eqb_eq in Ex. now subst. }
  destruct (hexGroup value) as [|h0 [|h1 [|h2 [|h3 t]]]]; try exact E.
  exfalso. now apply Hl.
Qed.

Lemma formatOf_length (hex : str) :
  formatOf hex =
  if (List.length hex <=? 3)%nat then lit "#RGB"
  else if (List.length hex <=? 6)%nat then lit "#RRGGBB"
  else lit "#RRGGBBAA".
Proof.
  unfold formatOf, len.
  destruct (Z.leb_spec (Z.of_nat (List.length hex)) 3),
    (Nat.leb_spec (List.length hex) 3); try lia; [reflexivity|].
  destruct (Z.leb_spec (Z.of_nat (List.length hex)) 6),
    (Nat.leb_spec (List.length hex) 6); try lia; reflexivity.
Qed.

Lemma colour_not_named (a b value : str) :
  plain (colourText a b) <> plain (namedColourText value).
Proof.
  unfold colourText, namedColourText, plain. intros E.
  injection E as E. discriminate E.
Qed.

End HoverColourFacts.

(** X22.  What the hover shows for the values [validateColor] accepts:
    [#] with three digits is shown expanded to six, every digit doubled,
    with the format [#RGB]; six digits, with or without [#], are shown
    with a leading [#] and the format [#RRGGBB]; [#] with eight digits is
    shown as written with the format [#RRGGBBAA]; a named colour, in any
    letter case, is shown as a named colour. *)
Theorem getColorHover_of_valid_colours :
  (forall t, hexDigits 3 t ->
     getColorHover (hash :: t)
     = plain (colourText (hash :: doubled t) (lit "#RGB")))
  /\ (forall t, hexDigits 6 t ->
       getColorHover (hash :: t)
       = plain (colourText (hash :: t) (lit "#RRGGBB"))
       /\ getColorHover t = plain (colourText (hash :: t) (lit "#RRGGBB")))
  /\ (forall t, hexDigits 8 t ->
       getColorHover (hash :: t)
       = plain (colourText (hash :: t) (lit "#RRGGBBAA")))
  /\ (forall value, namedColorInsensitive value ->
       getColorHover value = plain (namedColourText value)).
Proof.
  assert (Hex : forall n value,
             (3 <= n <= 8)%nat -> hexDigits n (hexGroup value) ->
             getColorHover value
             = plain (colourText (displayColorOf value)
                        (formatOf (hexGroup value)))).
  { intros n value Hn H. apply hexDigits_forallb in H as [Hl Hf].
    unfold getColorHover.
    replace (matches HOVER_HEX_REGEX value) with true; [reflexivity|].
    symmetry. apply HOVER_HEX_REGEX_spec. split; [lia | assumption]. }
  split; [|split; [|split]].
  - intros t H. rewrite (Hex 3%nat) by (rewrite ?hexGroup_hash; auto; lia).
    rewrite hexGroup_hash. destruct H as [Hl _].
    destruct t as [|a [|b [|c [|d t]]]]; try discriminate Hl.
    rewrite (displayColorOf_three a b c) by apply hexGroup_hash.
    reflexivity.
  - intros t H. pose proof H as [Hl Hf]%hexDigits_forallb. split.
    + rewrite (Hex 6%nat) by (rewrite ?hexGroup_hash; auto; lia).
      rewrite displayColorOf_longer by (rewrite hexGroup_hash; lia).
      rewrite hexGroup_hash, formatOf_length, Hl. reflexivity.
    + rewrite (Hex 6%nat) by (rewrite ?hexGroup_hex; auto; lia).
      rewrite displayColorOf_longer by (rewrite hexGroup_hex; auto; lia).
      rewrite hexGroup_hex, formatOf_length, Hl by assumption. reflexivity.
  - intros t H. pose proof H as [Hl Hf]%hexDigits_forallb.
    rewrite (Hex 8%nat) by (rewrite ?hexGroup_hash; auto; lia).
    rewrite displayColorOf_longer by (rewrite hexGroup_hash; lia).
    rewrite hexGroup_hash, formatOf_length, Hl. reflexivity.
  - intros value H. apply NAMED_COLORS_spec, named_not_hex in H.
    unfold getColorHover. now rewrite H.
Qed.

Lemma getColorHover_of_valid_colours_witness :
  getColorHover (lit "#f0a")
  = plain (colourText (lit "#ff00aa") (lit "#RGB"))
  /\ getColorHover (lit "00ff7F")
     = plain (colourText (lit "#00ff7F") (lit "#RRGGBB"))
  /\ getColorHover (lit "#00ff7F80")
     = plain (colourText (lit "#00ff7F80") (lit "#RRGGBBAA"))
  /\ getColorHover (lit "Transparent")
     = plain (namedColourText (lit "Transparent")).
Proof.
  destruct getColorHover_of_valid_colours as (H3 & H6 & H8 & Hn).
  split; [|split; [|split]].
  - apply (H3 (lit "f0a")). apply hexDigits_forallb. vm_compute. auto.
  - apply (H6 (lit "00ff7F")). apply hexDigits_forallb. vm_compute. auto.
  - apply (H8 (lit "00ff7F80")). apply hexDigits_forallb. vm_compute. auto.
  - apply (Hn (lit "Transparent")). exists (lit "transparent").
    split; [vm_compute; tauto | vm_compute; reflexivity].
Defined.

(** X23.  The hover shows a value as a hexadecimal colour exactly when
    the value is three to eight hexadecimal digits after an optional [#].
    Of these values [validateColor] accepts only the ones with six
    digits and the ones with a [#] and three or eight digits: the others
    (four, five or seven digits; three or eight digits without [#]) get a
    colour hover although the validator reports them as invalid. *)
Theorem getColorHover_hex_iff (value : str) :
  (getColorHover value
   = plain (colourText (displayColorOf value) (formatOf (hexGroup value)))
   <-> (3 <= List.length (hexGroup value) <= 8)%nat
       /\ forallb isHexDigit (hexGroup value) = true)
  /\ ((3 <= List.length (hexGroup value) <= 8)%nat ->
      forallb isHexDigit (hexGroup value) = true ->
      (isValid (validateColor value) = true <-> acceptedHexForm value)).
Proof.
  split.
  - rewrite <- HOVER_HEX_REGEX_spec. unfold getColorHover.
    destruct (matches HOVER_HEX_REGEX value); split; auto.
    + intros E. symmetry in E. now apply colour_not_named in E.
    + discriminate.
  - intros Hl Hf. rewrite validateColor_valid_iff. unfold acceptedHexForm.
    assert (Hm : matches HOVER_HEX_REGEX value = true)
      by (apply HOVER_HEX_REGEX_spec; auto).
    split.
    + intros [H|[(t & E & H)|H]].
      * apply hexDigits_forallb in H as [H6 Hx].
        rewrite (hexGroup_hex _ Hx). now left.
      * subst value. rewrite hexGroup_hash.
        destruct H as [[H _]|[[H _]|[H _]]]; auto.
      * apply NAMED_COLORS_spec, named_not_hex in H. congruence.
    + intros [H6|[E [H3|H8]]].
      * destruct (hexGroup_cases value) as [E|[E _]].
        -- right. left. exists (hexGroup value). split; [assumption|].
           right. left. now apply hexDigits_forallb.
        -- left. rewrite E in *. now apply hexDigits_forallb.
      * right. left. exists (hexGroup value). split; [assumption|].
        left. now apply hexDigits_forallb.
      * right. left. exists (hexGroup value). split; [assumption|].
        right. right. now apply hexDigits_forallb.
Qed.

Lemma getColorHover_hex_iff_witness :
  isValid (validateColor (lit "#abcd")) = false
  /\ getColorHover (lit "#abcd")
     = plain (colourText (lit "#abcd") (lit "#RRGGBB"))
  /\ ~ acceptedHexForm (lit "#abcd").
Proof.
  assert (Hl : (3 <= List.length (hexGroup (lit "#abcd")) <= 8)%nat)
    by (vm_compute; lia).
  assert (Hf : forallb isHexDigit (hexGroup (lit "#abcd")) = true)
    by reflexivity.
  split; [reflexivity|]. split.
  - apply (proj1 (getColorHover_hex_iff (lit "#abcd"))). auto.
  - intros H.
    apply (proj2 (getColorHover_hex_iff (lit "#abcd")) Hl Hf) in H.
    discriminate H.
Defined.

Section HoverKeybindFacts.

Lemma keybindText_not_clear (t a : str) :
  trusted (keybindText t a) <> trusted clearText.
Proof.
  unfold keybindText, clearText, trusted. intros E.
  injection E as E. discriminate E.
Qed.

Lemma keybindText_not_invalid (t a : str) :
  trusted (keybindText t a) <> trusted invalidKeybindText.
Proof.
  unfold keybindText, invalidKeybindText, trusted. intros E.
  injection E as E. discriminate E.
Qed.

Lemma takeWhile_all (p : N -> bool) (s : str) :
  forallb p s = true -> takeWhile p s = s.
Proof.
  induction s as [|c s IH]; [reflexivity|]. cbn [forallb takeWhile].
  intros H. apply andb_true_iff in H as [-> H]. now rewrite IH.
Qed.

Lemma not_In_forallb (c : N) (s : str) :
  ~ In c s -> forallb (fun x => negb (N.eqb x c)) s = true.
Proof.
  intros H. apply forallb_forall. intros x Hx.
  destruct (N.eqb_spec x c); [subst; contradiction | reflexivity].
Qed.

(** The action is cut at its first [:] by both readings of it. *)
Lemma action_parts (actionPart : str) :
  (~ In colon actionPart /\ actionNameShown actionPart = actionPart
   /\ actionParamShown actionPart = None
   /\ actionNameOf actionPart = actionPart)
  \/ (exists name param,
        actionPart = name ++ colon :: param /\ ~ In colon name
        /\ actionNameShown actionPart = name
        /\ actionParamShown actionPart = Some param
        /\ actionNameOf actionPart = name).
Proof.
  unfold actionNameShown, actionParamShown, actionNameOf. cbv zeta.
  destruct (in_dec N.eq_dec colon actionPart) as [Hin|Hout].
  - right. destruct (indexOf_split colon actionPart Hin)
      as (name & param & -> & Hname & E).
    exists name, param. rewrite E.
    assert (Hne : (len name =? -1)%Z = false)
      by (apply Z.eqb_neq; pose proof (len_nonneg name); lia).
    rewrite Hne. cbn [negb].
    rewrite substring_prefix, substringFrom_after.
    repeat split; auto.
    apply (takeWhile_app_stop _ name (colon :: param)).
    + now apply not_In_forallb.
    + unfold stopsAt. now rewrite N.eqb_refl.
  - left. pose proof (proj2 (indexOf_absent colon actionPart) Hout) as E.
    rewrite E. cbn [Z.eqb negb]. repeat split; auto.
    apply takeWhile_all. now apply not_In_forallb.
Qed.

End HoverKeybindFacts.

(** X24.  The hover of a keybind value reads the value as
    [validateKeybind] does.  It shows the clear text exactly for [clear]
    and the invalid-format text exactly when the validator reports the
    format error.  Every other value is cut at its first [=] into a
    trigger and an action, and the action at its first [:] into a name
    and a parameter; the name shown is the one the validator names when
    it warns about an unknown action. *)
Theorem getKeybindHover_agrees (schema : GhosttySchema) (value : str) :
  (getKeybindHover value = trusted clearText <-> value = lit "clear")
  /\ (getKeybindHover value = trusted invalidKeybindText <->
      validateKeybind value schema = invalid MsgKeybindFormat SevError)
  /\ (forall trigger actionPart,
        value = trigger ++ equalsSign :: actionPart ->
        ~ In equalsSign trigger ->
        getKeybindHover value = trusted (keybindText trigger actionPart)
        /\ actionPart
           = actionNameShown actionPart
             ++ match actionParamShown actionPart with
                | Some param => colon :: param
                | None => []
                end
        /\ ~ In colon (actionNameShown actionPart)
        /\ forall a,
             validateKeybind value schema
             = invalid (MsgUnknownAction a) SevWarning ->
             a = actionNameShown actionPart).
Proof.
  split; [|split].
  - unfold getKeybindHover. cbv zeta.
    destruct (str_eqb value (lit "clear")) eqn:Ec.
    + apply str_eqb_eq in Ec. tauto.
    + apply str_eqb_neq in Ec.
      destruct (indexOf equalsSign value =? -1)%Z; split; try contradiction.
      * intros E. injection E as E. discriminate E.
      * intros E. now apply keybindText_not_clear in E.
  - unfold getKeybindHover, validateKeybind. cbv zeta.
    destruct (str_eqb value (lit "clear")).
    + split; [intros E; injection E as E; discriminate E | discriminate].
    + destruct (indexOf equalsSign value =? -1)%Z; [tauto|].
      split; [intros E; now apply keybindText_not_invalid in E|].
      destruct (str_eqb (trim (substring value 0 (indexOf equalsSign value)))
                  []); [discriminate|].
      match goal with
      | |- context [if ?c then invalid MsgEmptyAction SevError else _] =>
          destruct c; [discriminate|]
      end.
      destruct (lookup (lit "keybind") (sch_types schema)) as [kt|];
        [|discriminate].
      destruct (td_actions kt) as [actions|]; [|discriminate].
      destruct (_ && _); discriminate.
  - intros trigger actionPart -> Htrigger.
    assert (Hnc : str_eqb (trigger ++ equalsSign :: actionPart) (lit "clear")
                  = false).
    { apply str_eqb_neq. intros E.
      assert (Hin : In equalsSign (trigger ++ equalsSign :: actionPart))
        by (apply in_elt).
      rewrite E in Hin. vm_compute in Hin.
      repeat (destruct Hin as [Hin|Hin]; [discriminate Hin|]).
      exact Hin. }
    split; [|split; [|split]].
    + unfold getKeybindHover. cbv zeta. rewrite Hnc.
      rewrite (indexOf_app _ _ _ Htrigger).
      assert (Hne : (len trigger =? -1)%Z = false)
        by (apply Z.eqb_neq; pose proof (len_nonneg trigger); lia).
      rewrite Hne, substring_prefix, substringFrom_after. reflexivity.
    + destruct (action_parts actionPart)
        as [(_ & -> & -> & _)|(name & param & E & _ & -> & -> & _)].
      * now rewrite app_nil_r.
      * exact E.
    + destruct (action_parts actionPart)
        as [(H & -> & _)|(name & param & _ & H & -> & _)]; exact H.
    + intros a. rewrite (validateKeybind_split _ _ _ Htrigger).
      assert (En : actionNameOf actionPart = actionNameShown actionPart).
      { destruct (action_parts actionPart)
          as [(_ & -> & _ & ->)|(name & param & _ & _ & -> & _ & ->)];
          reflexivity. }
      rewrite En.
      destruct (str_eqb (trim trigger) []); [discriminate|].
      destruct (str_eqb (trim (actionNameShown actionPart)) []);
        [discriminate|].
      destruct (lookup (lit "keybind") (sch_types schema)) as [kt|];
        [|discriminate].
      destruct (td_actions kt) as [actions|]; [|discriminate].
      destruct (_ && _); [|discriminate].
      intros E. injection E as E. now subst.
Qed.

Lemma getKeybindHover_agrees_witness :
  getKeybindHover (lit "global:ctrl+a>n=new_split:right")
  = trusted (keybindText (lit "global:ctrl+a>n") (lit "new_split:right"))
  /\ actionNameShown (lit "new_split:right") = lit "new_split"
  /\ actionParamShown (lit "new_split:right") = Some (lit "right").
Proof.
  split; [|split; reflexivity].
  apply (proj2 (proj2 (getKeybindHover_agrees sampleSchema
                         (lit "global:ctrl+a>n=new_split:right")))
           (lit "global:ctrl+a>n") (lit "new_split:right") eq_refl).
  vm_compute. intros H.
  repeat (destruct H as [H|H]; [discriminate H|]). exact H.
Defined.
